(** * Lightening Canvas: the stroke capture and rendering engine

    A shallow embedding of the [LightPainter] component (the page component
    of the repository): its stroke data model, the input smoother, the
    pointer handlers (capture pipeline), the undo/redo history, the two
    point simplifiers and the brush renderer working on a 2D canvas context.

    React state ([useState]) and refs ([useRef]) are the fields of one record
    that every handler takes and returns.  JavaScript numbers that only count
    or index (array lengths, loop indices) are [nat]; millisecond readings of
    [Date.now()] and the sampling interval are [Z]; coordinates, pressures,
    sizes and widths are values of an abstract number type with the
    arithmetic the code uses.  The numbers of the code are IEEE 754 doubles,
    the instance [Double_JsNumber]; what is proved for every instance holds
    of them.  The reals stand in where [Math.sin] is needed, and exact
    rationals where a sample input is needed whose numbers play no part.
    Handlers run one after the other, each on the state the previous one
    left. *)

From Stdlib Require Import String Ascii.
From Stdlib Require Import List ZArith QArith Qabs Qpower Qround Bool Arith Lia.
From Stdlib Require Import Reals Lra Qreals.
From Stdlib Require Floats Lqa.
Import ListNotations.

Local Open Scope nat_scope.

(** ** JavaScript numbers *)

(** The arithmetic on coordinates that the code uses.  [lit] reads a numeric
    literal (or an integer loop index used as a number). *)
Class JsNumber (num : Type) : Type := {
  lit : Q -> num;
  add : num -> num -> num;
  sub : num -> num -> num;
  mul : num -> num -> num;
  ltb : num -> num -> bool
}.

(** The part of [Math] the brush renderer uses. *)
Class JsMath (num : Type) : Type := {
  Math_sin : num -> num;
  Math_cos : num -> num;
  Math_PI : num
}.

(** Exact rationals: arithmetic without rounding.  This is not the
    arithmetic of the code (see [Double_JsNumber] below); it serves for
    sample inputs whose numbers play no part. *)
#[export] Instance Q_JsNumber : JsNumber Q := {
  lit := fun q => q;
  add := Qplus;
  sub := Qminus;
  mul := Qmult;
  ltb := fun a b => negb (Qle_bool b a)
}.

(** IEEE 754 binary64, the numbers of the code, as the kernel's primitive
    floats. *)
Module Double.

Import Floats.

(** A whole number below 2^63 in magnitude as a double (exact below
    2^53). *)
Definition of_Z (z : Z) : float :=
  match z with
  | Z0 => PrimFloat.zero
  | Zpos _ => PrimFloat.of_uint63 (Uint63.of_Z z)
  | Zneg m => PrimFloat.opp (PrimFloat.of_uint63 (Uint63.of_Z (Zpos m)))
  end.

(** The double that a decimal literal denotes: the one nearest to the
    fraction, which the division of numerator by denominator gives when
    both are exact as doubles. *)
Definition literal (q : Q) : float :=
  PrimFloat.div (of_Z (Qnum q)) (of_Z (Zpos (Qden q))).

(** The exact value of a finite double, as a fraction in lowest terms;
    infinities and NaN have none. *)
Definition value (f : float) : option Q :=
  match Prim2SF f with
  | S754_zero _ => Some 0%Q
  | S754_finite s m e =>
      Some (Qred (inject_Z (if s then Zneg m else Zpos m) * 2 ^ e))%Q
  | S754_infinity _ => None
  | S754_nan => None
  end.

(** A double that is finite and not below zero:
    [Number.isFinite(f) && f >= 0]. *)
Definition nonnegative (f : float) : bool :=
  match Prim2SF f with
  | S754_zero _ => true
  | S754_finite s _ _ => negb s
  | S754_infinity _ => false
  | S754_nan => false
  end.

(** A double that is not negative: a zero, a finite double with the sign
    bit clear, or plus infinity. *)
Definition notNegative (v : spec_float) : Prop :=
  match v with
  | S754_zero _ => True
  | S754_finite s _ _ => s = false
  | S754_infinity s => s = false
  | S754_nan => False
  end.

(** The value that the fields of a double denote, as they stand; [value]
    is this fraction in lowest terms. *)
Definition valueSF (v : spec_float) : option Q :=
  match v with
  | S754_zero _ => Some 0%Q
  | S754_finite s m e =>
      Some (inject_Z (if s then Zneg m else Zpos m) * 2 ^ e)%Q
  | S754_infinity _ => None
  | S754_nan => None
  end.

(** [q] under the sign bit [s]. *)
Definition signed (s : bool) (q : Q) : Q := if s then (- q)%Q else q.

(** What [q] right shifts have made of the mantissa [mx]: the quotient, the
    bit shifted out last and whether any bit below it was set. *)
Definition shifted (mx q : Z) (mrs : shr_record) : Prop :=
  (0 <= shr_m mrs
   /\ ((q = 0 /\ mx = shr_m mrs /\ shr_r mrs = false /\ shr_s mrs = false)
       \/ (1 <= q
           /\ exists t,
                0 <= t < 2 ^ (q - 1)
                /\ mx = shr_m mrs * 2 ^ q
                        + (if shr_r mrs then 2 ^ (q - 1) else 0) + t
                /\ (shr_s mrs = true <-> 0 < t))))%Z.

(** [res] is a rounding to binary64 of the magnitude [mx * 2^ex] under the
    sign [s]: a zero when the magnitude is at most half the least
    subnormal; a finite double within 2^-53 of the magnitude in proportion,
    or a subnormal within half a unit of its last place; an infinity only
    for a magnitude of at least 2^1024. *)
Definition roundsTo (s : bool) (mx : positive) (ex : Z) (res : spec_float)
  : Prop :=
  match res with
  | S754_zero s' =>
      s' = s /\ (1 <= -1074 - ex /\ 2 * Zpos mx <= 2 ^ (-1074 - ex))%Z
  | S754_finite s' m e =>
      s' = s
      /\ (ex <= e <= 971
          /\ (Z.abs (Zpos m * 2 ^ (e - ex) - Zpos mx) * 2 ^ 53 <= Zpos mx
              \/ (e = -1074
                  /\ 2 * Z.abs (Zpos m * 2 ^ (e - ex) - Zpos mx)
                     <= 2 ^ (e - ex))))%Z
  | S754_infinity s' =>
      s' = s /\ (972 <= ex \/ 1024 <= Zpos (digits2_pos mx) + ex)%Z
  | S754_nan => False
  end.

(** The second normalisation of [binary_round_aux], on the rounded
    mantissa. *)
Definition normalised (s : bool) (m1 e1 : Z) : spec_float :=
  let '(mrs, e) :=
    shr {| shr_m := m1; shr_r := false; shr_s := false |} e1
      (fexp FloatOps.prec FloatOps.emax (Zdigits2 m1 + e1) - e1)%Z in
  match shr_m mrs with
  | Z0 => S754_zero s
  | Zpos m =>
      if (e <=? FloatOps.emax - FloatOps.prec)%Z
      then S754_finite s m e else S754_infinity s
  | Zneg _ => S754_nan
  end.

End Double.

#[export] Instance Double_JsNumber : JsNumber PrimFloat.float := {
  lit := Double.literal;
  add := PrimFloat.add;
  sub := PrimFloat.sub;
  mul := PrimFloat.mul;
  ltb := PrimFloat.ltb
}.

#[export] Instance R_JsNumber : JsNumber R := {
  lit := Q2R;
  add := Rplus;
  sub := Rminus;
  mul := Rmult;
  ltb := fun a b => if Rlt_dec a b then true else false
}.

#[export] Instance R_JsMath : JsMath R := {
  Math_sin := sin;
  Math_cos := cos;
  Math_PI := PI
}.

(** ** Arrays *)

(** [Array.prototype.filter] with the (element, index) callback. *)
Fixpoint filter_from {A : Type} (f : A -> nat -> bool) (i : nat) (l : list A)
  : list A :=
  match l with
  | [] => []
  | a :: l' =>
      if f a i then a :: filter_from f (S i) l' else filter_from f (S i) l'
  end.

Definition Array_filter {A : Type} (f : A -> nat -> bool) (l : list A)
  : list A := filter_from f 0 l.

(** [Array.prototype.pop]: the array without its last element, and that
    element ([undefined], here [None], on the empty array). *)
Fixpoint Array_pop {A : Type} (l : list A) : list A * option A :=
  match l with
  | [] => ([], None)
  | [a] => ([], Some a)
  | a :: l' => let (r, o) := Array_pop l' in (a :: r, o)
  end.

(** Last element of an array, [arr[arr.length - 1]]. *)
Definition Array_last {A : Type} (l : list A) : option A :=
  nth_error l (length l - 1).

(** [Math.ceil(a / b)] on array lengths. *)
Definition Math_ceil_div (a b : nat) : nat :=
  if a mod b =? 0 then a / b else S (a / b).

(** The outcome of running code that indexes arrays: reading a field of
    [undefined] raises a [TypeError]; a loop that has not ended when its fuel
    is used up is reported as such. *)
Inductive Result (A : Type) : Type :=
| Ok (a : A)
| TypeError
| OutOfFuel.
Arguments Ok {A} a.
Arguments TypeError {A}.
Arguments OutOfFuel {A}.

(** ** Data model *)

Inductive BrushStyle : Type := ripple | pulse | particle.

Section Engine.

Context {num : Type} {NumOps : JsNumber num}.

Record StrokePoint : Type := mkStrokePoint {
  x : num;
  y : num;
  pressure : num;
  timestamp : Z
}.

Record Stroke : Type := mkStroke {
  points : list StrokePoint;
  brush : BrushStyle;
  color : string;
  size : num
}.

(** The [{x, y}] objects held by [lastPointRef] and passed to [smoothInput]. *)
Record Point : Type := mkPoint {
  pt_x : num;
  pt_y : num
}.

(** The [{x, y, pressure}] object returned by [smoothInput]. *)
Record SmoothedPoint : Type := mkSmoothed {
  sm_x : num;
  sm_y : num;
  sm_pressure : num
}.

(** ** Canvas 2D context *)

(** A value assigned to [strokeStyle] or [fillStyle]: a colour string, or the
    string that one of the two colour helpers computes from a colour and a
    number.  The helpers only produce these strings, and nothing in the
    engine reads them back, so their calls are kept as terms. *)
Inductive Style : Type :=
| css (c : string)
| adjustColorBrightness (c : string) (factor : num)
| setColorOpacity (c : string) (opacity : num).

(** The drawing state that [save()] pushes and [restore()] pops. *)
Record DrawState : Type := mkDrawState {
  globalCompositeOperation : string;
  lineJoin : string;
  lineCap : string;
  shadowBlur : num;
  shadowColor : string;
  lineWidth : num;
  strokeStyle : Style;
  fillStyle : Style;
  globalAlpha : num
}.

Inductive Segment : Type :=
| MoveTo (px py : num)
| LineTo (px py : num)
| Arc (px py radius startAngle endAngle : num).

(** What reaches the surface: each painting call with the path and the
    drawing state it was made in. *)
Inductive Paint : Type :=
| Stroked (p : list Segment) (s : DrawState)
| Filled (p : list Segment) (s : DrawState)
| FillRect (rx ry w h : num) (s : DrawState)
| ClearRect (rx ry w h : num).

Record Context2D : Type := mkContext2D {
  state : DrawState;
  saved : list DrawState;
  path : list Segment
}.

(** ** Component state *)

Record LightPainter : Type := mkLightPainter {
  canvasRef : bool;                 (* canvasRef.current is mounted *)
  ctx : option Context2D;
  surface : list Paint;             (* what has been painted on the canvas *)
  isDrawing : bool;
  tempStroke : option Stroke;
  strokes : list Stroke;
  redoStack : list Stroke;
  brushSize : num;
  brushStyle : BrushStyle;
  selectedColor : string;
  darkMode : bool;
  lastTimeRef : num;
  lastPointRef : option Point;
  lastMoveTimeRef : Z;
  moveThrottleRef : Z
}.

Definition initialState (initialColor : string) : LightPainter :=
  {| canvasRef := false; ctx := None; surface := [];
     isDrawing := false; tempStroke := None;
     strokes := []; redoStack := [];
     brushSize := lit 30; brushStyle := ripple;
     selectedColor := initialColor; darkMode := false;
     lastTimeRef := lit 0; lastPointRef := None;
     lastMoveTimeRef := 0%Z; moveThrottleRef := 16%Z |}.

(** What a pointer event carries, with the canvas rectangle read by
    [getBoundingClientRect()] while it is handled. *)
Record PointerEvent : Type := mkPointerEvent {
  clientX : num;
  clientY : num;
  e_pressure : num;
  rect_left : num;
  rect_top : num
}.

(** ** Input smoother *)

Definition alpha : num := lit 0.7.

(** [smoothInput], with [lastPointRef.current] passed in and returned. *)
Definition smoothInput (lastPoint : option Point) (point : Point)
  (pressure0 : num) : option Point * SmoothedPoint :=
  match lastPoint with
  | None =>
      (Some point,
       {| sm_x := pt_x point; sm_y := pt_y point; sm_pressure := pressure0 |})
  | Some last =>
      let smoothedX :=
        add (mul alpha (pt_x point)) (mul (sub (lit 1) alpha) (pt_x last)) in
      let smoothedY :=
        add (mul alpha (pt_y point)) (mul (sub (lit 1) alpha) (pt_y last)) in
      (Some {| pt_x := smoothedX; pt_y := smoothedY |},
       {| sm_x := smoothedX; sm_y := smoothedY; sm_pressure := pressure0 |})
  end.

(** ** Point simplification on commit *)

Definition simplificationFactor (tempStroke0 : Stroke) : nat :=
  Math_ceil_div (length (points tempStroke0)) 500.

Definition optimizedStroke (tempStroke0 : Stroke) : Stroke :=
  if 500 <? length (points tempStroke0) then
    {| points :=
         Array_filter
           (fun _ i =>
              (i mod simplificationFactor tempStroke0 =? 0)
              || (i =? length (points tempStroke0) - 1))
           (points tempStroke0);
       brush := brush tempStroke0;
       color := color tempStroke0;
       size := size tempStroke0 |}
  else tempStroke0.

(** ** Capture pipeline *)

Definition eventPressure (e : PointerEvent) : num :=
  if ltb (lit 0) (e_pressure e) then e_pressure e else lit 1.

Definition handlePointerDown (e : PointerEvent) (Date_now : Z)
  (st : LightPainter) : LightPainter :=
  if negb (canvasRef st) then st
  else
    let px := sub (clientX e) (rect_left e) in
    let py := sub (clientY e) (rect_top e) in
    let pressure0 := eventPressure e in
    let strokeColor := selectedColor st in
    (* lastPointRef.current = null, then the first smoothInput call *)
    let '(lastPoint, smoothedInput) :=
      smoothInput None {| pt_x := px; pt_y := py |} pressure0 in
    let newStroke :=
      {| points := [ {| x := sm_x smoothedInput; y := sm_y smoothedInput;
                        pressure := sm_pressure smoothedInput;
                        timestamp := Date_now |} ];
         brush := brushStyle st;
         color := strokeColor;
         size := brushSize st |} in
    {| canvasRef := canvasRef st; ctx := ctx st; surface := surface st;
       isDrawing := true; tempStroke := Some newStroke;
       strokes := strokes st; redoStack := [];
       brushSize := brushSize st; brushStyle := brushStyle st;
       selectedColor := selectedColor st; darkMode := darkMode st;
       lastTimeRef := lastTimeRef st; lastPointRef := lastPoint;
       lastMoveTimeRef := lastMoveTimeRef st;
       moveThrottleRef := moveThrottleRef st |}.

(** The test that makes the sampling interval grow: the stroke has more
    than 100 points and its latest point is younger than one second.  The
    indexed read is guarded by the length test, as [&&] is in the source. *)
Definition underLoad (tempStroke0 : Stroke) (now : Z) : bool :=
  (100 <? length (points tempStroke0))
  && match Array_last (points tempStroke0) with
     | Some p => (now - 1000 <? timestamp p)%Z
     | None => false
     end.

Definition handlePointerMove (e : PointerEvent) (Date_now : Z)
  (st : LightPainter) : LightPainter :=
  match tempStroke st with
  | None => st
  | Some tempStroke0 =>
      if negb (isDrawing st) || negb (canvasRef st) then st
      else if (Date_now - lastMoveTimeRef st <? moveThrottleRef st)%Z then st
      else
        let px := sub (clientX e) (rect_left e) in
        let py := sub (clientY e) (rect_top e) in
        let pressure0 := eventPressure e in
        let '(lastPoint, smoothedInput) :=
          smoothInput (lastPointRef st) {| pt_x := px; pt_y := py |}
            pressure0 in
        let moveThrottle :=
          if underLoad tempStroke0 Date_now
          then Z.min 32 (moveThrottleRef st + 2)
          else Z.max 16 (moveThrottleRef st - 1) in
        {| canvasRef := canvasRef st; ctx := ctx st; surface := surface st;
           isDrawing := isDrawing st;
           tempStroke :=
             Some {| points :=
                       points tempStroke0 ++
                       [ {| x := sm_x smoothedInput; y := sm_y smoothedInput;
                            pressure := sm_pressure smoothedInput;
                            timestamp := Date_now |} ];
                     brush := brush tempStroke0;
                     color := color tempStroke0;
                     size := size tempStroke0 |};
           strokes := strokes st; redoStack := redoStack st;
           brushSize := brushSize st; brushStyle := brushStyle st;
           selectedColor := selectedColor st; darkMode := darkMode st;
           lastTimeRef := lastTimeRef st; lastPointRef := lastPoint;
           lastMoveTimeRef := Date_now;
           moveThrottleRef := moveThrottle |}
  end.

Definition handlePointerUp (st : LightPainter) : LightPainter :=
  match tempStroke st with
  | None => st
  | Some tempStroke0 =>
      if negb (isDrawing st) then st
      else
        {| canvasRef := canvasRef st; ctx := ctx st; surface := surface st;
           isDrawing := false; tempStroke := None;
           strokes :=
             if 1 <? length (points tempStroke0)
             then strokes st ++ [optimizedStroke tempStroke0]
             else strokes st;
           redoStack := redoStack st;
           brushSize := brushSize st; brushStyle := brushStyle st;
           selectedColor := selectedColor st; darkMode := darkMode st;
           lastTimeRef := lastTimeRef st; lastPointRef := None;
           lastMoveTimeRef := lastMoveTimeRef st;
           moveThrottleRef := 16%Z |}
  end.

(** ** History *)

Definition setHistory (newStrokes newRedo : list Stroke) (st : LightPainter)
  : LightPainter :=
  {| canvasRef := canvasRef st; ctx := ctx st; surface := surface st;
     isDrawing := isDrawing st; tempStroke := tempStroke st;
     strokes := newStrokes; redoStack := newRedo;
     brushSize := brushSize st; brushStyle := brushStyle st;
     selectedColor := selectedColor st; darkMode := darkMode st;
     lastTimeRef := lastTimeRef st; lastPointRef := lastPointRef st;
     lastMoveTimeRef := lastMoveTimeRef st;
     moveThrottleRef := moveThrottleRef st |}.

(** React runs a state updater function once, and a second time when the
    component is rendered under StrictMode (development builds).  The value
    that the extra run returns is dropped, but a setter that the updater
    calls is called again, so the updater it passes is queued once per
    run. *)
Definition updaterRuns (strictMode : bool) : nat :=
  if strictMode then 2 else 1.

(** [handleUndo]: the updater passed to [setStrokes] returns the list
    without its last stroke and, on its way, calls [setRedoStack] with an
    updater that appends the removed stroke. *)
Definition handleUndo (strictMode : bool) (st : LightPainter)
  : LightPainter :=
  match Array_pop (strokes st) with
  | (newStrokes, Some removedStroke) =>
      setHistory newStrokes
        (Nat.iter (updaterRuns strictMode)
           (fun redo => redo ++ [removedStroke]) (redoStack st))
        st
  | (_, None) => st
  end.

(** [handleRedo]: the same with the two lists exchanged. *)
Definition handleRedo (strictMode : bool) (st : LightPainter)
  : LightPainter :=
  match Array_pop (redoStack st) with
  | (newRedo, Some strokeToRedo) =>
      setHistory
        (Nat.iter (updaterRuns strictMode)
           (fun prev => prev ++ [strokeToRedo]) (strokes st))
        newRedo st
  | (_, None) => st
  end.

(** ** Drawing on the context *)

(** A piece of drawing code: it changes the context and paints. *)
Definition Draw : Type := Context2D -> Result (Context2D * list Paint).

Definition skip : Draw := fun c => Ok (c, []).

Definition andThen (d1 d2 : Draw) : Draw :=
  fun c =>
    match d1 c with
    | Ok (c1, out1) =>
        match d2 c1 with
        | Ok (c2, out2) => Ok (c2, out1 ++ out2)
        | TypeError => TypeError
        | OutOfFuel => OutOfFuel
        end
    | TypeError => TypeError
    | OutOfFuel => OutOfFuel
    end.

Local Notation "d1 ;; d2" := (andThen d1 d2)
  (at level 61, right associativity).

Definition save : Draw :=
  fun c =>
    Ok ({| state := state c; saved := state c :: saved c; path := path c |},
        []).

Definition restore : Draw :=
  fun c =>
    match saved c with
    | s :: rest => Ok ({| state := s; saved := rest; path := path c |}, [])
    | [] => Ok (c, [])
    end.

Definition assign (f : DrawState -> DrawState) : Draw :=
  fun c =>
    Ok ({| state := f (state c); saved := saved c; path := path c |}, []).

Definition set_lineJoin (v : string) (s : DrawState) : DrawState :=
  mkDrawState (globalCompositeOperation s) v (lineCap s) (shadowBlur s)
    (shadowColor s) (lineWidth s) (strokeStyle s) (fillStyle s)
    (globalAlpha s).

Definition set_lineCap (v : string) (s : DrawState) : DrawState :=
  mkDrawState (globalCompositeOperation s) (lineJoin s) v (shadowBlur s)
    (shadowColor s) (lineWidth s) (strokeStyle s) (fillStyle s)
    (globalAlpha s).

Definition set_shadowBlur (v : num) (s : DrawState) : DrawState :=
  mkDrawState (globalCompositeOperation s) (lineJoin s) (lineCap s) v
    (shadowColor s) (lineWidth s) (strokeStyle s) (fillStyle s)
    (globalAlpha s).

Definition set_shadowColor (v : string) (s : DrawState) : DrawState :=
  mkDrawState (globalCompositeOperation s) (lineJoin s) (lineCap s)
    (shadowBlur s) v (lineWidth s) (strokeStyle s) (fillStyle s)
    (globalAlpha s).

Definition set_lineWidth (v : num) (s : DrawState) : DrawState :=
  mkDrawState (globalCompositeOperation s) (lineJoin s) (lineCap s)
    (shadowBlur s) (shadowColor s) v (strokeStyle s) (fillStyle s)
    (globalAlpha s).

Definition set_strokeStyle (v : Style) (s : DrawState) : DrawState :=
  mkDrawState (globalCompositeOperation s) (lineJoin s) (lineCap s)
    (shadowBlur s) (shadowColor s) (lineWidth s) v (fillStyle s)
    (globalAlpha s).

Definition set_fillStyle (v : Style) (s : DrawState) : DrawState :=
  mkDrawState (globalCompositeOperation s) (lineJoin s) (lineCap s)
    (shadowBlur s) (shadowColor s) (lineWidth s) (strokeStyle s) v
    (globalAlpha s).

Definition set_globalAlpha (v : num) (s : DrawState) : DrawState :=
  mkDrawState (globalCompositeOperation s) (lineJoin s) (lineCap s)
    (shadowBlur s) (shadowColor s) (lineWidth s) (strokeStyle s)
    (fillStyle s) v.

Definition beginPath : Draw :=
  fun c => Ok ({| state := state c; saved := saved c; path := [] |}, []).

Definition addSegment (g : Segment) : Draw :=
  fun c =>
    Ok ({| state := state c; saved := saved c; path := path c ++ [g] |}, []).

Definition moveTo (px py : num) : Draw := addSegment (MoveTo px py).
Definition lineTo (px py : num) : Draw := addSegment (LineTo px py).
Definition arc (px py radius startAngle endAngle : num) : Draw :=
  addSegment (Arc px py radius startAngle endAngle).

Definition stroke_ : Draw := fun c => Ok (c, [Stroked (path c) (state c)]).
Definition fill : Draw := fun c => Ok (c, [Filled (path c) (state c)]).

Definition fillRect (rx ry w h : num) : Draw :=
  fun c => Ok (c, [FillRect rx ry w h (state c)]).

Definition clearRect (rx ry w h : num) : Draw :=
  fun c => Ok (c, [ClearRect rx ry w h]).

(** [arr[i]] followed by a field read: a [TypeError] out of range. *)
Definition at_index (arr : list StrokePoint) (i : nat)
  (k : StrokePoint -> Draw) : Draw :=
  match nth_error arr i with
  | Some p => k p
  | None => fun _ => TypeError
  end.

(** [for (let i = ...; i < stop; i += step) body]. *)
Fixpoint for_loop (fuel i stop step : nat) (body : nat -> Draw) : Draw :=
  if stop <=? i then skip
  else
    match fuel with
    | O => fun _ => OutOfFuel
    | S fuel' => body i ;; for_loop fuel' (i + step) stop step body
    end.

Definition for_ (start stop step : nat) (body : nat -> Draw) : Draw :=
  for_loop (stop - start) start stop step body.

(** [arr.forEach(body)], the callback receiving the element and its index. *)
Fixpoint forEach_from {A : Type} (body : A -> nat -> Draw) (i : nat)
  (arr : list A) : Draw :=
  match arr with
  | [] => skip
  | a :: arr' => body a i ;; forEach_from body (S i) arr'
  end.

Definition forEach {A : Type} (body : A -> nat -> Draw) (arr : list A)
  : Draw := forEach_from body 0 arr.

Definition of_nat (n : nat) : num := lit (inject_Z (Z.of_nat n)).

(** ** Brush renderer *)

Context {MathOps : JsMath num}.

Definition pointsToRender (stroke : Stroke) : list StrokePoint :=
  if 200 <? length (points stroke) then
    Array_filter
      (fun _ i => (i mod 2 =? 0) || (i =? length (points stroke) - 1))
      (points stroke)
  else points stroke.

(** The oscillation factors of the ripple and the pulse brush, from the
    clock value read when the branch is entered. *)
Definition rippleScaleAt (performance_now : num) : num :=
  let rippleTime := mul performance_now (lit 0.001) in
  add (lit 0.8) (mul (lit 0.2) (Math_sin (mul rippleTime (lit 2)))).

Definition pulseScaleAt (performance_now : num) : num :=
  let pulseTime := mul performance_now (lit 0.003) in
  add (lit 0.8) (mul (lit 0.4) (Math_sin pulseTime)).

Definition drawRipple (performance_now : num) (stroke : Stroke)
  (pts : list StrokePoint) : Draw :=
  let rippleScale := rippleScaleAt performance_now in
  beginPath ;;
  at_index pts 0 (fun p0 => moveTo (x p0) (y p0)) ;;
  for_ 1 (length pts) 1 (fun i =>
    at_index pts i (fun point =>
      let scaledWidth := mul (mul (size stroke) (pressure point)) rippleScale in
      (if (i mod 5 =? 0) || (i =? length pts - 1)
       then assign (set_lineWidth scaledWidth) else skip) ;;
      lineTo (x point) (y point))) ;;
  assign (set_strokeStyle (css (color stroke))) ;;
  stroke_ ;;
  if 10 <? length pts then
    beginPath ;;
    (let step := Nat.max 1 (length pts / 10) in
     for_ 0 (length pts) step (fun i =>
       at_index pts i (fun point =>
         if i =? 0 then moveTo (x point) (y point)
         else lineTo (x point) (y point)))) ;;
    at_index pts (length pts - 1) (fun lastPoint =>
      lineTo (x lastPoint) (y lastPoint)) ;;
    assign (set_lineWidth (mul (mul (size stroke) (lit 0.4)) rippleScale)) ;;
    assign (set_strokeStyle (adjustColorBrightness (color stroke) (lit 1.2))) ;;
    stroke_
  else skip.

Definition drawPulse (performance_now : num) (stroke : Stroke)
  (pts : list StrokePoint) : Draw :=
  let pulseScale := pulseScaleAt performance_now in
  beginPath ;;
  at_index pts 0 (fun p0 => moveTo (x p0) (y p0)) ;;
  for_ 1 (length pts) 1 (fun i =>
    at_index pts i (fun p => lineTo (x p) (y p))) ;;
  assign (set_lineWidth (mul (size stroke) pulseScale)) ;;
  assign (set_strokeStyle (css (color stroke))) ;;
  stroke_ ;;
  beginPath ;;
  at_index pts 0 (fun p0 => moveTo (x p0) (y p0)) ;;
  for_ 1 (length pts) 2 (fun i =>
    at_index pts i (fun p => lineTo (x p) (y p))) ;;
  assign (set_lineWidth (mul (mul (size stroke) pulseScale) (lit 1.5))) ;;
  assign (set_strokeStyle (setColorOpacity (color stroke) (lit 0.3))) ;;
  stroke_.

Definition drawParticle (stroke : Stroke) (pts : list StrokePoint) : Draw :=
  let particleSpacing := Nat.max 4 (length pts / 40) in
  for_ 0 (length pts) particleSpacing (fun i =>
    at_index pts i (fun point =>
      let particleSize :=
        mul (mul (size stroke) (pressure point)) (lit 0.5) in
      beginPath ;;
      assign (set_fillStyle (css (color stroke))) ;;
      arc (x point) (y point) particleSize (lit 0) (mul Math_PI (lit 2)) ;;
      fill ;;
      if i mod (particleSpacing * 2) =? 0 then
        for_ 0 2 1 (fun j =>
          let angle :=
            add (mul (of_nat j) Math_PI) (mul (of_nat i) (lit 0.1)) in
          let distance := mul particleSize (lit 0.7) in
          let particleX := add (x point) (mul (Math_cos angle) distance) in
          let particleY := add (y point) (mul (Math_sin angle) distance) in
          beginPath ;;
          arc particleX particleY (mul particleSize (lit 0.4)) (lit 0)
            (mul Math_PI (lit 2)) ;;
          assign (set_fillStyle (css (color stroke))) ;;
          assign (set_globalAlpha (lit 0.6)) ;;
          fill) ;;
        assign (set_globalAlpha (lit 1.0))
      else skip)).

(** The statements of [drawBrush] after its guard.  [performance_now] is the
    value that [performance.now()] returns when the ripple or the pulse
    branch reads it. *)
Definition drawBrush_body (performance_now : num) (stroke : Stroke) : Draw :=
  save ;;
  assign (set_lineCap "round") ;;
  assign (set_lineJoin "round") ;;
  assign (set_shadowBlur (mul (size stroke) (lit 0.5))) ;;
  assign (set_shadowColor (color stroke)) ;;
  (let pts := pointsToRender stroke in
   match brush stroke with
   | ripple => drawRipple performance_now stroke pts
   | pulse => drawPulse performance_now stroke pts
   | particle => drawParticle stroke pts
   end) ;;
  restore.

Definition drawBrush (performance_now : num) (stroke : Stroke)
  (context : option Context2D) : Result (option Context2D * list Paint) :=
  match context with
  | None => Ok (None, [])
  | Some c =>
      if length (points stroke) <? 2 then Ok (Some c, [])
      else
        match drawBrush_body performance_now stroke c with
        | Ok (c', out) => Ok (Some c', out)
        | TypeError => TypeError
        | OutOfFuel => OutOfFuel
        end
  end.

(** ** Frame compositor *)

(** [drawBrush(stroke)] as called from [animate], where [ctx] is set. *)
Definition drawBrush_ctx (performance_now : num) (stroke : Stroke) : Draw :=
  fun c =>
    match drawBrush performance_now stroke (Some c) with
    | Ok (Some c', out) => Ok (c', out)
    | Ok (None, out) => Ok (c, out)
    | TypeError => TypeError
    | OutOfFuel => OutOfFuel
    end.

(** The plain line drawn for a committed stroke while another is captured. *)
Definition drawGhost (stroke : Stroke) : Draw :=
  if length (points stroke) <? 2 then skip
  else
    save ;;
    beginPath ;;
    at_index (points stroke) 0 (fun p0 => moveTo (x p0) (y p0)) ;;
    assign (set_lineCap "round") ;;
    assign (set_lineJoin "round") ;;
    assign (set_shadowBlur (mul (size stroke) (lit 0.5))) ;;
    assign (set_shadowColor (color stroke)) ;;
    assign (set_strokeStyle (css (color stroke))) ;;
    for_ 1 (length (points stroke)) 1 (fun i =>
      at_index (points stroke) i (fun p => lineTo (x p) (y p))) ;;
    assign (set_lineWidth (mul (size stroke) (lit 0.8))) ;;
    stroke_ ;;
    restore.

Definition frame (clock : nat -> num) (canvasWidth canvasHeight : num)
  (st : LightPainter) : Draw :=
  clearRect (lit 0) (lit 0) canvasWidth canvasHeight ;;
  match tempStroke st with
  | Some tempStroke0 =>
      (if 0 <? length (strokes st) then
         assign (set_globalAlpha (lit 0.95)) ;;
         forEach (fun stroke _ => drawGhost stroke) (strokes st) ;;
         assign (set_globalAlpha (lit 1.0))
       else skip) ;;
      drawBrush_ctx (clock 0) tempStroke0
  | None =>
      forEach (fun stroke k => drawBrush_ctx (clock k) stroke) (strokes st)
  end.

(** One run of [animate].  [performance_now] is the clock read by [animate]
    itself, [clock k] the one read by the [k]-th [drawBrush] call of the
    frame; the canvas size in CSS pixels is read from the element.  The
    request for the next frame is left to the caller. *)
Definition animate (performance_now : num) (clock : nat -> num)
  (canvasWidth canvasHeight : num) (st : LightPainter)
  : Result LightPainter :=
  match ctx st with
  | None => Ok st
  | Some c =>
      if negb (canvasRef st) then Ok st
      else if ltb (sub performance_now (lastTimeRef st)) (lit 16) then Ok st
      else
        match frame clock canvasWidth canvasHeight st c with
        | Ok (c', out) =>
            Ok {| canvasRef := canvasRef st; ctx := Some c';
                  surface := surface st ++ out;
                  isDrawing := isDrawing st; tempStroke := tempStroke st;
                  strokes := strokes st; redoStack := redoStack st;
                  brushSize := brushSize st; brushStyle := brushStyle st;
                  selectedColor := selectedColor st; darkMode := darkMode st;
                  lastTimeRef := performance_now;
                  lastPointRef := lastPointRef st;
                  lastMoveTimeRef := lastMoveTimeRef st;
                  moveThrottleRef := moveThrottleRef st |}
        | TypeError => TypeError
        | OutOfFuel => OutOfFuel
        end
  end.

(** [handleClear]: a translucent wash over the canvas, then both history
    lists are emptied.  The [clearRect] it schedules for 100ms later runs as
    a callback of its own and touches the surface only. *)
Definition handleClear (width height : num) (st : LightPainter)
  : LightPainter :=
  let '(context, out) :=
    match ctx st with
    | Some c =>
        if canvasRef st then
          match
            (save ;;
             assign (set_fillStyle
                       (css (if darkMode st then "rgba(255, 255, 255, 0.2)"
                             else "rgba(0, 0, 0, 0.1)"))) ;;
             fillRect (lit 0) (lit 0) width height ;;
             restore) c
          with
          | Ok (c', out) => (Some c', out)
          | _ => (Some c, [])
          end
        else (Some c, [])
    | None => (None, [])
    end in
  {| canvasRef := canvasRef st; ctx := context;
     surface := surface st ++ out;
     isDrawing := isDrawing st; tempStroke := tempStroke st;
     strokes := []; redoStack := [];
     brushSize := brushSize st; brushStyle := brushStyle st;
     selectedColor := selectedColor st; darkMode := darkMode st;
     lastTimeRef := lastTimeRef st; lastPointRef := lastPointRef st;
     lastMoveTimeRef := lastMoveTimeRef st;
     moveThrottleRef := moveThrottleRef st |}.

(** ** Canvas set-up and controls *)

Definition set_globalCompositeOperation (v : string) (s : DrawState)
  : DrawState :=
  mkDrawState v (lineJoin s) (lineCap s) (shadowBlur s) (shadowColor s)
    (lineWidth s) (strokeStyle s) (fillStyle s) (globalAlpha s).

(** [initCanvas]; [context] is what [canvas.getContext("2d")] returns.  The
    device-pixel scaling of the coordinate system is not part of the model. *)
Definition initCanvas (context : option Context2D) (st : LightPainter)
  : LightPainter :=
  if negb (canvasRef st) then st
  else
    match context with
    | None => st
    | Some c =>
        let c' :=
          {| state :=
               set_lineCap "round"
                 (set_lineJoin "round"
                    (set_globalCompositeOperation "lighter" (state c)));
             saved := saved c; path := path c |} in
        {| canvasRef := canvasRef st; ctx := Some c'; surface := surface st;
           isDrawing := isDrawing st; tempStroke := tempStroke st;
           strokes := strokes st; redoStack := redoStack st;
           brushSize := brushSize st; brushStyle := brushStyle st;
           selectedColor := selectedColor st; darkMode := darkMode st;
           lastTimeRef := lastTimeRef st; lastPointRef := lastPointRef st;
           lastMoveTimeRef := lastMoveTimeRef st;
           moveThrottleRef := moveThrottleRef st |}
    end.

Definition attachCanvas (st : LightPainter) : LightPainter :=
  {| canvasRef := true; ctx := ctx st; surface := surface st;
     isDrawing := isDrawing st; tempStroke := tempStroke st;
     strokes := strokes st; redoStack := redoStack st;
     brushSize := brushSize st; brushStyle := brushStyle st;
     selectedColor := selectedColor st; darkMode := darkMode st;
     lastTimeRef := lastTimeRef st; lastPointRef := lastPointRef st;
     lastMoveTimeRef := lastMoveTimeRef st;
     moveThrottleRef := moveThrottleRef st |}.

(** The control panel's setters: brush size, brush style, colour, theme. *)
Definition setControls (newSize : num) (newStyle : BrushStyle)
  (newColor : string) (newDark : bool) (st : LightPainter) : LightPainter :=
  {| canvasRef := canvasRef st; ctx := ctx st; surface := surface st;
     isDrawing := isDrawing st; tempStroke := tempStroke st;
     strokes := strokes st; redoStack := redoStack st;
     brushSize := newSize; brushStyle := newStyle;
     selectedColor := newColor; darkMode := newDark;
     lastTimeRef := lastTimeRef st; lastPointRef := lastPointRef st;
     lastMoveTimeRef := lastMoveTimeRef st;
     moveThrottleRef := moveThrottleRef st |}.

(** The effect that depends on [animate]: it runs after every render in
    which [animate] was made anew (a change of [ctx], [strokes],
    [tempStroke] or [darkMode]), sets [lastTimeRef] to the clock and
    requests a frame. *)
Definition restartAnimation (performance_now : num) (st : LightPainter)
  : LightPainter :=
  {| canvasRef := canvasRef st; ctx := ctx st; surface := surface st;
     isDrawing := isDrawing st; tempStroke := tempStroke st;
     strokes := strokes st; redoStack := redoStack st;
     brushSize := brushSize st; brushStyle := brushStyle st;
     selectedColor := selectedColor st; darkMode := darkMode st;
     lastTimeRef := performance_now; lastPointRef := lastPointRef st;
     lastMoveTimeRef := lastMoveTimeRef st;
     moveThrottleRef := moveThrottleRef st |}.

(** ** Sessions: what can happen to the component *)

(** [Undo] and [Redo] carry whether React runs the component under
    StrictMode, a fact of the build that delivers the click. *)
Inductive Event : Type :=
| Attach
| InitCanvas (context : option Context2D)
| PointerDown (e : PointerEvent) (Date_now : Z)
| PointerMove (e : PointerEvent) (Date_now : Z)
| PointerUp
| PointerLeave
| Undo (strictMode : bool)
| Redo (strictMode : bool)
| Clear (width height : num)
| AnimationFrame (performance_now : num) (clock : nat -> num)
    (canvasWidth canvasHeight : num)
| Controls (newSize : num) (newStyle : BrushStyle) (newColor : string)
    (newDark : bool)
| RestartAnimation (performance_now : num).

Definition dispatch (ev : Event) (st : LightPainter) : LightPainter :=
  match ev with
  | Attach => attachCanvas st
  | InitCanvas context => initCanvas context st
  | PointerDown e now => handlePointerDown e now st
  | PointerMove e now => handlePointerMove e now st
  | PointerUp => handlePointerUp st
  | PointerLeave => handlePointerUp st
  | Undo strictMode => handleUndo strictMode st
  | Redo strictMode => handleRedo strictMode st
  | Clear w h => handleClear w h st
  | AnimationFrame now clock w h =>
      match animate now clock w h st with
      | Ok st' => st'
      | _ => st
      end
  | Controls newSize newStyle newColor newDark =>
      setControls newSize newStyle newColor newDark st
  | RestartAnimation now => restartAnimation now st
  end.

(** The state after a sequence of events, oldest first. *)
Definition run (evs : list Event) (st : LightPainter) : LightPainter :=
  fold_left (fun s ev => dispatch ev s) evs st.

(** One capture cycle: pointer down, any number of pointer moves (each with
    the [Date.now()] it sees), pointer up. *)
Definition captureStroke (e : PointerEvent) (Date_now : Z)
  (moves : list (PointerEvent * Z)) (st : LightPainter) : LightPainter :=
  handlePointerUp
    (fold_left (fun s m => handlePointerMove (fst m) (snd m) s) moves
       (handlePointerDown e Date_now st)).

(** [n] successive [smoothInput] calls with the same raw point: the
    reference after the last call and the points returned, oldest first. *)
Fixpoint smoothRepeated (n : nat) (lastPoint : option Point) (point : Point)
  (pressure0 : num) : option Point * list SmoothedPoint :=
  match n with
  | O => (lastPoint, [])
  | S n' =>
      let '(lastPoint', smoothed) := smoothInput lastPoint point pressure0 in
      let '(final, rest) := smoothRepeated n' lastPoint' point pressure0 in
      (final, smoothed :: rest)
  end.

(** ** Concrete inputs *)

Definition samplePoint (i : nat) : StrokePoint :=
  {| x := of_nat i; y := lit 0; pressure := lit 1;
     timestamp := (20 * Z.of_nat i)%Z |}.

Definition sampleStroke (style : BrushStyle) (n : nat) : Stroke :=
  {| points := map samplePoint (seq 0 n); brush := style;
     color := "#50E3C2"; size := lit 30 |}.

(** A mounted component with the given session and history. *)
Definition component (drawing : bool) (session : option Stroke)
  (committed redo : list Stroke) : LightPainter :=
  {| canvasRef := true; ctx := None; surface := [];
     isDrawing := drawing; tempStroke := session;
     strokes := committed; redoStack := redo;
     brushSize := lit 30; brushStyle := ripple;
     selectedColor := "#50E3C2"; darkMode := false;
     lastTimeRef := lit 0; lastPointRef := None;
     lastMoveTimeRef := 0%Z; moveThrottleRef := 16%Z |}.

(** A component capturing [sampleStroke ripple n]. *)
Definition capturing (n : nat) (committed redo : list Stroke) : LightPainter :=
  component true (Some (sampleStroke ripple n)) committed redo.

Definition idle (committed redo : list Stroke) : LightPainter :=
  component false None committed redo.

Definition pointerAt (px py : Q) : PointerEvent :=
  {| clientX := lit px; clientY := lit py; e_pressure := lit 1;
     rect_left := lit 0; rect_top := lit 0 |}.

(** A context as the browser hands it out. *)
Definition freshContext : Context2D :=
  {| state :=
       {| globalCompositeOperation := "source-over";
          lineJoin := "miter"; lineCap := "butt";
          shadowBlur := lit 0; shadowColor := "rgba(0, 0, 0, 0)";
          lineWidth := lit 1;
          strokeStyle := css "#000000"; fillStyle := css "#000000";
          globalAlpha := lit 1 |};
     saved := []; path := [] |}.

(** ** Predicates used to state the properties *)

(** The stroke has more than 100 points and its latest point is younger
    than 1000ms at [now]. *)
Definition underLoad_spec (ts : Stroke) (now : Z) : Prop :=
  100 < length (points ts)
  /\ exists p, Array_last (points ts) = Some p
               /\ (now - timestamp p < 1000)%Z.

(** Drawing code that ends normally and leaves the stack of saved states
    as it found it. *)
Definition well_behaved (d : Draw) : Prop :=
  forall c, exists c' out, d c = Ok (c', out) /\ saved c' = saved c.

(** Drawing code that, run with [s0] on top of the stack of saved states,
    ends normally with [s0] as the drawing state and the stack popped. *)
Definition restores (s0 : DrawState) (rest : list DrawState) (d : Draw)
  : Prop :=
  forall c, saved c = s0 :: rest ->
    exists c' out, d c = Ok (c', out) /\ state c' = s0 /\ saved c' = rest.

(** Two contexts that differ at most in their current path. *)
Definition same_drawing_state (c1 c2 : Context2D) : Prop :=
  state c1 = state c2 /\ saved c1 = saved c2.

(** Drawing code that neither reads nor resets the current path. *)
Definition path_passive (d : Draw) : Prop :=
  forall c1 c2, same_drawing_state c1 c2 ->
    match d c1, d c2 with
    | Ok (c1', out1), Ok (c2', out2) =>
        same_drawing_state c1' c2' /\ out1 = out2
    | TypeError, TypeError => True
    | OutOfFuel, OutOfFuel => True
    | _, _ => False
    end.

(** Drawing code whose outcome does not depend on the current path it is
    started with. *)
Definition path_blind (d : Draw) : Prop :=
  forall c1 c2, same_drawing_state c1 c2 -> d c1 = d c2.

(** The line widths of the painted strokes, oldest first. *)
Definition strokedWidths (out : list Paint) : list num :=
  flat_map (fun p => match p with
                     | Stroked _ s => [lineWidth s]
                     | _ => []
                     end) out.

Definition throttle_ok (st : LightPainter) : Prop :=
  (16 <= moveThrottleRef st <= 32)%Z
  /\ (isDrawing st = false -> moveThrottleRef st = 16%Z).

Definition committable (s : Stroke) : Prop := 2 <= length (points s).

Definition history_ok (st : LightPainter) : Prop :=
  Forall committable (strokes st) /\ Forall committable (redoStack st).

End Engine.

(** ** Sessions and history, seen from outside *)

Section Sessions.

Context {num : Type} {NumOps : JsNumber num}.

(** The strokes in drawing order: the committed ones, then the undone ones,
    latest undone first. *)
Definition timeline (st : @LightPainter num) : list (@Stroke num) :=
  strokes st ++ rev (redoStack st).

(** The component after pointer down and the given pointer moves, before
    pointer up. *)
Definition sessionAfter (e : @PointerEvent num) (Date_now : Z)
  (moves : list (@PointerEvent num * Z)) (st : @LightPainter num)
  : @LightPainter num :=
  fold_left (fun acc m => handlePointerMove (fst m) (snd m) acc) moves
    (handlePointerDown e Date_now st).

(** Readings that are each at least [gap] after the one before, the first
    at least [gap] after [t0]. *)
Fixpoint each_after (gap t0 : Z) (times : list Z) : Prop :=
  match times with
  | [] => True
  | t :: rest => (gap <= t - t0)%Z /\ each_after gap t rest
  end.

(** Every later reading is at least [gap] after every earlier one. *)
Definition spaced (gap : Z) (times : list Z) : Prop :=
  ForallOrdPairs (fun a b => (gap <= b - a)%Z) times.

(** ** Paths and loops of the renderer *)

(** The indices a [for] loop visits. *)
Fixpoint loop_indices (fuel i stop step : nat) : list nat :=
  if stop <=? i then []
  else
    match fuel with
    | O => []
    | S fuel' => i :: loop_indices fuel' (i + step) stop step
    end.

(** [lineTo] segments to the points at the given indices. *)
Definition lineSegments (pts : list (@StrokePoint num)) (indices : list nat)
  : list (@Segment num) :=
  flat_map
    (fun j =>
       match nth_error pts j with
       | Some p => [LineTo (x p) (y p)]
       | None => []
       end)
    indices.

(** The path that starts at the first point and runs through all others. *)
Definition polyline (pts : list (@StrokePoint num)) : list (@Segment num) :=
  match pts with
  | [] => []
  | p0 :: rest => MoveTo (x p0) (y p0) :: map (fun p => LineTo (x p) (y p)) rest
  end.

(** The odd indices below [n]: 1, 3, 5, ... *)
Definition oddIndices (n : nat) : list nat :=
  map (fun k => 2 * k + 1) (seq 0 (n / 2)).

(** The drawing state every brush paints in: round caps and joins, and a
    glow of the stroke's colour, half the brush size wide. *)
Definition glowState (s : @Stroke num) (st0 : @DrawState num)
  : @DrawState num :=
  set_shadowColor (color s)
    (set_shadowBlur (mul (size s) (lit 0.5))
       (set_lineJoin "round" (set_lineCap "round" st0))).

(** The plain line of the ghost pass for one committed stroke. *)
Definition ghostPaint (st0 : @DrawState num) (s : @Stroke num)
  : @Paint num :=
  Stroked (polyline (points s))
    (set_lineWidth (mul (size s) (lit 0.8))
       (set_strokeStyle (css (color s)) (glowState s st0))).

(** The drawing state a painting call was made in, if it records one. *)
Definition paintState (p : @Paint num) : option (@DrawState num) :=
  match p with
  | Stroked _ s => Some s
  | Filled _ s => Some s
  | FillRect _ _ _ _ s => Some s
  | ClearRect _ _ _ _ => None
  end.

(** The call painted with compositing operation [op], or cleared. *)
Definition paintedWith (op : string) (p : @Paint num) : Prop :=
  match paintState p with
  | Some s => globalCompositeOperation s = op
  | None => True
  end.

(** Drawing code that keeps the property [I] of the drawing state and
    paints only what satisfies [Q]. *)
Definition paints_in (I : @DrawState num -> Prop) (Q : @Paint num -> Prop)
  (d : @Draw num) : Prop :=
  forall c c' out,
    I (state c) -> d c = Ok (c', out) -> I (state c') /\ Forall Q out.

(** A drawing state with compositing operation [op] and the glow of the
    stroke [s]: round caps and joins, a shadow of the stroke's colour, half
    the brush size wide. *)
Definition glowing (op : string) (s : @Stroke num) (st0 : @DrawState num)
  : Prop :=
  globalCompositeOperation st0 = op
  /\ lineCap st0 = "round"%string /\ lineJoin st0 = "round"%string
  /\ shadowBlur st0 = mul (size s) (lit 0.5)
  /\ shadowColor st0 = color s.

Definition strokedIn (I : @DrawState num -> Prop) (p : @Paint num) : Prop :=
  match p with Stroked _ st0 => I st0 | _ => False end.

Definition filledIn (I : @DrawState num -> Prop) (p : @Paint num) : Prop :=
  match p with Filled _ st0 => I st0 | _ => False end.

(** Drawing code that, started with compositing operation [op], ends
    normally with the drawing state changed by [f] and the stack of saved
    states as it was, having painted with [op] only. *)
Definition settles (f : @DrawState num -> @DrawState num) (op : string)
  (d : @Draw num) : Prop :=
  forall c,
    globalCompositeOperation (state c) = op ->
    exists c' out,
      d c = Ok (c', out)
      /\ state c' = f (state c) /\ saved c' = saved c
      /\ Forall (paintedWith op) out.

(** The committed strokes the ghost pass draws: those of at least 2
    points. *)
Definition ghostable (l : list (@Stroke num)) : list (@Stroke num) :=
  filter (fun s => 2 <=? length (points s)) l.

Definition isStroked (p : @Paint num) : bool :=
  match p with Stroked _ _ => true | _ => false end.

Definition isFilled (p : @Paint num) : bool :=
  match p with Filled _ _ => true | _ => false end.

(** How far a smoothed coordinate is from the blend 0.7 raw + 0.3 reference
    of the exact values: the rounding error of the call on that coordinate.
    [value] gives the exact value of a number that has one. *)
Definition blendError (value : num -> option Q) (raw reference smoothed : num)
  : option Q :=
  match value raw, value reference, value smoothed with
  | Some p, Some r, Some s => Some (s - ((7 # 10) * p + (3 # 10) * r))%Q
  | _, _, _ => None
  end.

Definition withinError (eps : Q) (err : option Q) : bool :=
  match err with
  | Some d => Qle_bool (Qabs d) eps
  | None => false
  end.

(** Each of [n] successive [smoothInput] calls with the same raw point has
    a rounding error of at most [eps] on both coordinates. *)
Fixpoint roundsWithin (value : num -> option Q) (eps : Q) (n : nat)
  (lastPoint point : @Point num) (pressure0 : num) : bool :=
  match n with
  | O => true
  | S n' =>
      match smoothInput (Some lastPoint) point pressure0 with
      | (Some lastPoint', smoothed) =>
          withinError eps
            (blendError value (pt_x point) (pt_x lastPoint) (sm_x smoothed))
          && withinError eps
               (blendError value (pt_y point) (pt_y lastPoint)
                  (sm_y smoothed))
          && roundsWithin value eps n' lastPoint' point pressure0
      | (None, _) => false
      end
  end.
End Sessions.

(** ** Colour utilities *)

(** The colour helpers on strings.  A string is a sequence of code units
    below 256; a channel is a double, and so is its product with the
    factor. *)
Module Color.

Local Open Scope string_scope.

Inductive ColorPalette : Type := aurora | galaxy | ocean.

Definition palettes (p : ColorPalette) : list string :=
  match p with
  | aurora => ["#50E3C2"; "#79FFE1"; "#4A90E2"; "#B8E986"; "#9013FE"]
  | galaxy => ["#4B0082"; "#9400D3"; "#00BFFF"; "#1E90FF"; "#FF69B4"]
  | ocean => ["#0077BE"; "#00B4D8"; "#90E0EF"; "#CAF0F8"; "#03045E"]
  end.

(** [s.slice(start, stop)] for indices that are not negative. *)
Definition slice (start stop : nat) (s : string) : string :=
  substring start (stop - start) s.

(** White space that [parseInt] skips: tab, line feed, vertical tab, form
    feed, carriage return, space, no-break space. *)
Definition isWhiteSpace (ch : ascii) : bool :=
  let n := nat_of_ascii ch in
  ((n =? 9) || (n =? 10) || (n =? 11) || (n =? 12) || (n =? 13)
   || (n =? 32) || (n =? 160))%nat.

Definition hexValue (ch : ascii) : option Z :=
  let n := nat_of_ascii ch in
  if ((48 <=? n) && (n <=? 57))%nat then Some (Z.of_nat (n - 48))
  else if ((97 <=? n) && (n <=? 102))%nat then Some (Z.of_nat (n - 87))
  else if ((65 <=? n) && (n <=? 70))%nat then Some (Z.of_nat (n - 55))
  else None.

Definition isHex (ch : ascii) : bool :=
  match hexValue ch with Some _ => true | None => false end.

Fixpoint trimStart (s : string) : string :=
  match s with
  | String ch s' => if isWhiteSpace ch then trimStart s' else s
  | EmptyString => s
  end.

(** The value of the longest prefix of hexadecimal digits; [acc] is the
    value read so far, [None] before the first digit. *)
Fixpoint digits16 (s : string) (acc : option Z) : option Z :=
  match s with
  | String ch s' =>
      match hexValue ch with
      | Some v =>
          digits16 s'
            (Some (16 * match acc with Some a => a | None => 0 end + v)%Z)
      | None => acc
      end
  | EmptyString => acc
  end.

(** [parseInt(s, 16)]: leading white space, a sign, a [0x] prefix, then as
    many hexadecimal digits as there are; [NaN] when there is none. *)
Definition parseInt16 (s : string) : option Z :=
  let s1 := trimStart s in
  let '(sign, s2) :=
    match s1 with
    | String "-" rest => ((-1)%Z, rest)
    | String "+" rest => (1%Z, rest)
    | _ => (1%Z, s1)
    end in
  let s3 :=
    match s2 with
    | String "0" (String "x" rest) => rest
    | String "0" (String "X" rest) => rest
    | _ => s2
    end in
  option_map (Z.mul sign) (digits16 s3 None).

Definition hexDigit (n : nat) : ascii :=
  match get n "0123456789abcdef" with
  | Some ch => ch
  | None => "0"%char
  end.

Fixpoint natToString16 (fuel n : nat) (acc : string) : string :=
  match fuel with
  | O => acc
  | S fuel' =>
      let acc' := String (hexDigit (n mod 16)) acc in
      if (n / 16 =? 0)%nat then acc' else natToString16 fuel' (n / 16) acc'
  end.

(** [n.toString(16)] of an integer. *)
Definition toString16 (z : Z) : string :=
  if (z <? 0)%Z
  then "-" ++ natToString16 (S (Z.abs_nat z)) (Z.abs_nat z) ""
  else natToString16 (S (Z.to_nat z)) (Z.to_nat z) "".

(** What [Math.round] returns: a whole number, an infinity or [NaN]. *)
Inductive Rounded : Type :=
| NotANumber
| Infinity (negative : bool)
| Integer (z : Z).

(** [v.toString(16)] of such a number. *)
Definition numberToString16 (v : Rounded) : string :=
  match v with
  | Integer z => toString16 z
  | NotANumber => "NaN"
  | Infinity true => "-Infinity"
  | Infinity false => "Infinity"
  end.

(** [s.padStart(2, "0")]. *)
Definition padStart2 (s : string) : string :=
  match String.length s with
  | 0 => "00"
  | 1 => "0" ++ s
  | _ => s
  end.

(** The number that [parseInt] returns, as a double. *)
Definition toNumber (v : option Z) : PrimFloat.float :=
  match v with
  | Some z => Double.of_Z z
  | None => PrimFloat.nan
  end.

(** [Math.round] on the exact value [(-1)^s m 2^e] of a double: the nearest
    whole number, halves upwards, that is the floor of the value plus one
    half. *)
Definition roundSF (v : SpecFloat.spec_float) : Rounded :=
  match v with
  | SpecFloat.S754_nan => NotANumber
  | SpecFloat.S754_infinity s => Infinity s
  | SpecFloat.S754_zero _ => Integer 0
  | SpecFloat.S754_finite s m e =>
      let n := if s then Zneg m else Zpos m in
      Integer
        match e with
        | Zneg k => (2 * n + 2 ^ Zpos k) / 2 ^ (Zpos k + 1)
        | _ => n * 2 ^ e
        end%Z
  end.

Definition Math_round (v : PrimFloat.float) : Rounded :=
  roundSF (FloatOps.Prim2SF v).

(** [Math.min(255, v)]. *)
Definition Math_min_255 (v : Rounded) : Rounded :=
  match v with
  | NotANumber => NotANumber
  | Infinity true => Infinity true
  | Infinity false => Integer 255
  | Integer z => Integer (Z.min 255 z)
  end.

(** [Math.min(255, Math.round(v * factor))], the product being the one of
    doubles. *)
Definition scaleChannel (factor : PrimFloat.float) (v : option Z) : Rounded :=
  Math_min_255 (Math_round (PrimFloat.mul (toNumber v) factor)).

Definition adjustColorBrightness (color : string) (factor : PrimFloat.float)
  : string :=
  let r := parseInt16 (slice 1 3 color) in
  let g := parseInt16 (slice 3 5 color) in
  let b := parseInt16 (slice 5 7 color) in
  let r := scaleChannel factor r in
  let g := scaleChannel factor g in
  let b := scaleChannel factor b in
  "#" ++ padStart2 (numberToString16 r)
      ++ padStart2 (numberToString16 g)
      ++ padStart2 (numberToString16 b).

(** The three channels the helpers read from a colour. *)
Definition channels (color : string) : option Z * option Z * option Z :=
  (parseInt16 (slice 1 3 color), parseInt16 (slice 3 5 color),
   parseInt16 (slice 5 7 color)).

(** A colour in the fixed format: [#] and six hexadecimal digits. *)
Definition validColor (color : string) : bool :=
  match color with
  | String "#" (String a (String b (String c (String d (String e
      (String f EmptyString)))))) =>
      isHex a && isHex b && isHex c && isHex d && isHex e && isHex f
  | _ => false
  end.

Definition allAscii : list ascii := map ascii_of_nat (seq 0 256).

Definition optionZ_eqb (a b : option Z) : bool :=
  match a, b with
  | Some u, Some v => (u =? v)%Z
  | None, None => true
  | _, _ => false
  end.

(** Two hexadecimal digits parse to their value. *)
Definition twoDigitsParse (a b : ascii) : bool :=
  match hexValue a, hexValue b with
  | Some u, Some v =>
      optionZ_eqb (parseInt16 (String a (String b EmptyString)))
        (Some (16 * u + v)%Z)
      && (0 <=? 16 * u + v)%Z && (16 * u + v <=? 255)%Z
  | _, _ => true
  end.

(** A channel value prints as two hexadecimal digits that parse back. *)
Definition channelPrints (n : nat) : bool :=
  match padStart2 (toString16 (Z.of_nat n)) with
  | String h (String l EmptyString) =>
      isHex h && isHex l
      && optionZ_eqb (parseInt16 (String h (String l EmptyString)))
           (Some (Z.of_nat n))
  | _ => false
  end.

(** A channel value is a double that is finite and not negative, and
    scaling it by 1 gives it back. *)
Definition channelScales (n : nat) : bool :=
  Double.nonnegative (Double.of_Z (Z.of_nat n))
  && match scaleChannel PrimFloat.one (Some (Z.of_nat n)) with
     | Integer z => (z =? Z.of_nat n)%Z
     | _ => false
     end.

End Color.

(** * Properties *)

(** ** Arrays *)

Section ArrayFacts.

Context {A : Type}.
Implicit Types (l : list A) (f g : A -> nat -> bool).

Lemma filter_from_app f i l1 l2 :
  filter_from f i (l1 ++ l2) =
  filter_from f i l1 ++ filter_from f (i + length l1) l2.
Proof.
  revert i; induction l1 as [|a l1 IH]; intros i; simpl.
  - now rewrite Nat.add_0_r.
  - rewrite IH, Nat.add_succ_comm. now destruct (f a i).
Qed.

Lemma filter_from_ext f g i l :
  (forall a j, i <= j < i + length l -> f a j = g a j) ->
  filter_from f i l = filter_from g i l.
Proof.
  revert i; induction l as [|a l IH]; intros i Hfg; simpl; [reflexivity|].
  rewrite (Hfg a i) by (simpl; lia).
  rewrite (IH (S i)) by (intros b j Hj; apply Hfg; simpl; lia).
  reflexivity.
Qed.

Lemma Array_last_snoc l a : Array_last (l ++ [a]) = Some a.
Proof.
  unfold Array_last. rewrite length_app; simpl.
  replace (length l + 1 - 1) with (length l) by lia.
  rewrite nth_error_app2 by lia. now rewrite Nat.sub_diag.
Qed.

Lemma Array_last_some l : l <> [] -> exists a, Array_last l = Some a.
Proof.
  intros Hl. destruct (exists_last Hl) as (l' & a & ->).
  exists a. apply Array_last_snoc.
Qed.

Lemma Array_pop_snoc l a : Array_pop (l ++ [a]) = (l, Some a).
Proof.
  induction l as [|b l IH]; simpl; [reflexivity|].
  rewrite IH. destruct l; reflexivity.
Qed.

(** Indices that are multiples of [n]: fewer than [length l / n + 1]. *)
Lemma multiples_count (n : nat) l :
  0 < n ->
  length (filter_from (fun (_ : A) i => i mod n =? 0) 0 l) * n
  < length l + n.
Proof.
  intros Hn. induction l as [|a l IH] using rev_ind; simpl; [lia|].
  rewrite filter_from_app, !length_app; simpl.
  destruct (length l mod n =? 0) eqn:Hm; simpl; [|lia].
  apply Nat.eqb_eq in Hm.
  pose proof (Nat.div_mod_eq (length l) n) as Hd. rewrite Hm in Hd.
  set (q := length l / n) in *. set (c := length (filter_from _ 0 l)) in *.
  assert (c <= q) by nia. nia.
Qed.

(** The filter of both simplifiers on a non-empty array: the points whose
    index passes [p] among all but the last, then the last point. *)
Lemma keep_last_snoc (p : nat -> bool) l a :
  Array_filter (fun _ i => p i || (i =? length (l ++ [a]) - 1)) (l ++ [a]) =
  filter_from (fun _ i => p i) 0 l ++ [a].
Proof.
  unfold Array_filter. rewrite filter_from_app. f_equal.
  - apply filter_from_ext. intros b j Hj. rewrite length_app; simpl.
    replace (j =? length l + 1 - 1) with false; [apply orb_false_r|].
    symmetry; apply Nat.eqb_neq; lia.
  - simpl. rewrite length_app; simpl.
    replace (length l =? length l + 1 - 1) with true; [now rewrite orb_true_r|].
    symmetry; apply Nat.eqb_eq; lia.
Qed.

Lemma keep_first_head (p : nat -> bool) l :
  p 0 = true ->
  hd_error (Array_filter (fun _ i => p i || (i =? length l - 1)) l) =
  hd_error l.
Proof.
  intros Hp. destruct l as [|a l]; [reflexivity|].
  unfold Array_filter; simpl. now rewrite Hp.
Qed.

Lemma keep_last_last (p : nat -> bool) l :
  Array_last (Array_filter (fun _ i => p i || (i =? length l - 1)) l) =
  Array_last l.
Proof.
  destruct l as [|b l'] using rev_ind; [reflexivity|].
  rewrite keep_last_snoc. now rewrite !Array_last_snoc.
Qed.

End ArrayFacts.

Lemma Math_ceil_div_500 (n : nat) :
  n <= 500 * Math_ceil_div n 500 /\ 500 * (Math_ceil_div n 500 - 1) < n + 500
  /\ (0 < n -> 0 < Math_ceil_div n 500 /\ 500 * (Math_ceil_div n 500 - 1) < n).
Proof.
  unfold Math_ceil_div.
  pose proof (Nat.div_mod_eq n 500) as Hd.
  pose proof (Nat.mod_upper_bound n 500 ltac:(lia)) as Hlt.
  destruct (n mod 500 =? 0) eqn:Hm.
  - apply Nat.eqb_eq in Hm. lia.
  - apply Nat.eqb_neq in Hm. lia.
Qed.

(** ** Storage simplification and commit *)

Section CommitFacts.

Context {num : Type} {NumOps : JsNumber num}.
Implicit Types (st : @LightPainter num) (ts s : @Stroke num).

Lemma optimizedStroke_short ts :
  length (points ts) <= 500 -> optimizedStroke ts = ts.
Proof.
  intros H. unfold optimizedStroke.
  destruct (500 <? length (points ts)) eqn:E; [|reflexivity].
  apply Nat.ltb_lt in E. lia.
Qed.

Lemma optimizedStroke_long ts :
  500 < length (points ts) ->
  optimizedStroke ts =
  {| points :=
       Array_filter
         (fun _ i =>
            (i mod simplificationFactor ts =? 0)
            || (i =? length (points ts) - 1))
         (points ts);
     brush := brush ts; color := color ts; size := size ts |}.
Proof.
  intros H. unfold optimizedStroke.
  destruct (500 <? length (points ts)) eqn:E; [reflexivity|].
  apply Nat.ltb_ge in E. lia.
Qed.

Lemma optimizedStroke_at_most_501 ts :
  500 < length (points ts) -> length (points (optimizedStroke ts)) <= 501.
Proof.
  intros H. rewrite optimizedStroke_long by assumption. simpl.
  pose proof (Math_ceil_div_500 (length (points ts))) as (Hup & _ & Hpos).
  destruct Hpos as [Hpos _]; [lia|].
  unfold simplificationFactor.
  set (n := Math_ceil_div (length (points ts)) 500) in *.
  destruct (points ts) as [|b l] using rev_ind; [simpl in H; lia|].
  clear IHl.
  rewrite (keep_last_snoc (fun i => i mod n =? 0)).
  rewrite length_app in *; simpl in *.
  pose proof (multiples_count n l Hpos) as Hc.
  set (c := length (filter_from _ 0 l)) in *. nia.
Qed.

Lemma optimizedStroke_keeps_two ts :
  2 <= length (points ts) -> 2 <= length (points (optimizedStroke ts)).
Proof.
  intros H. destruct (Nat.le_gt_cases (length (points ts)) 500) as [Hs|Hl].
  - now rewrite optimizedStroke_short.
  - rewrite optimizedStroke_long by assumption. simpl.
    destruct (points ts) as [|b l] using rev_ind; [simpl in H; lia|].
    clear IHl.
    rewrite (keep_last_snoc (fun i => i mod simplificationFactor ts =? 0)).
    rewrite length_app in *; simpl in *.
    destruct l as [|a l]; [simpl in H; lia|].
    simpl. rewrite Nat.Div0.mod_0_l. simpl. lia.
Qed.

Lemma optimizedStroke_head ts :
  hd_error (points (optimizedStroke ts)) = hd_error (points ts).
Proof.
  destruct (Nat.le_gt_cases (length (points ts)) 500) as [Hs|Hl].
  - now rewrite optimizedStroke_short.
  - rewrite optimizedStroke_long by assumption. simpl.
    apply (keep_first_head (fun i => i mod simplificationFactor ts =? 0)).
    now rewrite Nat.Div0.mod_0_l.
Qed.

Lemma optimizedStroke_last ts :
  Array_last (points (optimizedStroke ts)) = Array_last (points ts).
Proof.
  destruct (Nat.le_gt_cases (length (points ts)) 500) as [Hs|Hl].
  - now rewrite optimizedStroke_short.
  - rewrite optimizedStroke_long by assumption. simpl.
    apply (keep_last_last (fun i => i mod simplificationFactor ts =? 0)).
Qed.

Lemma handlePointerUp_active st ts :
  tempStroke st = Some ts -> isDrawing st = true ->
  strokes (handlePointerUp st) =
    (if 1 <? length (points ts)
     then strokes st ++ [optimizedStroke ts] else strokes st)
  /\ redoStack (handlePointerUp st) = redoStack st
  /\ tempStroke (handlePointerUp st) = None
  /\ isDrawing (handlePointerUp st) = false
  /\ lastPointRef (handlePointerUp st) = None
  /\ moveThrottleRef (handlePointerUp st) = 16%Z.
Proof.
  intros Ht Hd. unfold handlePointerUp. rewrite Ht, Hd. simpl. tauto.
Qed.

Lemma handlePointerUp_idle st :
  tempStroke st = None \/ isDrawing st = false -> handlePointerUp st = st.
Proof.
  intros [H|H]; unfold handlePointerUp; rewrite H; [reflexivity|].
  now destruct (tempStroke st).
Qed.

(** C1 (as amended): ending a session whose stroke has more than 500 points
    commits the stroke with its points filtered to those whose index is a
    multiple of N = ceil(count / 500), plus the last point; N is that
    ceiling, the committed stroke has at most 501 points (at most 500
    multiples, and the last point when its index is not one of them), and
    its last point is the original last point. *)
Theorem commit_simplifies_long_stroke st ts :
  tempStroke st = Some ts ->
  isDrawing st = true ->
  500 < length (points ts) ->
  strokes (handlePointerUp st) = strokes st ++ [optimizedStroke ts]
  /\ (length (points ts) <= 500 * simplificationFactor ts
      /\ 500 * (simplificationFactor ts - 1) < length (points ts))
  /\ points (optimizedStroke ts) =
       Array_filter
         (fun _ i =>
            (i mod simplificationFactor ts =? 0)
            || (i =? length (points ts) - 1))
         (points ts)
  /\ length (points (optimizedStroke ts)) <= 501
  /\ Array_last (points (optimizedStroke ts)) = Array_last (points ts).
Proof.
  intros Ht Hd Hlen.
  destruct (handlePointerUp_active st ts Ht Hd) as (Hs & _).
  split.
  { rewrite Hs. destruct (1 <? length (points ts)) eqn:E; [reflexivity|].
    apply Nat.ltb_ge in E. lia. }
  split.
  { pose proof (Math_ceil_div_500 (length (points ts))) as (H1 & _ & H3).
    unfold simplificationFactor. split; [exact H1|]. apply H3. lia. }
  split; [now rewrite optimizedStroke_long|].
  split; [now apply optimizedStroke_at_most_501|].
  apply optimizedStroke_last.
Qed.

End CommitFacts.

Lemma commit_simplifies_long_stroke_witness :
  tempStroke (capturing (num:=Q) 1000 [] []) = Some (sampleStroke (num:=Q) ripple 1000)
  /\ isDrawing (capturing (num:=Q) 1000 [] []) = true
  /\ 500 < length (points (sampleStroke (num:=Q) ripple 1000))
  /\ length (points (optimizedStroke (sampleStroke (num:=Q) ripple 1000))) <= 501
  /\ Array_last (points (optimizedStroke (sampleStroke (num:=Q) ripple 1000))) =
     Array_last (points (sampleStroke (num:=Q) ripple 1000)).
Proof.
  assert (H1 : tempStroke (capturing (num:=Q) 1000 [] []) = Some (sampleStroke (num:=Q) ripple 1000))
    by reflexivity.
  assert (H2 : isDrawing (capturing (num:=Q) 1000 [] []) = true) by reflexivity.
  assert (H3 : 500 < length (points (sampleStroke (num:=Q) ripple 1000))).
  { apply Nat.ltb_lt. vm_compute. reflexivity. }
  pose proof (commit_simplifies_long_stroke _ _ H1 H2 H3) as (_ & _ & _ & Hb & Hl).
  exact (conj H1 (conj H2 (conj H3 (conj Hb Hl)))).
Defined.

(** C1 (as stated) fails: a stroke of 1000 points has N = 2, so the 500
    points at even indices are kept and so is the last one, at index 999:
    the committed stroke has 501 points, not at most 500. *)
Lemma commit_1000_points_keeps_501 :
  exists s,
    strokes (handlePointerUp (capturing (num:=Q) 1000 [] [])) = [s]
    /\ simplificationFactor (sampleStroke (num:=Q) ripple 1000) = 2
    /\ length (points s) = 501
    /\ ~ length (points s) <= 500.
Proof.
  exists (optimizedStroke (sampleStroke (num:=Q) ripple 1000)).
  split; [reflexivity|].
  split; [vm_compute; reflexivity|].
  assert (H : length (points (optimizedStroke (sampleStroke (num:=Q) ripple 1000))) = 501)
    by (vm_compute; reflexivity).
  split; [exact H|]. rewrite H. lia.
Qed.

(** ** Undo and redo *)

Section HistoryFacts.

Context {num : Type} {NumOps : JsNumber num} {MathOps : JsMath num}.
Implicit Types (st : @LightPainter num) (s : @Stroke num).

Lemma handleUndo_snoc b st l s :
  strokes st = l ++ [s] ->
  handleUndo b st =
  setHistory l
    (Nat.iter (updaterRuns b) (fun redo => redo ++ [s]) (redoStack st)) st.
Proof.
  intros H. unfold handleUndo. now rewrite H, Array_pop_snoc.
Qed.

Lemma handleRedo_snoc b st r s :
  redoStack st = r ++ [s] ->
  handleRedo b st =
  setHistory
    (Nat.iter (updaterRuns b) (fun prev => prev ++ [s]) (strokes st)) r st.
Proof.
  intros H. unfold handleRedo. now rewrite H, Array_pop_snoc.
Qed.

Lemma handleUndo_empty b st : strokes st = [] -> handleUndo b st = st.
Proof. intros H. unfold handleUndo. now rewrite H. Qed.

Lemma handleRedo_empty b st : redoStack st = [] -> handleRedo b st = st.
Proof. intros H. unfold handleRedo. now rewrite H. Qed.

(** With every updater run once, redo undoes undo. *)
Lemma redo_undo st :
  strokes st <> [] -> handleRedo false (handleUndo false st) = st.
Proof.
  intros Hne. destruct (exists_last Hne) as (l & s & Hl).
  rewrite (handleUndo_snoc false st l s Hl).
  rewrite (handleRedo_snoc false _ (redoStack st) s) by reflexivity.
  simpl. rewrite <- Hl. unfold setHistory; simpl. now destruct st.
Qed.

(** C2: with every updater run once, undo followed by redo gives the
    component back, so the committed list and the redo buffer are as
    before.  Under StrictMode the updater of each handler runs twice and
    queues the append twice: undo leaves two copies of the removed stroke in
    the redo buffer, redo takes one of them and appends it twice to the
    committed list, so the round trip ends with the last stroke committed
    twice and one copy of it left in the redo buffer. *)
Theorem undo_redo_duplicates_under_strict_mode st l s :
  strokes st = l ++ [s] ->
  handleRedo false (handleUndo false st) = st
  /\ strokes (handleRedo true (handleUndo true st)) = strokes st ++ [s]
  /\ redoStack (handleRedo true (handleUndo true st)) = redoStack st ++ [s]
  /\ handleRedo true (handleUndo true st) <> st.
Proof.
  intros Hl.
  assert (Hs : strokes (handleRedo true (handleUndo true st))
               = strokes st ++ [s]
               /\ redoStack (handleRedo true (handleUndo true st))
                  = redoStack st ++ [s]).
  { rewrite (handleUndo_snoc true st l s Hl).
    rewrite (handleRedo_snoc true _ (redoStack st ++ [s]) s) by reflexivity.
    simpl. rewrite Hl. split; [|reflexivity]. now rewrite <- !app_assoc. }
  split; [apply redo_undo; rewrite Hl; now destruct l|].
  split; [apply Hs|]. split; [apply Hs|].
  intros E. destruct Hs as [Hs _]. rewrite E in Hs.
  apply (f_equal (@length _)) in Hs. rewrite length_app in Hs.
  simpl in Hs. lia.
Qed.

(** What the pointer moves of a session leave alone. *)
Lemma handlePointerMove_history e now st :
  strokes (handlePointerMove e now st) = strokes st
  /\ redoStack (handlePointerMove e now st) = redoStack st
  /\ isDrawing (handlePointerMove e now st) = isDrawing st
  /\ canvasRef (handlePointerMove e now st) = canvasRef st
  /\ (tempStroke st = None <-> tempStroke (handlePointerMove e now st) = None).
Proof.
  unfold handlePointerMove.
  destruct (tempStroke st) as [ts|] eqn:Ht; [|now rewrite Ht].
  destruct (negb (isDrawing st) || negb (canvasRef st));
    [rewrite Ht; repeat split; discriminate|].
  destruct (_ <? _)%Z; [rewrite Ht; repeat split; discriminate|].
  destruct (smoothInput _ _ _) as [lp sm]. simpl.
  repeat split; discriminate.
Qed.

Lemma moves_history (moves : list (@PointerEvent num * Z)) st :
  let st' :=
    fold_left (fun acc m => handlePointerMove (fst m) (snd m) acc) moves st in
  strokes st' = strokes st
  /\ redoStack st' = redoStack st
  /\ isDrawing st' = isDrawing st
  /\ (tempStroke st = None <-> tempStroke st' = None).
Proof.
  revert st. induction moves as [|m moves IH]; intros st; simpl.
  - tauto.
  - destruct (IH (handlePointerMove (fst m) (snd m) st)) as (A & B & C & D).
    destruct (handlePointerMove_history (fst m) (snd m) st)
      as (A' & B' & C' & _ & D').
    rewrite A, B, C, A', B', C'. tauto.
Qed.

Lemma handlePointerDown_mounted e now st :
  canvasRef st = true ->
  strokes (handlePointerDown e now st) = strokes st
  /\ redoStack (handlePointerDown e now st) = []
  /\ isDrawing (handlePointerDown e now st) = true
  /\ tempStroke (handlePointerDown e now st) <> None.
Proof.
  intros H. unfold handlePointerDown. rewrite H. simpl.
  repeat split. discriminate.
Qed.

Lemma dispatch_keeps_redo_empty (ev : @Event num) st :
  (forall b, ev <> Undo b) ->
  redoStack st = [] -> redoStack (dispatch ev st) = [].
Proof.
  intros Hev Hr.
  destruct ev as [|context|e now|e now| | |b|b|w h|now clock w h|a b c d|now];
    simpl.
  - exact Hr.
  - unfold initCanvas. destruct (negb (canvasRef st)); [exact Hr|].
    now destruct context.
  - unfold handlePointerDown. now destruct (negb (canvasRef st)).
  - now rewrite (proj1 (proj2 (handlePointerMove_history e now st))).
  - unfold handlePointerUp. destruct (tempStroke st); [|exact Hr].
    now destruct (negb (isDrawing st)).
  - unfold handlePointerUp. destruct (tempStroke st); [|exact Hr].
    now destruct (negb (isDrawing st)).
  - now destruct (Hev b).
  - now rewrite handleRedo_empty.
  - unfold handleClear.
    now destruct (match ctx st with Some _ => _ | None => _ end).
  - unfold animate.
    destruct (ctx st) as [c|]; [|exact Hr].
    destruct (negb (canvasRef st)); [exact Hr|].
    destruct (ltb _ _); [exact Hr|].
    now destruct (frame clock w h st c) as [[c' out]| |].
  - exact Hr.
  - exact Hr.
Qed.

(** C3: with every updater run once, undo moves the last committed stroke
    to the end of the redo buffer and redo moves the last stroke of the redo
    buffer to the end of the committed list; each leaves the component as it
    is when its source list is empty.  Pointer down on the mounted canvas
    empties the redo buffer whatever it held, and the buffer stays empty
    through every later event that is not an undo: a capture cycle (pointer
    down, pointer moves, pointer up) ends with an empty redo buffer, the
    committed list being the old one or the old one with one stroke
    appended. *)
Theorem history_moves_and_redo_discard :
  (forall st l s,
      strokes st = l ++ [s] ->
      strokes (handleUndo false st) = l
      /\ redoStack (handleUndo false st) = redoStack st ++ [s])
  /\ (forall st r s,
      redoStack st = r ++ [s] ->
      strokes (handleRedo false st) = strokes st ++ [s]
      /\ redoStack (handleRedo false st) = r)
  /\ (forall b st, strokes st = [] -> handleUndo b st = st)
  /\ (forall b st, redoStack st = [] -> handleRedo b st = st)
  /\ (forall st e now moves,
      canvasRef st = true ->
      redoStack (captureStroke e now moves st) = []
      /\ (strokes (captureStroke e now moves st) = strokes st
          \/ exists s,
               strokes (captureStroke e now moves st) = strokes st ++ [s]))
  /\ (forall st e now (evs : list (@Event num)),
      canvasRef st = true ->
      Forall (fun ev => forall b, ev <> Undo b) evs ->
      redoStack (run (PointerDown e now :: evs) st) = []).
Proof.
  split; [|split; [|split; [|split; [|split]]]].
  - intros st l s H. now rewrite (handleUndo_snoc false st l s H).
  - intros st r s H. now rewrite (handleRedo_snoc false st r s H).
  - apply handleUndo_empty.
  - apply handleRedo_empty.
  - intros st e now moves Hc. unfold captureStroke.
    destruct (handlePointerDown_mounted e now st Hc) as (A & B & C & D).
    destruct (moves_history moves (handlePointerDown e now st))
      as (A' & B' & C' & D').
    set (st1 := fold_left _ moves _) in *.
    destruct (tempStroke st1) as [ts|] eqn:Ht; [|exfalso; tauto].
    destruct (handlePointerUp_active st1 ts Ht) as (Hs & Hr & _).
    { now rewrite C'. }
    rewrite Hr, B', B, Hs, A', A. split; [reflexivity|].
    destruct (1 <? length (points ts)); [right; eauto|now left].
  - intros st e now evs Hc Hevs. unfold run. cbn [fold_left dispatch].
    destruct (handlePointerDown_mounted e now st Hc) as (_ & B & _).
    revert B. generalize (handlePointerDown e now st).
    induction Hevs as [|ev evs Hev _ IH]; intros st1 B; [exact B|].
    cbn [fold_left]. apply IH. now apply dispatch_keeps_redo_empty.
Qed.

End HistoryFacts.

Lemma undo_redo_duplicates_under_strict_mode_witness :
  strokes (idle (num:=PrimFloat.float) [sampleStroke ripple 2; sampleStroke ripple 3] [])
  = [sampleStroke ripple 2] ++ [sampleStroke ripple 3]
  /\ strokes
       (handleRedo true
          (handleUndo true
             (idle (num:=PrimFloat.float) [sampleStroke ripple 2; sampleStroke ripple 3] [])))
     = [sampleStroke ripple 2; sampleStroke ripple 3; sampleStroke ripple 3]
  /\ redoStack
       (handleRedo true
          (handleUndo true
             (idle (num:=PrimFloat.float) [sampleStroke ripple 2; sampleStroke ripple 3] [])))
     = [sampleStroke ripple 3].
Proof.
  assert (H : strokes
                (idle (num:=PrimFloat.float) [sampleStroke ripple 2; sampleStroke ripple 3] [])
              = [sampleStroke ripple 2] ++ [sampleStroke ripple 3])
    by reflexivity.
  destruct (undo_redo_duplicates_under_strict_mode _ _ _ H)
    as (_ & Hs & Hr & _).
  exact (conj H (conj Hs Hr)).
Defined.

Lemma history_moves_and_redo_discard_witness :
  canvasRef (idle (num:=R) [sampleStroke (num:=R) ripple 2] [sampleStroke (num:=R) ripple 3; sampleStroke (num:=R) ripple 4]) = true
  /\ redoStack
       (captureStroke (pointerAt 0 0) 0%Z
          [(pointerAt 10 0, 20%Z); (pointerAt 20 0, 40%Z)]
          (idle (num:=R) [sampleStroke (num:=R) ripple 2] [sampleStroke (num:=R) ripple 3; sampleStroke (num:=R) ripple 4])) = []
  /\ length
       (strokes
          (captureStroke (pointerAt 0 0) 0%Z
             [(pointerAt 10 0, 20%Z); (pointerAt 20 0, 40%Z)]
             (idle (num:=R) [sampleStroke (num:=R) ripple 2] [sampleStroke (num:=R) ripple 3; sampleStroke (num:=R) ripple 4]))) = 2.
Proof.
  split; [reflexivity|].
  split.
  - exact (proj1 (proj1 (proj2 (proj2 (proj2 (proj2
             (@history_moves_and_redo_discard R _ _)))))
             (idle (num:=R) [sampleStroke (num:=R) ripple 2] [sampleStroke (num:=R) ripple 3; sampleStroke (num:=R) ripple 4])
             (pointerAt 0 0) 0%Z
             [(pointerAt 10 0, 20%Z); (pointerAt 20 0, 40%Z)] eq_refl)).
  - vm_compute. reflexivity.
Defined.

(** An undo between pointer down and pointer up puts a stroke back into the
    redo buffer that pointer down had emptied: the new stroke is committed
    and the redo buffer holds the stroke drawn before it. *)
Lemma undo_while_drawing_refills_redo :
  let st :=
    run [Attach;
         PointerDown (pointerAt 0 0) 0%Z; PointerMove (pointerAt 10 0) 20%Z;
         PointerUp;
         PointerDown (pointerAt 0 5) 100%Z; Undo false;
         PointerMove (pointerAt 10 5) 120%Z; PointerUp]
      (initialState (num:=R) "#50E3C2") in
  length (strokes st) = 1
  /\ map (fun s => map timestamp (points s)) (strokes st) = [[100%Z; 120%Z]]
  /\ map (fun s => map timestamp (points s)) (redoStack st) = [[0%Z; 20%Z]]
  /\ redoStack st <> [].
Proof. vm_compute. repeat split. discriminate. Qed.

(** Pointer down at (0,0), three moves 20ms apart, pointer up: one stroke of
    four points is committed; in doubles their abscissae are 0, 7, 16.1 and
    25.830000000000002, the double next above 25.83. *)
Example capture_four_points :
  map (fun s => map (fun p => (x p, pressure p)) (points s))
    (strokes
       (captureStroke (pointerAt 0 0) 0%Z
          [(pointerAt 10 0, 20%Z); (pointerAt 20 0, 40%Z);
           (pointerAt 30 0, 60%Z)]
          (idle (num:=PrimFloat.float) [] [])))
  = [[(lit 0, lit 1); (lit 7, lit 1); (lit 16.1, lit 1);
      (PrimFloat.next_up (lit 25.83), lit 1)]].
Proof. vm_compute. reflexivity. Qed.

(** A move that comes 5ms after the last accepted one is dropped. *)
Example early_move_is_dropped :
  handlePointerMove (pointerAt 1 1) 5%Z (capturing (num:=Q) 3 [] [])
  = capturing 3 [] [].
Proof. reflexivity. Qed.

(** ** Invariants of a session *)

Section SessionFacts.

Context {num : Type} {NumOps : JsNumber num} {MathOps : JsMath num}.
Implicit Types (st : @LightPainter num) (ev : @Event num) (ts : @Stroke num).

Lemma run_invariant (I : @LightPainter num -> Prop) :
  (forall ev st, I st -> I (dispatch ev st)) ->
  forall evs st, I st -> I (run evs st).
Proof.
  intros Hstep evs. unfold run.
  induction evs as [|ev evs IH]; intros st Hst; simpl; auto.
Qed.

(** A frame paints; it touches neither the strokes nor the session. *)
Lemma animate_keeps_model now clock w h st st' :
  animate now clock w h st = Ok st' ->
  strokes st' = strokes st /\ redoStack st' = redoStack st
  /\ tempStroke st' = tempStroke st /\ isDrawing st' = isDrawing st
  /\ moveThrottleRef st' = moveThrottleRef st
  /\ lastPointRef st' = lastPointRef st.
Proof.
  unfold animate. intros H.
  destruct (ctx st) as [c|]; [|injection H as <-; tauto].
  destruct (negb (canvasRef st)); [injection H as <-; tauto|].
  destruct (ltb _ _); [injection H as <-; tauto|].
  destruct (frame clock w h st c) as [[c' out]| |]; try discriminate.
  injection H as <-. simpl. tauto.
Qed.

Lemma handleClear_model w h st :
  strokes (handleClear w h st) = [] /\ redoStack (handleClear w h st) = []
  /\ tempStroke (handleClear w h st) = tempStroke st
  /\ isDrawing (handleClear w h st) = isDrawing st
  /\ moveThrottleRef (handleClear w h st) = moveThrottleRef st.
Proof.
  unfold handleClear.
  destruct (match ctx st with Some _ => _ | None => _ end) as [context out].
  simpl. tauto.
Qed.

Lemma initCanvas_model context st :
  strokes (initCanvas context st) = strokes st
  /\ redoStack (initCanvas context st) = redoStack st
  /\ isDrawing (initCanvas context st) = isDrawing st
  /\ moveThrottleRef (initCanvas context st) = moveThrottleRef st.
Proof.
  unfold initCanvas. destruct (negb (canvasRef st)); [tauto|].
  destruct context; simpl; tauto.
Qed.

Lemma underLoad_iff ts now : underLoad ts now = true <-> underLoad_spec ts now.
Proof.
  unfold underLoad, underLoad_spec. rewrite andb_true_iff, Nat.ltb_lt.
  destruct (Array_last (points ts)) as [p|].
  - rewrite Z.ltb_lt. split.
    + intros [H1 H2]. split; [exact H1|]. exists p. split; [reflexivity|lia].
    + intros [H1 (q & Hq & H2)]. injection Hq as <-. split; [exact H1|lia].
  - split; [intros [_ H]; discriminate|intros [_ (q & Hq & _)]; discriminate].
Qed.

Lemma handlePointerMove_dropped e now st :
  (now - lastMoveTimeRef st < moveThrottleRef st)%Z ->
  handlePointerMove e now st = st.
Proof.
  intros H. unfold handlePointerMove.
  destruct (tempStroke st); [|reflexivity].
  destruct (negb (isDrawing st) || negb (canvasRef st)); [reflexivity|].
  apply Z.ltb_lt in H. now rewrite H.
Qed.

Lemma handlePointerMove_accepted e now st ts :
  tempStroke st = Some ts -> isDrawing st = true -> canvasRef st = true ->
  (moveThrottleRef st <= now - lastMoveTimeRef st)%Z ->
  moveThrottleRef (handlePointerMove e now st) =
    (if underLoad ts now
     then Z.min 32 (moveThrottleRef st + 2)
     else Z.max 16 (moveThrottleRef st - 1))
  /\ lastMoveTimeRef (handlePointerMove e now st) = now
  /\ exists p,
       tempStroke (handlePointerMove e now st) =
       Some {| points := points ts ++ [p]; brush := brush ts;
               color := color ts; size := size ts |}
       /\ timestamp p = now.
Proof.
  intros Ht Hd Hc Hacc. unfold handlePointerMove. rewrite Ht, Hd, Hc. simpl.
  apply Z.ltb_ge in Hacc. rewrite Hacc.
  destruct (smoothInput _ _ _) as [lp sm]. simpl.
  repeat split. eexists. split; reflexivity.
Qed.

Lemma handlePointerMove_throttle e now st :
  (16 <= moveThrottleRef st <= 32)%Z ->
  (16 <= moveThrottleRef (handlePointerMove e now st) <= 32)%Z.
Proof.
  intros H. unfold handlePointerMove.
  destruct (tempStroke st) as [ts|]; [|exact H].
  destruct (negb (isDrawing st) || negb (canvasRef st)); [exact H|].
  destruct (_ <? _)%Z; [exact H|].
  destruct (smoothInput _ _ _) as [lp sm]. simpl.
  destruct (underLoad ts now); lia.
Qed.

Lemma dispatch_throttle_ok ev st : throttle_ok st -> throttle_ok (dispatch ev st).
Proof.
  intros [Hb Hi]. unfold throttle_ok.
  destruct ev as [|context|e now|e now| | |sm|sm|w h|now clock w h|a b c d|now]; simpl.
  - split; [exact Hb|exact Hi].
  - destruct (initCanvas_model context st) as (_ & _ & Hd & Hm).
    now rewrite Hm, Hd.
  - unfold handlePointerDown. destruct (negb (canvasRef st)); [tauto|].
    simpl. split; [exact Hb|discriminate].
  - split; [now apply handlePointerMove_throttle|].
    destruct (handlePointerMove_history e now st) as (_ & _ & Hd & _).
    rewrite Hd. intros Hf. rewrite <- (Hi Hf).
    unfold handlePointerMove. destruct (tempStroke st); [|reflexivity].
    now rewrite Hf.
  - unfold handlePointerUp. destruct (tempStroke st); [|tauto].
    destruct (negb (isDrawing st)); [tauto|]. simpl. split; [lia|reflexivity].
  - unfold handlePointerUp. destruct (tempStroke st); [|tauto].
    destruct (negb (isDrawing st)); [tauto|]. simpl. split; [lia|reflexivity].
  - unfold handleUndo. destruct (Array_pop (strokes st)) as [l [s|]]; simpl; tauto.
  - unfold handleRedo. destruct (Array_pop (redoStack st)) as [l [s|]]; simpl; tauto.
  - destruct (handleClear_model w h st) as (_ & _ & _ & Hd & Hm).
    now rewrite Hm, Hd.
  - destruct (animate now clock w h st) as [st'| |] eqn:E; try tauto.
    destruct (animate_keeps_model _ _ _ _ _ _ E) as (_ & _ & _ & Hd & Hm & _).
    now rewrite Hm, Hd.
  - tauto.
  - tauto.
Qed.

(** C4: whatever happens to the component, the sampling interval stays
    between 16 and 32: it starts at 16; a pointer move that is not dropped
    by the rate limit sets it to min(32, interval + 2) when the stroke has
    more than 100 points and its latest point is younger than 1000ms, and
    to max(16, interval - 1) otherwise; a dropped move leaves it as it is;
    pointer up on an active session resets it to 16, so it is 16 whenever
    no stroke is being drawn. *)
Theorem sampling_interval_bounds :
  (forall c evs,
      (16 <= moveThrottleRef (run evs (initialState c)) <= 32)%Z)
  /\ (forall st evs,
      (16 <= moveThrottleRef st <= 32)%Z ->
      (16 <= moveThrottleRef (run evs st) <= 32)%Z)
  /\ (forall c, moveThrottleRef (initialState c) = 16%Z)
  /\ (forall st e now ts,
      tempStroke st = Some ts -> isDrawing st = true -> canvasRef st = true ->
      (moveThrottleRef st <= now - lastMoveTimeRef st)%Z ->
      (underLoad_spec ts now ->
       moveThrottleRef (handlePointerMove e now st) =
       Z.min 32 (moveThrottleRef st + 2))
      /\ (~ underLoad_spec ts now ->
          moveThrottleRef (handlePointerMove e now st) =
          Z.max 16 (moveThrottleRef st - 1)))
  /\ (forall st e now,
      (now - lastMoveTimeRef st < moveThrottleRef st)%Z ->
      handlePointerMove e now st = st)
  /\ (forall st ts,
      tempStroke st = Some ts -> isDrawing st = true ->
      moveThrottleRef (handlePointerUp st) = 16%Z)
  /\ (forall c evs,
      isDrawing (run evs (initialState c)) = false ->
      moveThrottleRef (run evs (initialState c)) = 16%Z).
Proof.
  assert (Hreach : forall c evs, throttle_ok (run evs (initialState c))).
  { intros c evs. apply run_invariant; [apply dispatch_throttle_ok|].
    split; simpl; [lia|reflexivity]. }
  split; [intros c evs; apply Hreach|].
  split.
  { intros st evs. revert st. unfold run.
    induction evs as [|ev evs IH]; intros st Hst; simpl; [exact Hst|].
    apply IH. destruct ev; simpl; try exact Hst.
    - destruct (initCanvas_model context st) as (_ & _ & _ & Hm). now rewrite Hm.
    - unfold handlePointerDown. now destruct (negb (canvasRef st)).
    - now apply handlePointerMove_throttle.
    - unfold handlePointerUp. destruct (tempStroke st); [|exact Hst].
      destruct (negb (isDrawing st)); [exact Hst|simpl; lia].
    - unfold handlePointerUp. destruct (tempStroke st); [|exact Hst].
      destruct (negb (isDrawing st)); [exact Hst|simpl; lia].
    - unfold handleUndo. now destruct (Array_pop (strokes st)) as [l [s|]].
    - unfold handleRedo. now destruct (Array_pop (redoStack st)) as [l [s|]].
    - destruct (handleClear_model width height st) as (_ & _ & _ & _ & Hm).
      now rewrite Hm.
    - destruct (animate _ _ _ _ st) as [st'| |] eqn:E; try exact Hst.
      destruct (animate_keeps_model _ _ _ _ _ _ E) as (_ & _ & _ & _ & Hm & _).
      now rewrite Hm. }
  split; [reflexivity|].
  split.
  { intros st e now ts Ht Hd Hc Hacc.
    destruct (handlePointerMove_accepted e now st ts Ht Hd Hc Hacc) as (Hm & _).
    rewrite Hm. split; intros Hu.
    - apply underLoad_iff in Hu. now rewrite Hu.
    - destruct (underLoad ts now) eqn:E; [|reflexivity].
      exfalso. apply Hu. now apply underLoad_iff. }
  split; [intros st e now; apply handlePointerMove_dropped|].
  split.
  { intros st ts Ht Hd. now destruct (handlePointerUp_active st ts Ht Hd)
      as (_ & _ & _ & _ & _ & H). }
  intros c evs. apply Hreach.
Qed.

Lemma Array_pop_cases {A : Type} (l : list A) :
  (l = [] /\ Array_pop l = ([], None))
  \/ exists r a, l = r ++ [a] /\ Array_pop l = (r, Some a).
Proof.
  destruct l as [|b l]; [now left|right].
  destruct (@exists_last _ (b :: l)) as (r & a & E); [discriminate|].
  exists r, a. rewrite E. split; [reflexivity|apply Array_pop_snoc].
Qed.

Lemma dispatch_history_ok ev st : history_ok st -> history_ok (dispatch ev st).
Proof.
  intros [Hs Hr]. unfold history_ok.
  destruct ev as [|context|e now|e now| | |sm|sm|w h|now clock w h|a b c d|now]; simpl.
  - now split.
  - destruct (initCanvas_model context st) as (A & B & _). now rewrite A, B.
  - unfold handlePointerDown. destruct (negb (canvasRef st)); [now split|].
    simpl. split; [exact Hs|constructor].
  - destruct (handlePointerMove_history e now st) as (A & B & _).
    now rewrite A, B.
  - unfold handlePointerUp. destruct (tempStroke st) as [ts|]; [|now split].
    destruct (negb (isDrawing st)); [now split|]. simpl. split; [|exact Hr].
    destruct (1 <? length (points ts)) eqn:E; [|exact Hs].
    apply Nat.ltb_lt in E. apply Forall_app. split; [exact Hs|].
    constructor; [|constructor]. apply optimizedStroke_keeps_two. lia.
  - unfold handlePointerUp. destruct (tempStroke st) as [ts|]; [|now split].
    destruct (negb (isDrawing st)); [now split|]. simpl. split; [|exact Hr].
    destruct (1 <? length (points ts)) eqn:E; [|exact Hs].
    apply Nat.ltb_lt in E. apply Forall_app. split; [exact Hs|].
    constructor; [|constructor]. apply optimizedStroke_keeps_two. lia.
  - unfold handleUndo.
    destruct (Array_pop_cases (strokes st)) as [[_ E]|(r & a & El & E)];
      rewrite E; [now split|].
    rewrite El in Hs. apply Forall_app in Hs as [Hs1 Hs2].
    destruct sm; simpl; (split; [exact Hs1|]);
      repeat (apply Forall_app; split); assumption.
  - unfold handleRedo.
    destruct (Array_pop_cases (redoStack st)) as [[_ E]|(r & a & El & E)];
      rewrite E; [now split|].
    rewrite El in Hr. apply Forall_app in Hr as [Hr1 Hr2].
    destruct sm; simpl; (split; [|exact Hr1]);
      repeat (apply Forall_app; split); assumption.
  - destruct (handleClear_model w h st) as (A & B & _). rewrite A, B.
    split; constructor.
  - destruct (animate now clock w h st) as [st'| |] eqn:E; try now split.
    destruct (animate_keeps_model _ _ _ _ _ _ E) as (A & B & _).
    now rewrite A, B.
  - now split.
  - now split.
Qed.

(** C6: pointer up on a session whose stroke has fewer than 2 points
    discards the stroke and leaves the committed list as it is; pointer up
    with no active session changes nothing; and every stroke of the
    committed list (and of the redo buffer), after any sequence of events,
    has at least 2 points. *)
Theorem short_strokes_never_committed :
  (forall st ts,
      tempStroke st = Some ts -> isDrawing st = true ->
      length (points ts) < 2 ->
      strokes (handlePointerUp st) = strokes st
      /\ redoStack (handlePointerUp st) = redoStack st
      /\ tempStroke (handlePointerUp st) = None)
  /\ (forall st,
      tempStroke st = None \/ isDrawing st = false ->
      handlePointerUp st = st)
  /\ (forall c evs s,
      In s (strokes (run evs (initialState c)))
      \/ In s (redoStack (run evs (initialState c))) ->
      2 <= length (points s)).
Proof.
  split.
  { intros st ts Ht Hd Hlen.
    destruct (handlePointerUp_active st ts Ht Hd) as (Hs & Hr & Hn & _).
    rewrite Hs, Hr, Hn.
    destruct (1 <? length (points ts)) eqn:E; [|tauto].
    apply Nat.ltb_lt in E. lia. }
  split; [apply handlePointerUp_idle|].
  intros c evs s Hin.
  assert (H : history_ok (run evs (initialState c))).
  { apply run_invariant; [apply dispatch_history_ok|].
    split; constructor. }
  destruct H as [Hs Hr]. rewrite Forall_forall in Hs, Hr.
  destruct Hin as [Hin|Hin]; [now apply Hs|now apply Hr].
Qed.

End SessionFacts.

Lemma sampling_interval_bounds_witness :
  tempStroke (capturing (num:=R) 101 [] []) =
    Some (sampleStroke (num:=R) ripple 101)
  /\ (moveThrottleRef (capturing (num:=R) 101 [] [])
      <= 2010 - lastMoveTimeRef (capturing (num:=R) 101 [] []))%Z
  /\ underLoad_spec (sampleStroke (num:=R) ripple 101) 2010
  /\ moveThrottleRef
       (handlePointerMove (pointerAt 5 5) 2010 (capturing (num:=R) 101 [] []))
     = 18%Z.
Proof.
  assert (H1 : tempStroke (capturing (num:=R) 101 [] []) =
               Some (sampleStroke (num:=R) ripple 101)) by reflexivity.
  assert (H4 : (moveThrottleRef (capturing (num:=R) 101 [] [])
                <= 2010 - lastMoveTimeRef (capturing (num:=R) 101 [] []))%Z)
    by (simpl; lia).
  assert (H5 : underLoad_spec (sampleStroke (num:=R) ripple 101) 2010).
  { unfold underLoad_spec, Array_last, sampleStroke. simpl points.
    split; [simpl; lia|].
    exists (samplePoint 100). split; [reflexivity|simpl; lia]. }
  destruct (sampling_interval_bounds (num:=R)) as (_ & _ & _ & H & _).
  destruct (H (capturing 101 [] []) (pointerAt 5 5) 2010%Z _ H1
              eq_refl eq_refl H4) as [Hup _].
  exact (conj H1 (conj H4 (conj H5 (Hup H5)))).
Defined.

Lemma short_strokes_never_committed_witness :
  tempStroke (capturing (num:=R) 1 [sampleStroke ripple 2] []) =
    Some (sampleStroke ripple 1)
  /\ length (points (sampleStroke (num:=R) ripple 1)) < 2
  /\ strokes (handlePointerUp (capturing (num:=R) 1 [sampleStroke ripple 2] []))
     = [sampleStroke ripple 2]
  /\ handlePointerUp (idle (num:=R) [sampleStroke ripple 2] []) =
     idle [sampleStroke ripple 2] [].
Proof.
  assert (H1 : tempStroke (capturing (num:=R) 1 [sampleStroke ripple 2] []) =
               Some (sampleStroke ripple 1)) by reflexivity.
  assert (H3 : length (points (sampleStroke (num:=R) ripple 1)) < 2)
    by (simpl; lia).
  destruct (short_strokes_never_committed (num:=R)) as (Hshort & Hidle & _).
  destruct (Hshort _ _ H1 eq_refl H3) as (Hs & _).
  exact (conj H1 (conj H3 (conj Hs
           (Hidle (idle [sampleStroke ripple 2] []) (or_introl eq_refl))))).
Defined.

(** ** Input smoother *)

(** C5: with no reference (after a reset) [smoothInput] returns the raw
    point unchanged and records it as the reference; with a reference it
    returns alpha * raw + (1 - alpha) * reference on each axis, makes that
    the new reference and passes the pressure through.  On exact numbers
    the two weights are 0.7 and 0.3.  Pointer down resets the reference
    before its call, so the first point of a stroke is the raw point. *)
Theorem smoothInput_contract :
  (forall (num : Type) (ops : JsNumber num) (point : Point) (p : num),
      smoothInput None point p =
      (Some point,
       {| sm_x := pt_x point; sm_y := pt_y point; sm_pressure := p |}))
  /\ (forall (num : Type) (ops : JsNumber num) (last point : Point) (p : num),
      smoothInput (Some last) point p =
      (Some {| pt_x := add (mul (lit 0.7) (pt_x point))
                           (mul (sub (lit 1) (lit 0.7)) (pt_x last));
               pt_y := add (mul (lit 0.7) (pt_y point))
                           (mul (sub (lit 1) (lit 0.7)) (pt_y last)) |},
       {| sm_x := add (mul (lit 0.7) (pt_x point))
                      (mul (sub (lit 1) (lit 0.7)) (pt_x last));
          sm_y := add (mul (lit 0.7) (pt_y point))
                      (mul (sub (lit 1) (lit 0.7)) (pt_y last));
          sm_pressure := p |}))
  /\ (forall (last point : @Point Q) (p : Q),
      smoothInput (Some last) point p =
      (Some {| pt_x := 0.7 * pt_x point + 0.3 * pt_x last;
               pt_y := 0.7 * pt_y point + 0.3 * pt_y last |},
       {| sm_x := 0.7 * pt_x point + 0.3 * pt_x last;
          sm_y := 0.7 * pt_y point + 0.3 * pt_y last;
          sm_pressure := p |}))%Q
  /\ (forall (num : Type) (ops : JsNumber num) (st : LightPainter)
        (e : PointerEvent) (now : Z),
      canvasRef st = true ->
      lastPointRef (handlePointerDown e now st) =
        Some {| pt_x := sub (clientX e) (rect_left e);
                pt_y := sub (clientY e) (rect_top e) |}
      /\ option_map points (tempStroke (handlePointerDown e now st)) =
         Some [ {| x := sub (clientX e) (rect_left e);
                   y := sub (clientY e) (rect_top e);
                   pressure := eventPressure e;
                   timestamp := now |} ]).
Proof.
  split; [reflexivity|]. split; [reflexivity|]. split; [reflexivity|].
  intros num ops st e now Hc. unfold handlePointerDown. rewrite Hc.
  simpl. split; reflexivity.
Qed.

Lemma smoothInput_contract_witness :
  canvasRef (idle (num:=Q) [] []) = true
  /\ lastPointRef (handlePointerDown (pointerAt 3 4) 0%Z (idle (num:=Q) [] []))
     = Some {| pt_x := (3 - 0)%Q; pt_y := (4 - 0)%Q |}.
Proof.
  split; [reflexivity|].
  exact (proj1 (proj2 (proj2 (proj2 smoothInput_contract)) Q _
                  (idle [] []) (pointerAt 3 4) 0%Z eq_refl)).
Defined.

Section SmootherConvergence.

Context {num : Type} {NumOps : JsNumber num}.
Variable value : num -> option Q.

Local Open Scope Q_scope.

Lemma Qpower_nat_succ (q : Q) (n : nat) :
  q ^ Z.of_nat (S n) == q * q ^ Z.of_nat n.
Proof.
  rewrite Nat2Z.inj_succ. unfold Z.succ.
  rewrite Qpower_plus' by lia. simpl (q ^ 1). ring.
Qed.

Lemma three_tenths_power (n : nat) :
  0 <= (3 # 10) ^ Z.of_nat n <= 1.
Proof.
  induction n as [|n IH].
  - simpl. split; discriminate.
  - rewrite Qpower_nat_succ. split; [Lqa.nra|Lqa.nra].
Qed.

Lemma withinError_inv eps err :
  withinError eps err = true ->
  exists d, err = Some d /\ - eps <= d <= eps.
Proof.
  destruct err as [d|]; [|discriminate]. simpl. intros H.
  apply Qle_bool_iff in H. exists d. split; [reflexivity|].
  apply Qabs_Qle_condition. exact H.
Qed.

Lemma blendError_inv raw reference smoothed d :
  blendError value raw reference smoothed = Some d ->
  exists p r s,
    value raw = Some p /\ value reference = Some r /\ value smoothed = Some s
    /\ d = s - ((7 # 10) * p + (3 # 10) * r).
Proof.
  unfold blendError.
  destruct (value raw) as [p|]; [|discriminate].
  destruct (value reference) as [r|]; [|discriminate].
  destruct (value smoothed) as [s|]; [|discriminate].
  intros E. injection E as <-. now exists p, r, s.
Qed.

(** One more call on one coordinate: [d0] and [d1] are the offsets before
    and after it, [e0] its rounding error. *)
Lemma offset_step (w eps d0 d1 dn e0 : Q) :
  0 <= w <= 1 -> - eps <= e0 <= eps ->
  d1 == (3 # 10) * d0 + e0 ->
  Qabs (dn - w * d1) <= (10 # 7) * eps * (1 - w) ->
  Qabs (dn - (3 # 10) * w * d0) <= (10 # 7) * eps * (1 - (3 # 10) * w).
Proof.
  intros Hw He E H.
  apply Qabs_Qle_condition in H. apply Qabs_Qle_condition.
  rewrite E in H. split; Lqa.nra.
Qed.


Lemma distance_bound (a b B : Q) :
  Qabs (a - b) <= B -> Qabs (Qabs a - Qabs b) <= B.
Proof.
  intros H. apply Qabs_Qle_condition.
  pose proof (Qabs_triangle_reverse a b) as H1.
  pose proof (Qabs_triangle_reverse b a) as H2.
  assert (E : Qabs (b - a) == Qabs (a - b)).
  { rewrite <- (Qabs_opp (a - b)). apply Qabs_wd. ring. }
  rewrite E in H2. split; Lqa.lra.
Qed.

Lemma smoother_offsets (eps : Q) (n : nat) (last point : @Point num)
  (p : num) (xl yl xp yp : Q) :
  value (pt_x last) = Some xl -> value (pt_y last) = Some yl ->
  value (pt_x point) = Some xp -> value (pt_y point) = Some yp ->
  roundsWithin value eps n last point p = true ->
  match smoothRepeated n (Some last) point p with
  | (Some r, outs) =>
      exists xr yr,
        value (pt_x r) = Some xr /\ value (pt_y r) = Some yr
        /\ Qabs ((xr - xp) - (3 # 10) ^ Z.of_nat n * (xl - xp))
           <= (10 # 7) * eps * (1 - (3 # 10) ^ Z.of_nat n)
        /\ Qabs ((yr - yp) - (3 # 10) ^ Z.of_nat n * (yl - yp))
           <= (10 # 7) * eps * (1 - (3 # 10) ^ Z.of_nat n)
        /\ Qabs (Qabs (xr - xp) - (3 # 10) ^ Z.of_nat n * Qabs (xl - xp))
           <= (10 # 7) * eps * (1 - (3 # 10) ^ Z.of_nat n)
        /\ Qabs (Qabs (yr - yp) - (3 # 10) ^ Z.of_nat n * Qabs (yl - yp))
           <= (10 # 7) * eps * (1 - (3 # 10) ^ Z.of_nat n)
        /\ length outs = n
        /\ match Array_last outs with
           | Some o => sm_x o = pt_x r /\ sm_y o = pt_y r /\ sm_pressure o = p
           | None => n = 0%nat
           end
  | (None, _) => False
  end.
Proof.
  intros Hxl Hyl Hxp Hyp Hacc.
  cut (match smoothRepeated n (Some last) point p with
       | (Some r, outs) =>
           (exists xr yr,
              value (pt_x r) = Some xr /\ value (pt_y r) = Some yr
              /\ Qabs ((xr - xp) - (3 # 10) ^ Z.of_nat n * (xl - xp))
                 <= (10 # 7) * eps * (1 - (3 # 10) ^ Z.of_nat n)
              /\ Qabs ((yr - yp) - (3 # 10) ^ Z.of_nat n * (yl - yp))
                 <= (10 # 7) * eps * (1 - (3 # 10) ^ Z.of_nat n))
           /\ length outs = n
           /\ (n = 0%nat -> r = last)
           /\ match Array_last outs with
              | Some o =>
                  sm_x o = pt_x r /\ sm_y o = pt_y r /\ sm_pressure o = p
              | None => n = 0%nat
              end
       | (None, _) => False
       end).
  { destruct (smoothRepeated n (Some last) point p) as [[r|] outs]; [|tauto].
    intros ((xr & yr & Hx & Hy & Bx & By) & Hl & _ & Ho).
    exists xr, yr. repeat split; auto.
    - assert (E : (3 # 10) ^ Z.of_nat n * Qabs (xl - xp)
                  == Qabs ((3 # 10) ^ Z.of_nat n * (xl - xp))).
      { rewrite Qabs_Qmult, (Qabs_pos ((3 # 10) ^ Z.of_nat n));
          [reflexivity|apply three_tenths_power]. }
      rewrite E. now apply distance_bound.
    - assert (E : (3 # 10) ^ Z.of_nat n * Qabs (yl - yp)
                  == Qabs ((3 # 10) ^ Z.of_nat n * (yl - yp))).
      { rewrite Qabs_Qmult, (Qabs_pos ((3 # 10) ^ Z.of_nat n));
          [reflexivity|apply three_tenths_power]. }
      rewrite E. now apply distance_bound. }
  revert last xl yl Hxl Hyl Hacc.
  induction n as [|n IH]; intros last xl yl Hxl Hyl Hacc.
  - cbn [smoothRepeated Array_last length nth_error Nat.sub].
    split; [|repeat split].
    exists xl, yl. split; [exact Hxl|]. split; [exact Hyl|].
    assert (Z0 : forall d : Q,
               Qabs (d - (3 # 10) ^ Z.of_nat 0 * d)
               <= (10 # 7) * eps * (1 - (3 # 10) ^ Z.of_nat 0)).
    { intros d. simpl Qpower.
      assert (E : d - 1 * d == 0) by ring. rewrite E. simpl Qabs. Lqa.lra. }
    split; apply Z0.
  - cbn [smoothRepeated roundsWithin] in *.
    destruct (smoothInput (Some last) point p) as [[r1|] o1] eqn:Es;
      [|discriminate].
    apply andb_true_iff in Hacc as [Hacc Hrest].
    apply andb_true_iff in Hacc as [Hex Hey].
    assert (Ho1 : sm_x o1 = pt_x r1 /\ sm_y o1 = pt_y r1 /\ sm_pressure o1 = p).
    { cbn [smoothInput] in Es. injection Es as <- <-. now repeat split. }
    destruct Ho1 as (Hox & Hoy & Hop).
    apply withinError_inv in Hex as (ex & Hex & Bex).
    apply withinError_inv in Hey as (ey & Hey & Bey).
    apply blendError_inv in Hex as (px & rx & sx & Hpx & Hrx & Hsx & ->).
    apply blendError_inv in Hey as (py & ry & sy & Hpy & Hry & Hsy & ->).
    rewrite Hxp in Hpx. injection Hpx as <-.
    rewrite Hyp in Hpy. injection Hpy as <-.
    rewrite Hxl in Hrx. injection Hrx as <-.
    rewrite Hyl in Hry. injection Hry as <-.
    rewrite Hox in Hsx. rewrite Hoy in Hsy.
    specialize (IH r1 sx sy Hsx Hsy Hrest).
    destruct (smoothRepeated n (Some r1) point p) as [[r|] outs]; [|tauto].
    destruct IH as ((xr & yr & Hx & Hy & Bx & By) & Hl & H0 & Ho).
    split.
    { exists xr, yr. split; [exact Hx|]. split; [exact Hy|].
      pose proof (three_tenths_power n) as Hw.
      split.
      - rewrite Qpower_nat_succ.
        apply (offset_step _ eps (xl - xp) (sx - xp) (xr - xp)
                 (sx - ((7 # 10) * xp + (3 # 10) * xl)) Hw Bex);
          [ring|exact Bx].
      - rewrite Qpower_nat_succ.
        apply (offset_step _ eps (yl - yp) (sy - yp) (yr - yp)
                 (sy - ((7 # 10) * yp + (3 # 10) * yl)) Hw Bey);
          [ring|exact By]. }
    split; [simpl; now rewrite Hl|].
    split; [discriminate|].
    destruct outs as [|o2 outs'].
    + simpl in Hl. subst n. rewrite (H0 eq_refl). simpl. now repeat split.
    + change (o1 :: o2 :: outs') with ([o1] ++ (o2 :: outs')).
      unfold Array_last in *. rewrite length_app, nth_error_app2 by (simpl; lia).
      simpl length in *. simpl Nat.sub in *.
      replace (S (S (length outs')) - 1 - 1)%nat with (length outs' - 0)%nat
        by lia.
      destruct (nth_error (o2 :: outs') (length outs' - 0));
        [exact Ho|exfalso; lia].
Qed.

End SmootherConvergence.

(** ** Rounding to binary64

    The error of one rounded product or sum, from the definitions of
    [SpecFloat] that the operations on doubles are specified by. *)

Section BinaryRounding.

Local Open Scope Z_scope.

Import SpecFloat Double.

(** A mantissa of [d] binary digits lies in [2^(d-1), 2^d). *)
Lemma digits2_pos_bounds (m : positive) :
  2 ^ (Zpos (digits2_pos m) - 1) <= Zpos m < 2 ^ Zpos (digits2_pos m).
Proof.
  induction m as [m IH|m IH|]; cbn [digits2_pos].
  - rewrite Pos2Z.inj_succ.
    replace (Z.succ (Zpos (digits2_pos m)) - 1)
      with (Z.succ (Zpos (digits2_pos m) - 1)) by lia.
    rewrite !Z.pow_succ_r by lia. lia.
  - rewrite Pos2Z.inj_succ.
    replace (Z.succ (Zpos (digits2_pos m)) - 1)
      with (Z.succ (Zpos (digits2_pos m) - 1)) by lia.
    rewrite !Z.pow_succ_r by lia. lia.
  - simpl. lia.
Qed.

(** One more right shift keeps the account of what was shifted out. *)
Lemma shr_1_shifted (mx q : Z) (mrs : shr_record) :
  shifted mx q mrs -> shifted mx (q + 1) (shr_1 mrs).
Proof.
  intros [Hm [(-> & -> & Hr & Hs)|(Hq & t & Ht & E & Hst)]].
  - destruct mrs as [m r s]. cbn [shr_m shr_r shr_s] in *. subst r s.
    split; [destruct m as [|[p|p|]|[p|p|]]; simpl; lia|]. right.
    split; [lia|]. exists 0.
    destruct m as [|[p|p|]|[p|p|]]; cbn [shr_1 shr_m shr_r shr_s orb];
      try lia; (split; [simpl; lia|]); (split; [simpl; lia|]);
      split; intros; try discriminate; lia.
  - destruct mrs as [m r s]. cbn [shr_m shr_r shr_s] in *.
    split; [destruct m as [|[p|p|]|[p|p|]]; simpl; lia|]. right.
    split; [lia|].
    replace (q + 1 - 1) with q by lia.
    assert (E2 : 2 ^ q = 2 * 2 ^ (q - 1)).
    { replace q with (Z.succ (q - 1)) at 1 by lia. apply Z.pow_succ_r. lia. }
    assert (E3 : 2 ^ (q + 1) = 2 * 2 ^ q) by (apply Z.pow_succ_r; lia).
    exists ((if r then 2 ^ (q - 1) else 0) + t).
    assert (Hs' : (r || s = true <-> 0 < (if r then 2 ^ (q - 1) else 0) + t)).
    { destruct r; simpl; [split; [lia|reflexivity]|].
      rewrite Hst. lia. }
    destruct m as [|[p|p|]|[p|p|]]; cbn [shr_1 shr_m shr_r shr_s];
      try lia; (split; [destruct r; lia|]); (split; [|exact Hs']);
      destruct r; lia.
Qed.

Lemma iter_pos_shifted (mx : Z) (p : positive) :
  forall q mrs,
    shifted mx q mrs -> shifted mx (q + Zpos p) (iter_pos shr_1 p mrs).
Proof.
  induction p as [p IH|p IH|]; intros q mrs H; cbn [iter_pos].
  - replace (q + Zpos p~1) with (q + 1 + Zpos p + Zpos p) by lia.
    apply IH, IH. now apply shr_1_shifted.
  - replace (q + Zpos p~0) with (q + Zpos p + Zpos p) by lia.
    now apply IH, IH.
  - now apply shr_1_shifted.
Qed.

Lemma shifted_quotient (mx q : Z) (mrs : shr_record) :
  shifted mx q mrs ->
  0 <= q /\ shr_m mrs * 2 ^ q <= mx < (shr_m mrs + 1) * 2 ^ q.
Proof.
  intros [Hm [(-> & -> & Hr & Hs)|(Hq & t & Ht & E & Hst)]].
  - rewrite Z.pow_0_r. lia.
  - assert (E2 : 2 ^ q = 2 * 2 ^ (q - 1)).
    { replace q with (Z.succ (q - 1)) at 1 by lia. apply Z.pow_succ_r. lia. }
    split; [lia|]. destruct (shr_r mrs); lia.
Qed.

(** Rounding the shifted mantissa to nearest, ties to even, gives the
    quotient or its successor, within half a unit of the exact quotient. *)
Lemma round_shifted (mx q : Z) (mrs : shr_record) :
  shifted mx q mrs ->
  shr_m mrs <= round_nearest_even (shr_m mrs) (loc_of_shr_record mrs)
            <= shr_m mrs + 1
  /\ 2 * Z.abs (round_nearest_even (shr_m mrs) (loc_of_shr_record mrs) * 2 ^ q
                - mx) <= 2 ^ q.
Proof.
  intros [Hm [(-> & -> & Hr & Hs)|(Hq & t & Ht & E & Hst)]].
  - destruct mrs as [m r s]. cbn [shr_m shr_r shr_s] in *. subst r s.
    cbn [loc_of_shr_record round_nearest_even]. rewrite Z.pow_0_r. lia.
  - assert (E2 : 2 ^ q = 2 * 2 ^ (q - 1)).
    { replace q with (Z.succ (q - 1)) at 1 by lia. apply Z.pow_succ_r. lia. }
    destruct mrs as [m r s]. cbn [shr_m shr_r shr_s] in *.
    destruct r, s; cbn [loc_of_shr_record round_nearest_even].
    + assert (0 < t) by now apply Hst. lia.
    + assert (~ 0 < t) by (intros H; apply Hst in H; discriminate).
      destruct (Z.even m); lia.
    + assert (0 < t) by now apply Hst. lia.
    + assert (~ 0 < t) by (intros H; apply Hst in H; discriminate). lia.
Qed.

Lemma fexp_eq (e : Z) :
  fexp FloatOps.prec FloatOps.emax e = Z.max (e - 53) (-1074).
Proof. reflexivity. Qed.

Lemma digits_le (m : positive) (k : Z) :
  0 <= k -> Zpos m < 2 ^ k -> Zpos (digits2_pos m) <= k.
Proof.
  intros Hk H. pose proof (digits2_pos_bounds m) as [H1 _].
  destruct (Z.le_gt_cases (Zpos (digits2_pos m)) k) as [|Hgt]; [assumption|].
  assert (2 ^ k <= 2 ^ (Zpos (digits2_pos m) - 1))
    by (apply Z.pow_le_mono_r; lia).
  lia.
Qed.

Lemma digits_ge (m : positive) (k : Z) :
  0 <= k -> 2 ^ k <= Zpos m -> k + 1 <= Zpos (digits2_pos m).
Proof.
  intros Hk H. pose proof (digits2_pos_bounds m) as [_ H1].
  destruct (Z.le_gt_cases (k + 1) (Zpos (digits2_pos m))) as [|Hgt];
    [assumption|].
  assert (2 ^ Zpos (digits2_pos m) <= 2 ^ k)
    by (apply Z.pow_le_mono_r; lia).
  lia.
Qed.

Lemma normalised_small (s : bool) (m : positive) (e1 : Z) :
  -1074 <= e1 -> Zpos m < 2 ^ 53 ->
  normalised s (Zpos m) e1
  = if e1 <=? 971 then S754_finite s m e1 else S754_infinity s.
Proof.
  intros He Hm. unfold normalised. cbn [Zdigits2]. rewrite fexp_eq.
  pose proof (digits_le m 53 ltac:(lia) Hm) as Hd.
  unfold shr.
  destruct (Z.max (Z.pos (digits2_pos m) + e1 - 53) (-1074) - e1)
    as [|p|p] eqn:En; try reflexivity.
  lia.
Qed.

Lemma normalised_carry (s : bool) (e1 : Z) :
  -1074 <= e1 ->
  normalised s (2 ^ 53) e1
  = if e1 + 1 <=? 971 then S754_finite s (4503599627370496)%positive (e1 + 1)
    else S754_infinity s.
Proof.
  intros He. unfold normalised.
  change (2 ^ 53) with (Zpos 9007199254740992).
  cbn [Zdigits2]. rewrite fexp_eq.
  change (Z.pos (digits2_pos 9007199254740992)) with 54.
  replace (Z.max (54 + e1 - 53) (-1074) - e1) with 1 by lia.
  reflexivity.
Qed.

(** The rounding step of every operation, [binary_round_aux] on an exact
    magnitude, returns a rounding of it in the sense of [roundsTo]. *)
Lemma binary_round_aux_roundsTo (s : bool) (mx : positive) (ex : Z) :
  roundsTo s mx ex
    (binary_round_aux FloatOps.prec FloatOps.emax s (Zpos mx) ex loc_Exact).
Proof.
  pose proof (digits2_pos_bounds mx) as Hd.
  assert (E : binary_round_aux FloatOps.prec FloatOps.emax s (Zpos mx) ex
                loc_Exact
              = let '(mrs', e') :=
                  shr {| shr_m := Zpos mx; shr_r := false; shr_s := false |} ex
                    (Z.max (Zpos (digits2_pos mx) + ex - 53) (-1074) - ex) in
                normalised s
                  (round_nearest_even (shr_m mrs') (loc_of_shr_record mrs'))
                  e') by reflexivity.
  rewrite E. clear E.
  set (d := Zpos (digits2_pos mx)) in *.
  set (f := Z.max (d + ex - 53) (-1074)).
  assert (Hd0 : 1 <= d) by (unfold d; lia).
  unfold shr.
  destruct (f - ex) as [|p|p] eqn:En.
  - (* the mantissa fits: nothing is shifted out *)
    cbn [shr_m loc_of_shr_record round_nearest_even].
    assert (Hm : Zpos mx < 2 ^ 53).
    { apply (Z.lt_le_trans _ (2 ^ d)); [apply Hd|].
      apply Z.pow_le_mono_r; lia. }
    rewrite normalised_small by lia.
    destruct (ex <=? 971) eqn:Ee; cbn [roundsTo].
    + apply Z.leb_le in Ee. split; [reflexivity|]. split; [lia|]. left.
      rewrite Z.sub_diag, Z.pow_0_r. lia.
    + apply Z.leb_gt in Ee. split; [reflexivity|]. left. lia.
  - (* [p] bits are shifted out *)
    pose proof (iter_pos_shifted (Zpos mx) p 0
                  {| shr_m := Zpos mx; shr_r := false; shr_s := false |})
      as Hsh.
    cbn [Z.add] in Hsh.
    specialize (Hsh ltac:(split; [cbn; lia|left; cbn; auto])).
    set (mrs' := iter_pos shr_1 p _) in *.
    destruct (round_shifted _ _ _ Hsh) as [Hm1 Herr].
    destruct (shifted_quotient _ _ _ Hsh) as [_ Hq].
    destruct Hsh as [Hm0 _].
    set (m1 := round_nearest_even (shr_m mrs') (loc_of_shr_record mrs')) in *.
    replace (ex + Zpos p) with f by lia.
    assert (Hf : -1074 <= f) by (unfold f; lia).
    assert (Hpd : 0 < 2 ^ Zpos p) by (apply Z.pow_pos_nonneg; lia).
    destruct m1 as [|q1|q1] eqn:Em1; [| |lia].
    + (* rounded to zero *)
      assert (Hsmall : f = -1074).
      { assert (Zpos mx < 2 ^ Zpos p) by lia.
        pose proof (digits_le mx (Zpos p) ltac:(lia) H). unfold f in *. lia. }
      unfold normalised. cbn [Zdigits2]. rewrite fexp_eq. unfold shr.
      destruct (Z.max (0 + f - 53) (-1074) - f) as [|p2|p2] eqn:En2;
        [| lia |]; cbn [shr_m roundsTo];
        (split; [reflexivity|]);
        replace (-1074 - ex) with (Zpos p) by lia; lia.
    + destruct (Z.lt_ge_cases (Zpos q1) (2 ^ 53)) as [Hlt|Hge].
      * rewrite normalised_small by lia.
        destruct (f <=? 971) eqn:Ee; cbn [roundsTo].
        -- apply Z.leb_le in Ee. split; [reflexivity|]. split; [lia|].
           replace (f - ex) with (Zpos p) by lia.
           destruct (Z.le_gt_cases (-1074) (d + ex - 53)) as [Hn|Hs].
           ++ left.
              assert (Ep : Zpos p = d - 53) by (unfold f in *; lia).
              assert (E2 : 2 ^ (d - 1) = 2 ^ (Zpos p - 1) * 2 ^ 53).
              { rewrite <- Z.pow_add_r by lia. f_equal. lia. }
              assert (E3 : 2 ^ Zpos p = 2 * 2 ^ (Zpos p - 1)).
              { replace (Zpos p) with (Z.succ (Zpos p - 1)) at 1 by lia.
                apply Z.pow_succ_r. lia. }
              nia.
           ++ right. split; [unfold f; lia|exact Herr].
        -- apply Z.leb_gt in Ee. split; [reflexivity|]. right.
           unfold f in *. fold d. lia.
      * (* the rounding carried into bit 53 *)
        assert (Hn : -1074 <= d + ex - 53).
        { destruct (Z.le_gt_cases (-1074) (d + ex - 53)) as [Hn|Hs];
            [exact Hn|exfalso].
          assert (Ep : d - Zpos p <= 52) by (unfold f in *; lia).
          assert (Hlow : shr_m mrs' * 2 ^ Zpos p < 2 ^ d) by lia.
          destruct (Z.le_gt_cases (Zpos p) d) as [Hpd'|Hpd'].
          - assert (E2 : 2 ^ d = 2 ^ (d - Zpos p) * 2 ^ Zpos p).
            { rewrite <- Z.pow_add_r by lia. f_equal. lia. }
            assert (shr_m mrs' < 2 ^ (d - Zpos p)) by nia.
            assert (2 ^ (d - Zpos p) <= 2 ^ 52)
              by (apply Z.pow_le_mono_r; lia).
            assert (2 ^ 53 = 2 * 2 ^ 52) by reflexivity. lia.
          - assert (2 ^ d <= 2 ^ Zpos p) by (apply Z.pow_le_mono_r; lia).
            assert (shr_m mrs' = 0) by nia.
            assert (2 ^ 53 = 9007199254740992) by reflexivity. lia. }
        assert (Ep : Zpos p = d - 53) by (unfold f in *; lia).
        assert (Hq1 : Zpos q1 = 2 ^ 53).
        { assert (E2 : 2 ^ d = 2 ^ 53 * 2 ^ Zpos p).
          { rewrite <- Z.pow_add_r by lia. f_equal. lia. }
          assert (shr_m mrs' < 2 ^ 53) by nia. lia. }
        rewrite Hq1, normalised_carry by lia.
        destruct (f + 1 <=? 971) eqn:Ee; cbn [roundsTo].
        -- apply Z.leb_le in Ee. split; [reflexivity|]. split; [lia|]. left.
           replace (f + 1 - ex) with (Zpos p + 1) by lia.
           rewrite Z.pow_add_r, Z.pow_1_r by lia.
           assert (E2 : 2 ^ (d - 1) = 2 ^ (Zpos p - 1) * 2 ^ 53).
           { rewrite <- Z.pow_add_r by lia. f_equal. lia. }
           assert (E3 : 2 ^ Zpos p = 2 * 2 ^ (Zpos p - 1)).
           { replace (Zpos p) with (Z.succ (Zpos p - 1)) at 1 by lia.
             apply Z.pow_succ_r. lia. }
           assert (E4 : Zpos 4503599627370496 * 2 = 2 ^ 53) by reflexivity.
           rewrite Hq1 in Herr.
           replace (Z.pos 4503599627370496 * (2 ^ Z.pos p * 2))
             with (2 ^ 53 * 2 ^ Zpos p) by lia.
           nia.
        -- apply Z.leb_gt in Ee. split; [reflexivity|]. right.
           unfold f in *. fold d. lia.
  - (* the exponent is above the canonical one: nothing is shifted *)
    cbn [shr_m loc_of_shr_record round_nearest_even].
    assert (Hm : Zpos mx < 2 ^ 53).
    { apply (Z.lt_le_trans _ (2 ^ d)); [apply Hd|].
      apply Z.pow_le_mono_r; lia. }
    rewrite normalised_small by lia.
    destruct (ex <=? 971) eqn:Ee; cbn [roundsTo].
    + apply Z.leb_le in Ee. split; [reflexivity|]. split; [lia|]. left.
      rewrite Z.sub_diag, Z.pow_0_r. lia.
    + apply Z.leb_gt in Ee. split; [reflexivity|]. left. lia.
Qed.

End BinaryRounding.

Section RoundedValues.

Import SpecFloat Double.

Local Open Scope Q_scope.

Lemma two_power_pos (z : Z) : 0 < 2 ^ z.
Proof. apply Qpower_0_lt. reflexivity. Qed.

Lemma two_power_add (a b : Z) : 2 ^ (a + b) == 2 ^ a * 2 ^ b.
Proof. apply Qpower_plus. discriminate. Qed.

Lemma two_power_inject (k : Z) : (0 <= k)%Z -> inject_Z (2 ^ k) == 2 ^ k.
Proof. intros H. now rewrite Zpower_Qpower. Qed.

Lemma finite_value (s : bool) (m : positive) (e : Z) :
  inject_Z (if s then Zneg m else Zpos m) * 2 ^ e
  == signed s (inject_Z (Zpos m) * 2 ^ e).
Proof.
  destruct s; unfold signed; [|reflexivity].
  change (Zneg m) with (- Zpos m)%Z. rewrite inject_Z_opp. ring.
Qed.

Lemma Qabs_signed (s : bool) (q : Q) : Qabs (signed s q) == Qabs q.
Proof. destruct s; [apply Qabs_opp|reflexivity]. Qed.

Lemma signed_minus (s : bool) (a b : Q) :
  signed s a - signed s b == signed s (a - b).
Proof. destruct s; unfold signed; ring. Qed.

(** The value that rounding gives is within half a unit in the last place
    of the exact one: within 2^-53 of it in proportion, or within 2^-1075
    where the result is subnormal; there is no value only above 2^1023. *)
Lemma roundsTo_error (s : bool) (mx : positive) (ex : Z) (res : spec_float) :
  roundsTo s mx ex res ->
  match valueSF res with
  | Some v =>
      Qabs (v - signed s (inject_Z (Zpos mx) * 2 ^ ex))
      <= (1 # 9007199254740992) * (inject_Z (Zpos mx) * 2 ^ ex)
         + 2 ^ (-1075)
  | None =>
      (972 <= ex \/ 1024 <= Zpos (digits2_pos mx) + ex)%Z
  end.
Proof.
  pose proof (two_power_pos ex) as Hex.
  assert (Hmx : 0 < inject_Z (Zpos mx)) by reflexivity.
  assert (Heta : 0 < 2 ^ (-1075)) by apply two_power_pos.
  destruct res as [s'|s'| |s' m e]; cbn [roundsTo valueSF].
  - intros (-> & Hk & H).
    assert (E : 0 - signed s (inject_Z (Zpos mx) * 2 ^ ex)
                == signed s (- (inject_Z (Zpos mx) * 2 ^ ex)))
      by (destruct s; unfold signed; ring).
    assert (Hp : 0 < inject_Z (Zpos mx) * 2 ^ ex)
      by (apply Qmult_lt_0_compat; assumption).
    rewrite E, Qabs_signed, Qabs_opp, Qabs_pos by Lqa.lra.
    assert (H2 : 2 * (inject_Z (Zpos mx) * 2 ^ ex) <= 2 ^ (-1074)).
    { replace (-1074)%Z with ((-1074 - ex) + ex)%Z by lia.
      rewrite two_power_add, <- (two_power_inject (-1074 - ex)) by lia.
      rewrite Zle_Qle in H. rewrite inject_Z_mult in H.
      change (inject_Z 2) with 2 in H.
      assert (H3 : 2 * inject_Z (Zpos mx) * 2 ^ ex
                   <= inject_Z (2 ^ (-1074 - ex)) * 2 ^ ex)
        by (apply Qmult_le_compat_r; Lqa.lra).
      Lqa.lra. }
    assert (E2 : 2 ^ (-1074) == 2 * 2 ^ (-1075)) by reflexivity.
    Lqa.lra.
  - intros (-> & H). exact H.
  - contradiction.
  - intros (-> & He & H).
    rewrite finite_value, signed_minus, Qabs_signed.
    set (k := (e - ex)%Z) in *.
    assert (Ek : 2 ^ e == inject_Z (2 ^ k) * 2 ^ ex).
    { replace e with (k + ex)%Z at 1 by (unfold k; lia).
      rewrite two_power_add, (two_power_inject k) by (unfold k; lia).
      reflexivity. }
    assert (Ed : inject_Z (Zpos m) * 2 ^ e - inject_Z (Zpos mx) * 2 ^ ex
                 == inject_Z (Zpos m * 2 ^ k - Zpos mx) * 2 ^ ex).
    { rewrite Ek. unfold Zminus.
      rewrite inject_Z_plus, inject_Z_mult, inject_Z_opp. ring. }
    rewrite Ed, Qabs_Qmult, (Qabs_pos (2 ^ ex)) by Lqa.lra.
    change (Qabs (inject_Z (Zpos m * 2 ^ k - Zpos mx)))
      with (inject_Z (Z.abs (Zpos m * 2 ^ k - Zpos mx))).
    set (D := Z.abs (Zpos m * 2 ^ k - Zpos mx)) in *.
    assert (HD : 0 <= inject_Z D).
    { change 0 with (inject_Z 0). rewrite <- Zle_Qle. unfold D. lia. }
    assert (Hp : 0 < inject_Z (Zpos mx) * 2 ^ ex)
      by (apply Qmult_lt_0_compat; assumption).
    destruct H as [H|[-> H]].
    + rewrite Zle_Qle in H. rewrite inject_Z_mult in H.
      change (inject_Z (2 ^ 53)) with (9007199254740992 # 1) in H.
      assert (H1 : inject_Z D <= (1 # 9007199254740992) * inject_Z (Zpos mx))
        by Lqa.lra.
      assert (H2 : inject_Z D * 2 ^ ex
                   <= (1 # 9007199254740992) * inject_Z (Zpos mx) * 2 ^ ex)
        by (apply Qmult_le_compat_r; Lqa.lra).
      Lqa.lra.
    + rewrite Zle_Qle in H. rewrite inject_Z_mult in H.
      change (inject_Z 2) with 2 in H.
      assert (E3 : inject_Z (2 ^ k) * 2 ^ ex == 2 * 2 ^ (-1075)).
      { rewrite <- Ek. reflexivity. }
      assert (H2 : 2 * inject_Z D * 2 ^ ex <= inject_Z (2 ^ k) * 2 ^ ex)
        by (apply Qmult_le_compat_r; Lqa.lra).
      Lqa.lra.
Qed.

Lemma signed_wd (s : bool) (a b : Q) : a == b -> signed s a == signed s b.
Proof. intros E. destruct s; unfold signed; now rewrite E. Qed.

Lemma signed_mult (s1 s2 : bool) (a b : Q) :
  signed s1 a * signed s2 b == signed (xorb s1 s2) (a * b).
Proof. destruct s1, s2; unfold signed; simpl; ring. Qed.

Lemma digits_power (m : positive) (e : Z) :
  2 ^ (Zpos (digits2_pos m) - 1 + e) <= inject_Z (Zpos m) * 2 ^ e.
Proof.
  rewrite two_power_add.
  apply Qmult_le_compat_r; [|apply Qlt_le_weak, two_power_pos].
  rewrite <- two_power_inject by lia. rewrite <- Zle_Qle.
  apply digits2_pos_bounds.
Qed.

Lemma overflow_digits (m : positive) (e : Z) :
  (1024 <= Zpos (digits2_pos m) + e)%Z ->
  2 ^ 1023 <= inject_Z (Zpos m) * 2 ^ e.
Proof.
  intros H. apply (Qle_trans _ (2 ^ (Zpos (digits2_pos m) - 1 + e)));
    [|apply digits_power].
  apply Qpower_le_compat_l; [lia|discriminate].
Qed.

Lemma valid_finite (s : bool) (m : positive) (e : Z) :
  valid_binary FloatOps.prec FloatOps.emax (S754_finite s m e) = true ->
  (e <= 971 /\ Z.max (Zpos (digits2_pos m) + e - 53) (-1074) = e)%Z.
Proof.
  cbn [valid_binary]. unfold bounded, canonical_mantissa.
  rewrite fexp_eq. intros H. apply andb_true_iff in H as [H1 H2].
  apply Z.eqb_eq in H1. apply Z.leb_le in H2.
  change (FloatOps.emax - FloatOps.prec)%Z with 971%Z in H2. now split.
Qed.

(** A product of two doubles: the double returned is within 2^-53 of the
    exact product in proportion, plus 2^-1075; it is an infinity or NaN only
    when the exact product is 2^1023 or more in magnitude. *)
Lemma SFmul_error (x y : spec_float) (xv yv : Q) :
  valid_binary FloatOps.prec FloatOps.emax x = true ->
  valid_binary FloatOps.prec FloatOps.emax y = true ->
  valueSF x = Some xv -> valueSF y = Some yv ->
  match valueSF (SFmul FloatOps.prec FloatOps.emax x y) with
  | Some v =>
      Qabs (v - xv * yv)
      <= (1 # 9007199254740992) * Qabs (xv * yv) + 2 ^ (-1075)
  | None => 2 ^ 1023 <= Qabs (xv * yv)
  end.
Proof.
  assert (Heta : 0 < 2 ^ (-1075)) by apply two_power_pos.
  assert (Z0 : forall q : Q,
             q == 0 ->
             Qabs (0 - q)
             <= (1 # 9007199254740992) * Qabs q + 2 ^ (-1075)).
  { intros q E. rewrite E. simpl Qabs. Lqa.lra. }
  intros Vx Vy Hx Hy.
  destruct x as [sx|sx| |sx mx ex]; try discriminate;
    destruct y as [sy|sy| |sy my ey]; try discriminate;
    cbn [SFmul valueSF] in *; injection Hx as <-; injection Hy as <-.
  - apply Z0. ring.
  - apply Z0. ring.
  - apply Z0. ring.
  - assert (E : inject_Z (if sx then Zneg mx else Zpos mx) * 2 ^ ex
                * (inject_Z (if sy then Zneg my else Zpos my) * 2 ^ ey)
                == signed (xorb sx sy)
                     (inject_Z (Zpos (mx * my)) * 2 ^ (ex + ey))).
    { rewrite !finite_value, signed_mult. apply signed_wd.
      rewrite two_power_add, Pos2Z.inj_mul, inject_Z_mult. ring. }
    assert (Hp : 0 < inject_Z (Zpos (mx * my)) * 2 ^ (ex + ey))
      by (apply Qmult_lt_0_compat; [reflexivity|apply two_power_pos]).
    pose proof (roundsTo_error _ _ _ _
                  (binary_round_aux_roundsTo (xorb sx sy) (mx * my) (ex + ey)))
      as H.
    destruct (valueSF _) as [v|];
      rewrite E, Qabs_signed,
        (Qabs_pos (inject_Z (Zpos (mx * my)) * 2 ^ (ex + ey))) by Lqa.lra;
      [exact H|].
    destruct H as [H|H]; [|now apply overflow_digits].
    destruct (valid_finite _ _ _ Vx) as [Hex Hcx].
    destruct (valid_finite _ _ _ Vy) as [Hey Hcy].
    apply overflow_digits.
    pose proof (digits_ge (mx * my) 104 ltac:(lia)) as Hd.
    assert (Hdx : Zpos (digits2_pos mx) = 53%Z) by lia.
    assert (Hdy : Zpos (digits2_pos my) = 53%Z) by lia.
    pose proof (digits2_pos_bounds mx) as [Bx _].
    pose proof (digits2_pos_bounds my) as [By _].
    rewrite Hdx in Bx. rewrite Hdy in By.
    assert (H104 : (2 ^ 104 <= Zpos (mx * my))%Z).
    { rewrite Pos2Z.inj_mul.
      change (2 ^ 104)%Z with (2 ^ (53 - 1) * 2 ^ (53 - 1))%Z.
      apply Z.mul_le_mono_nonneg; lia. }
    specialize (Hd H104). lia.
Qed.

Lemma iter_xO_value (m d : positive) :
  (Zpos (Pos.iter xO m d) = Zpos m * 2 ^ Zpos d)%Z
  /\ (Zpos (digits2_pos (Pos.iter xO m d))
      = Zpos (digits2_pos m) + Zpos d)%Z.
Proof.
  induction d as [|d IH] using Pos.peano_ind.
  - cbn [Pos.iter digits2_pos]. split; [|rewrite Pos2Z.inj_succ]; lia.
  - rewrite Pos.iter_succ. cbn [digits2_pos].
    rewrite Pos2Z.inj_succ, Pos2Z.inj_xO, Z.pow_succ_r by lia.
    rewrite Pos2Z.inj_succ. lia.
Qed.

(** The same for [binary_round], which first brings the mantissa to the
    canonical exponent. *)
Lemma binary_round_error (s : bool) (m : positive) (e : Z) :
  match valueSF (binary_round FloatOps.prec FloatOps.emax s m e) with
  | Some v =>
      Qabs (v - signed s (inject_Z (Zpos m) * 2 ^ e))
      <= (1 # 9007199254740992) * (inject_Z (Zpos m) * 2 ^ e) + 2 ^ (-1075)
  | None => 2 ^ 1023 <= inject_Z (Zpos m) * 2 ^ e
  end.
Proof.
  unfold binary_round, shl_align. rewrite fexp_eq.
  set (d := Zpos (digits2_pos m)).
  destruct (Z.max (d + e - 53) (-1074) - e)%Z as [|j|j] eqn:Ej.
  - pose proof (roundsTo_error _ _ _ _ (binary_round_aux_roundsTo s m e))
      as H.
    destruct (valueSF _) as [v|]; [exact H|].
    apply overflow_digits. fold d. lia.
  - pose proof (roundsTo_error _ _ _ _ (binary_round_aux_roundsTo s m e))
      as H.
    destruct (valueSF _) as [v|]; [exact H|].
    apply overflow_digits. fold d. lia.
  - destruct (iter_xO_value m j) as [Ev Ed].
    pose proof (roundsTo_error _ _ _ _
                  (binary_round_aux_roundsTo s (Pos.iter xO m j)
                     (Z.max (d + e - 53) (-1074)))) as H.
    assert (E : inject_Z (Zpos (Pos.iter xO m j))
                * 2 ^ Z.max (d + e - 53) (-1074)
                == inject_Z (Zpos m) * 2 ^ e).
    { rewrite Ev, inject_Z_mult, (two_power_inject (Zpos j)) by lia.
      rewrite <- Qmult_assoc, <- two_power_add.
      replace (Zpos j + Z.max (d + e - 53) (-1074))%Z with e by lia.
      reflexivity. }
    destruct (valueSF _) as [v|].
    + pose proof (signed_wd s _ _ E) as Es. rewrite <- Es, <- E. exact H.
    + apply overflow_digits. fold d. rewrite Ed in H. fold d in H. lia.
Qed.

Lemma cond_Zopp_value (s : bool) (m : positive) (k e : Z) :
  (0 <= k)%Z ->
  inject_Z (cond_Zopp s (Zpos m * 2 ^ k)) * 2 ^ e
  == signed s (inject_Z (Zpos m) * 2 ^ (k + e)).
Proof.
  intros Hk.
  destruct s; unfold cond_Zopp, signed;
    rewrite two_power_add, <- (two_power_inject k) by lia;
    rewrite ?inject_Z_opp, inject_Z_mult; ring.
Qed.

Lemma shl_align_fst (m : positive) (e e' : Z) :
  (e' <= e)%Z ->
  (Zpos (fst (shl_align m e e')) = Zpos m * 2 ^ (e - e'))%Z.
Proof.
  intros H. unfold shl_align.
  destruct (e' - e)%Z as [|j|j] eqn:Ej; cbn [fst].
  - replace (e - e')%Z with 0%Z by lia. lia.
  - lia.
  - rewrite (proj1 (iter_xO_value m j)). f_equal. f_equal. lia.
Qed.

(** A sum of two doubles, likewise. *)
Lemma SFadd_error (x y : spec_float) (xv yv : Q) :
  valueSF x = Some xv -> valueSF y = Some yv ->
  match valueSF (SFadd FloatOps.prec FloatOps.emax x y) with
  | Some v =>
      Qabs (v - (xv + yv))
      <= (1 # 9007199254740992) * Qabs (xv + yv) + 2 ^ (-1075)
  | None => 2 ^ 1023 <= Qabs (xv + yv)
  end.
Proof.
  assert (Heta : 0 < 2 ^ (-1075)) by apply two_power_pos.
  assert (Hsame : forall q r : Q,
             q == r ->
             Qabs (q - r) <= (1 # 9007199254740992) * Qabs r + 2 ^ (-1075)).
  { intros q r E. pose proof (Qabs_nonneg r).
    assert (E0 : q - r == 0) by (rewrite E; ring).
    rewrite E0. simpl (Qabs 0). Lqa.lra. }
  intros Hx Hy.
  destruct x as [sx|sx| |sx mx ex]; try discriminate;
    destruct y as [sy|sy| |sy my ey]; try discriminate;
    cbn [SFadd valueSF] in *; injection Hx as <-; injection Hy as <-.
  - destruct sx, sy; cbn [valueSF]; apply Hsame; ring.
  - apply Hsame. ring.
  - apply Hsame. ring.
  - set (ez := Z.min ex ey).
    rewrite (shl_align_fst mx ex ez), (shl_align_fst my ey ez)
      by (unfold ez; lia).
    set (S := (cond_Zopp sx (Zpos mx * 2 ^ (ex - ez))
               + cond_Zopp sy (Zpos my * 2 ^ (ey - ez)))%Z).
    assert (E : inject_Z S * 2 ^ ez
                == inject_Z (if sx then Zneg mx else Zpos mx) * 2 ^ ex
                   + inject_Z (if sy then Zneg my else Zpos my) * 2 ^ ey).
    { unfold S. rewrite inject_Z_plus, Qmult_plus_distr_l.
      rewrite !cond_Zopp_value by (unfold ez; lia).
      replace (ex - ez + ez)%Z with ex by lia.
      replace (ey - ez + ez)%Z with ey by lia.
      now rewrite !finite_value. }
    set (exact := inject_Z (if sx then Zneg mx else Zpos mx) * 2 ^ ex
                  + inject_Z (if sy then Zneg my else Zpos my) * 2 ^ ey) in *.
    unfold binary_normalize.
    destruct S as [|m|m].
    + cbn [valueSF]. apply Hsame. rewrite <- E. ring.
    + pose proof (binary_round_error false m ez) as H.
      cbn [signed] in H.
      assert (Hp : 0 < inject_Z (Zpos m) * 2 ^ ez)
        by (apply Qmult_lt_0_compat; [reflexivity|apply two_power_pos]).
      destruct (valueSF _) as [v|];
        rewrite <- E, (Qabs_pos (inject_Z (Zpos m) * 2 ^ ez)) by Lqa.lra;
        exact H.
    + pose proof (binary_round_error true m ez) as H.
      cbn [signed] in H.
      assert (Hp : 0 < inject_Z (Zpos m) * 2 ^ ez)
        by (apply Qmult_lt_0_compat; [reflexivity|apply two_power_pos]).
      assert (En : inject_Z (Zneg m) * 2 ^ ez
                   == - (inject_Z (Zpos m) * 2 ^ ez)).
      { change (Zneg m) with (- Zpos m)%Z. rewrite inject_Z_opp. ring. }
      destruct (valueSF _) as [v|];
        rewrite <- E, En, Qabs_opp,
          (Qabs_pos (inject_Z (Zpos m) * 2 ^ ez)) by Lqa.lra;
        exact H.
Qed.

End RoundedValues.

Section DoubleSmoother.

Import SpecFloat Double.

Local Open Scope Q_scope.

Lemma value_valueSF (f : PrimFloat.float) :
  Double.value f = option_map Qred (valueSF (FloatOps.Prim2SF f)).
Proof. unfold Double.value. now destruct (FloatOps.Prim2SF f). Qed.

(** The two bounds on the primitive operations, through their
    specification by [SpecFloat]. *)
Lemma mul_error (x y : PrimFloat.float) (xv yv : Q) :
  Double.value x = Some xv -> Double.value y = Some yv ->
  match Double.value (PrimFloat.mul x y) with
  | Some v =>
      Qabs (v - xv * yv)
      <= (1 # 9007199254740992) * Qabs (xv * yv) + 2 ^ (-1075)
  | None => 2 ^ 1023 <= Qabs (xv * yv)
  end.
Proof.
  rewrite !value_valueSF. intros Hx Hy.
  destruct (valueSF (FloatOps.Prim2SF x)) as [qx|] eqn:Ex; [|discriminate].
  destruct (valueSF (FloatOps.Prim2SF y)) as [qy|] eqn:Ey; [|discriminate].
  cbn [option_map] in *. injection Hx as <-. injection Hy as <-.
  pose proof (SFmul_error _ _ qx qy (FloatAxioms.Prim2SF_valid x)
                (FloatAxioms.Prim2SF_valid y) Ex Ey) as H.
  rewrite FloatAxioms.mul_spec. unfold FloatAxioms.SF64mul.
  destruct (valueSF (SFmul _ _ _ _)) as [v|]; cbn [option_map];
    rewrite !Qred_correct; exact H.
Qed.

Lemma add_error (x y : PrimFloat.float) (xv yv : Q) :
  Double.value x = Some xv -> Double.value y = Some yv ->
  match Double.value (PrimFloat.add x y) with
  | Some v =>
      Qabs (v - (xv + yv))
      <= (1 # 9007199254740992) * Qabs (xv + yv) + 2 ^ (-1075)
  | None => 2 ^ 1023 <= Qabs (xv + yv)
  end.
Proof.
  rewrite !value_valueSF. intros Hx Hy.
  destruct (valueSF (FloatOps.Prim2SF x)) as [qx|] eqn:Ex; [|discriminate].
  destruct (valueSF (FloatOps.Prim2SF y)) as [qy|] eqn:Ey; [|discriminate].
  cbn [option_map] in *. injection Hx as <-. injection Hy as <-.
  pose proof (SFadd_error _ _ qx qy Ex Ey) as H.
  rewrite FloatAxioms.add_spec. unfold FloatAxioms.SF64add.
  destruct (valueSF (SFadd _ _ _ _)) as [v|]; cbn [option_map];
    rewrite !Qred_correct; exact H.
Qed.

Lemma Qabs_bounds (x c : Q) : Qabs x <= c -> - c <= x /\ x <= c.
Proof. apply Qabs_Qle_condition. Qed.

Lemma Qabs_bounded (x c : Q) : - c <= x -> x <= c -> Qabs x <= c.
Proof. intros H1 H2. now apply Qabs_Qle_condition. Qed.

(** One coordinate of one [smoothInput] call.  The literal 0.7 is the
    double 3152519739159347 / 2^52 and [1 - 0.7] is computed exactly, as
    1351079888211149 / 2^52; the two products and the sum each round
    once.  A reference within [2 M + 1] stays within it. *)
Lemma blend_error (p r : PrimFloat.float) (pv rv M : Q) :
  Double.value p = Some pv -> Double.value r = Some rv ->
  Qabs pv <= M -> Qabs rv <= 2 * M + 1 -> M <= 2 ^ 1000 ->
  exists sv,
    Double.value (add (mul alpha p) (mul (sub (lit 1) alpha) r)) = Some sv
    /\ Qabs (sv - ((7 # 10) * pv + (3 # 10) * rv))
       <= (1 # 1000000000000000) * (M + 1)
    /\ Qabs sv <= 2 * M + 1.
Proof.
  intros Hp Hr Bp Br BM.
  assert (HA : Double.value (@alpha _ Double_JsNumber)
               = Some (3152519739159347 # 4503599627370496))
    by (vm_compute; reflexivity).
  assert (HB : Double.value (sub (lit 1) (@alpha _ Double_JsNumber))
               = Some (1351079888211149 # 4503599627370496))
    by (vm_compute; reflexivity).
  cbn [add mul Double_JsNumber].
  set (fa := @alpha _ Double_JsNumber) in *.
  set (fb := @sub _ Double_JsNumber (lit 1) fa) in *.
  assert (Heta : 0 < 2 ^ (-1075) /\ 2 ^ (-1075) <= 1 # 1000000000000000000).
  { split; [apply two_power_pos|]. vm_compute. intros H. discriminate H. }
  assert (Hbig : 2 ^ 1000 * 4 <= 2 ^ 1023 /\ 1 <= 2 ^ 1000)
    by (split; vm_compute; intros H; discriminate H).
  assert (M0 : 0 <= M) by (pose proof (Qabs_nonneg pv); Lqa.lra).
  apply Qabs_bounds in Bp, Br.
  pose proof (mul_error fa p _ _ HA Hp) as H1.
  pose proof (mul_error fb r _ _ HB Hr) as H2.
  pose proof (fun x y xv yv => add_error x y xv yv) as Hadd.
  set (eta := 2 ^ (-1075)) in *. set (big := 2 ^ 1023) in *.
  set (lim := 2 ^ 1000) in *.
  assert (T1 : Qabs ((3152519739159347 # 4503599627370496) * pv)
               <= (3152519739159347 # 4503599627370496) * M)
    by (apply Qabs_bounded; Lqa.lra).
  assert (T2 : Qabs ((1351079888211149 # 4503599627370496) * rv)
               <= (1351079888211149 # 4503599627370496) * (2 * M + 1))
    by (apply Qabs_bounded; Lqa.lra).
  pose proof (Qabs_bounds _ _
                (Qle_refl
                   (Qabs ((3152519739159347 # 4503599627370496) * pv))))
    as N1.
  pose proof (Qabs_bounds _ _
                (Qle_refl
                   (Qabs ((1351079888211149 # 4503599627370496) * rv))))
    as N2.
  set (t1 := Qabs ((3152519739159347 # 4503599627370496) * pv)) in *.
  set (t2 := Qabs ((1351079888211149 # 4503599627370496) * rv)) in *.
  destruct (Double.value (PrimFloat.mul fa p)) as [m1|] eqn:E1;
    [|exfalso; Lqa.lra].
  destruct (Double.value (PrimFloat.mul fb r)) as [m2|] eqn:E2;
    [|exfalso; Lqa.lra].
  apply Qabs_bounds in H1, H2.
  pose proof (Hadd _ _ _ _ E1 E2) as H3.
  assert (T3 : Qabs (m1 + m2)
               <= (1 + (1 # 9007199254740992)) * (t1 + t2) + 2 * eta)
    by (apply Qabs_bounded; Lqa.lra).
  pose proof (Qabs_bounds _ _ (Qle_refl (Qabs (m1 + m2)))) as N3.
  set (t3 := Qabs (m1 + m2)) in *.
  destruct (Double.value (PrimFloat.add _ _)) as [sv|];
    [|exfalso; Lqa.lra].
  apply Qabs_bounds in H3.
  exists sv. split; [reflexivity|].
  split; apply Qabs_bounded; Lqa.lra.
Qed.

(** Every call of a run rounds within 10^-15 (M + 1). *)
Lemma doubles_round_within (n : nat) (point : @Point PrimFloat.float)
  (p : PrimFloat.float) (xp yp M : Q) :
  Double.value (pt_x point) = Some xp -> Double.value (pt_y point) = Some yp ->
  Qabs xp <= M -> Qabs yp <= M -> M <= 2 ^ 1000 ->
  forall (last : @Point PrimFloat.float) (xl yl : Q),
    Double.value (pt_x last) = Some xl -> Double.value (pt_y last) = Some yl ->
    Qabs xl <= 2 * M + 1 -> Qabs yl <= 2 * M + 1 ->
    roundsWithin Double.value ((1 # 1000000000000000) * (M + 1)) n last point
      p = true.
Proof.
  intros Hxp Hyp Bxp Byp BM.
  induction n as [|n IH]; intros last xl yl Hxl Hyl Bxl Byl; [reflexivity|].
  cbn [roundsWithin smoothInput sm_x sm_y].
  destruct (blend_error _ _ _ _ M Hxp Hxl Bxp Bxl BM) as (sx & Hsx & Ex & Bx).
  destruct (blend_error _ _ _ _ M Hyp Hyl Byp Byl BM) as (sy & Hsy & Ey & By).
  unfold blendError. rewrite Hxp, Hyp, Hxl, Hyl, Hsx, Hsy.
  cbn [withinError].
  apply Qle_bool_iff in Ex, Ey. rewrite Ex, Ey. cbn [andb].
  now apply (IH _ sx sy).
Qed.

(** C8: repeated calls with the same raw point approach it geometrically,
    up to the rounding of binary64.  For coordinates that are finite
    doubles of absolute value at most [M] (itself at most 2^1000, so that
    nothing overflows), each of the [n] calls returns, on each axis, a
    double within 10^-15 (M + 1) of the exact blend 0.7 raw + 0.3
    reference; after the [n] calls the reference (the last smoothed value)
    is a finite double whose offset from the raw point differs from 0.3^n
    times the initial offset by at most (10/7) 10^-15 (M + 1) (1 - 0.3^n),
    and so does the distance.  The equality of the claim is the case of no
    rounding at all in [smoother_offsets], which doubles do not meet. *)
Theorem smoother_converges (n : nat) (last point : @Point PrimFloat.float)
  (p : PrimFloat.float) (xl yl xp yp M : Q) :
  Double.value (pt_x last) = Some xl -> Double.value (pt_y last) = Some yl ->
  Double.value (pt_x point) = Some xp -> Double.value (pt_y point) = Some yp ->
  Qabs xl <= M -> Qabs yl <= M -> Qabs xp <= M -> Qabs yp <= M ->
  M <= 2 ^ 1000 ->
  roundsWithin Double.value ((1 # 1000000000000000) * (M + 1)) n last point p
  = true
  /\ match smoothRepeated n (Some last) point p with
     | (Some r, outs) =>
         exists xr yr,
           Double.value (pt_x r) = Some xr /\ Double.value (pt_y r) = Some yr
           /\ Qabs ((xr - xp) - (3 # 10) ^ Z.of_nat n * (xl - xp))
              <= (10 # 7) * ((1 # 1000000000000000) * (M + 1))
                 * (1 - (3 # 10) ^ Z.of_nat n)
           /\ Qabs ((yr - yp) - (3 # 10) ^ Z.of_nat n * (yl - yp))
              <= (10 # 7) * ((1 # 1000000000000000) * (M + 1))
                 * (1 - (3 # 10) ^ Z.of_nat n)
           /\ Qabs (Qabs (xr - xp) - (3 # 10) ^ Z.of_nat n * Qabs (xl - xp))
              <= (10 # 7) * ((1 # 1000000000000000) * (M + 1))
                 * (1 - (3 # 10) ^ Z.of_nat n)
           /\ Qabs (Qabs (yr - yp) - (3 # 10) ^ Z.of_nat n * Qabs (yl - yp))
              <= (10 # 7) * ((1 # 1000000000000000) * (M + 1))
                 * (1 - (3 # 10) ^ Z.of_nat n)
           /\ length outs = n
           /\ match Array_last outs with
              | Some o =>
                  sm_x o = pt_x r /\ sm_y o = pt_y r /\ sm_pressure o = p
              | None => n = 0%nat
              end
     | (None, _) => False
     end.
Proof.
  intros Hxl Hyl Hxp Hyp Bxl Byl Bxp Byp BM.
  assert (M0 : 0 <= M) by (pose proof (Qabs_nonneg xl); Lqa.lra).
  assert (H : roundsWithin Double.value ((1 # 1000000000000000) * (M + 1)) n
                last point p = true).
  { apply (doubles_round_within n point p xp yp M Hxp Hyp Bxp Byp BM
             last xl yl Hxl Hyl); Lqa.lra. }
  split; [exact H|].
  now apply smoother_offsets.
Qed.

End DoubleSmoother.

Lemma smoother_converges_witness :
  exists r outs xr,
    smoothRepeated 3 (Some {| pt_x := lit 100; pt_y := lit 50 |})
      {| pt_x := lit 0; pt_y := lit 0 |} (lit 1) = (Some r, outs)
    /\ Double.value (pt_x r) = Some xr
    /\ (Qabs (xr - 0 - (3 # 10) ^ 3 * (100 - 0))
        <= (10 # 7) * ((1 # 1000000000000000) * (100 + 1))
           * (1 - (3 # 10) ^ 3))%Q.
Proof.
  assert (V100 : Double.value (lit 100) = Some 100%Q)
    by (vm_compute; reflexivity).
  assert (V50 : Double.value (lit 50) = Some 50%Q)
    by (vm_compute; reflexivity).
  assert (V0 : Double.value (lit 0) = Some 0%Q) by (vm_compute; reflexivity).
  assert (B100 : (Qabs 100 <= 100)%Q) by (apply Qle_bool_iff; reflexivity).
  assert (B50 : (Qabs 50 <= 100)%Q) by (apply Qle_bool_iff; reflexivity).
  assert (B0 : (Qabs 0 <= 100)%Q) by (apply Qle_bool_iff; reflexivity).
  assert (BM : (100 <= 2 ^ 1000)%Q)
    by (apply Qle_bool_iff; vm_compute; reflexivity).
  destruct (proj2 (smoother_converges 3
                     {| pt_x := lit 100; pt_y := lit 50 |}
                     {| pt_x := lit 0; pt_y := lit 0 |} (lit 1)
                     100%Q 50%Q 0%Q 0%Q 100%Q
                     V100 V50 V0 V0 B100 B50 B0 B0 BM))
    as (xr & yr & Hx & _ & Bx & _).
  eexists _, _, xr. split; [reflexivity|]. split; [exact Hx|exact Bx].
Defined.

(** In binary64 the equality of the claim fails after one call.  From the
    reference 100 towards the raw value 0 the call returns
    30.000000000000004, not 30.  With the reference on the raw value 1.8
    already, so at distance 0, the call returns 1.8000000000000003; and
    from there every further call returns 1.8000000000000003 again, so the
    smoothed value never reaches the raw one. *)
Lemma smoother_rounds_in_doubles :
  let smooth (reference raw : PrimFloat.float) :=
    smoothInput (Some {| pt_x := reference; pt_y := reference |})
      {| pt_x := raw; pt_y := raw |} (lit 1) in
  let near := sm_x (snd (smooth (lit 1.8) (lit 1.8))) in
  (Double.value (lit 100) = Some 100
   /\ Double.value (lit 0) = Some 0
   /\ Double.value (sm_x (snd (smooth (lit 100) (lit 0))))
      = Some (8444249301319681 # 281474976710656)
   /\ ~ (Qabs ((8444249301319681 # 281474976710656) - 0)
         == (3 # 10) ^ 1 * Qabs (100 - 0)))%Q
  /\ (Double.value (lit 1.8) = Some (8106479329266893 # 4503599627370496)
      /\ Double.value near = Some (4053239664633447 # 2251799813685248)
      /\ ~ (Qabs ((4053239664633447 # 2251799813685248)
                  - (8106479329266893 # 4503599627370496))
            == (3 # 10) ^ 1
               * Qabs ((8106479329266893 # 4503599627370496)
                       - (8106479329266893 # 4503599627370496))))%Q
  /\ fst (smooth near (lit 1.8)) = Some {| pt_x := near; pt_y := near |}.
Proof.
  vm_compute.
  repeat split; try reflexivity; intros H; discriminate H.
Qed.

(** X8: in binary64 the smoother overshoots by rounding only.  For
    coordinates that are finite doubles of absolute value at most [M] (at
    most 2^1000), one call returns, on each axis, a finite double that is at
    most 10^-15 (M + 1) outside the interval between the reference and the
    raw value.  It does leave the interval: with raw and reference both 0.9
    it returns 0.9000000000000001, and with both 6.3 it returns
    6.299999999999999. *)
Theorem smoothInput_stays_between :
  (forall (last point : @Point PrimFloat.float) (p : PrimFloat.float)
     (xl yl xp yp M : Q),
      Double.value (pt_x last) = Some xl ->
      Double.value (pt_y last) = Some yl ->
      Double.value (pt_x point) = Some xp ->
      Double.value (pt_y point) = Some yp ->
      Qabs xl <= M -> Qabs yl <= M -> Qabs xp <= M -> Qabs yp <= M ->
      M <= 2 ^ 1000 ->
      exists r o xr yr,
        smoothInput (Some last) point p = (Some r, o)
        /\ sm_x o = pt_x r /\ sm_y o = pt_y r /\ sm_pressure o = p
        /\ Double.value (pt_x r) = Some xr /\ Double.value (pt_y r) = Some yr
        /\ (xl <= xp ->
            xl - (1 # 1000000000000000) * (M + 1) <= xr
            <= xp + (1 # 1000000000000000) * (M + 1))
        /\ (xp <= xl ->
            xp - (1 # 1000000000000000) * (M + 1) <= xr
            <= xl + (1 # 1000000000000000) * (M + 1))
        /\ (yl <= yp ->
            yl - (1 # 1000000000000000) * (M + 1) <= yr
            <= yp + (1 # 1000000000000000) * (M + 1))
        /\ (yp <= yl ->
            yp - (1 # 1000000000000000) * (M + 1) <= yr
            <= yl + (1 # 1000000000000000) * (M + 1)))%Q
  /\ (let same (v : PrimFloat.float) :=
        sm_x (snd (smoothInput (Some {| pt_x := v; pt_y := v |})
                     {| pt_x := v; pt_y := v |} (lit 1))) in
      Double.value (lit 0.9) = Some (8106479329266893 # 9007199254740992)
      /\ Double.value (same (lit 0.9))
         = Some (4053239664633447 # 4503599627370496)
      /\ ((8106479329266893 # 9007199254740992)
          < (4053239664633447 # 4503599627370496))%Q
      /\ Double.value (lit 6.3) = Some (7093169413108531 # 1125899906842624)
      /\ Double.value (same (lit 6.3))
         = Some (3546584706554265 # 562949953421312)
      /\ ((3546584706554265 # 562949953421312)
          < (7093169413108531 # 1125899906842624))%Q).
Proof.
  split.
  - intros last point p xl yl xp yp M Hxl Hyl Hxp Hyp Bxl Byl Bxp Byp BM.
    assert (M0 : (0 <= M)%Q) by (pose proof (Qabs_nonneg xl); Lqa.lra).
    destruct (blend_error _ _ _ _ M Hxp Hxl Bxp ltac:(Lqa.lra) BM)
      as (sx & Hsx & Ex & _).
    destruct (blend_error _ _ _ _ M Hyp Hyl Byp ltac:(Lqa.lra) BM)
      as (sy & Hsy & Ey & _).
    apply Qabs_Qle_condition in Ex, Ey.
    eexists _, _, sx, sy. cbn [smoothInput].
    split; [reflexivity|]. cbn [sm_x sm_y sm_pressure pt_x pt_y].
    repeat (split; [reflexivity|]).
    split; [exact Hsx|]. split; [exact Hsy|].
    repeat split; intros; Lqa.lra.
  - vm_compute. repeat split; reflexivity.
Qed.

Lemma smoothInput_stays_between_witness :
  exists xr,
    Double.value
      (sm_x (snd (smoothInput (Some {| pt_x := lit 100; pt_y := lit 50 |})
                    {| pt_x := lit 0; pt_y := lit 0 |} (lit 1)))) = Some xr
    /\ (0 - (1 # 1000000000000000) * (100 + 1) <= xr
        <= 100 + (1 # 1000000000000000) * (100 + 1))%Q.
Proof.
  assert (V100 : Double.value (lit 100) = Some 100%Q)
    by (vm_compute; reflexivity).
  assert (V50 : Double.value (lit 50) = Some 50%Q)
    by (vm_compute; reflexivity).
  assert (V0 : Double.value (lit 0) = Some 0%Q) by (vm_compute; reflexivity).
  assert (B100 : (Qabs 100 <= 100)%Q) by (apply Qle_bool_iff; reflexivity).
  assert (B50 : (Qabs 50 <= 100)%Q) by (apply Qle_bool_iff; reflexivity).
  assert (B0 : (Qabs 0 <= 100)%Q) by (apply Qle_bool_iff; reflexivity).
  assert (BM : (100 <= 2 ^ 1000)%Q)
    by (apply Qle_bool_iff; vm_compute; reflexivity).
  assert (L : (0 <= 100)%Q) by (apply Qle_bool_iff; reflexivity).
  destruct (proj1 smoothInput_stays_between
              {| pt_x := lit 100; pt_y := lit 50 |}
              {| pt_x := lit 0; pt_y := lit 0 |} (lit 1)
              100%Q 50%Q 0%Q 0%Q 100%Q V100 V50 V0 V0 B100 B50 B0 B0 BM)
    as (r & o & xr & yr & E & Ox & _ & _ & Hx & _ & _ & Hdown & _).
  exists xr. rewrite E. cbn [snd]. rewrite Ox.
  split; [exact Hx|]. exact (Hdown L).
Defined.

(** ** Drawing *)

Section DrawFacts.

Context {num : Type} {NumOps : JsNumber num}.
Implicit Types (d : @Draw num) (c : @Context2D num).

Local Notation "d1 ;; d2" := (andThen d1 d2)
  (at level 61, right associativity).

Lemma wb_skip : well_behaved (@skip num).
Proof. intros c. now exists c, []. Qed.

Lemma wb_andThen d1 d2 :
  well_behaved d1 -> well_behaved d2 -> well_behaved (d1 ;; d2).
Proof.
  intros H1 H2 c.
  destruct (H1 c) as (c1 & o1 & E1 & S1).
  destruct (H2 c1) as (c2 & o2 & E2 & S2).
  exists c2, (o1 ++ o2). unfold andThen. rewrite E1, E2.
  split; congruence.
Qed.

Lemma wb_assign f : well_behaved (assign (num:=num) f).
Proof. intros c. now eexists _, _. Qed.

Lemma wb_beginPath : well_behaved (@beginPath num).
Proof. intros c. now eexists _, _. Qed.

Lemma wb_addSegment g : well_behaved (addSegment (num:=num) g).
Proof. intros c. now eexists _, _. Qed.

Lemma wb_stroke : well_behaved (@stroke_ num).
Proof. intros c. now eexists _, _. Qed.

Lemma wb_fill : well_behaved (@fill num).
Proof. intros c. now eexists _, _. Qed.

Lemma wb_clearRect a b w h : well_behaved (clearRect (num:=num) a b w h).
Proof. intros c. now eexists _, _. Qed.

Lemma wb_if (b : bool) d1 d2 :
  well_behaved d1 -> well_behaved d2 -> well_behaved (if b then d1 else d2).
Proof. now destruct b. Qed.

Lemma wb_at_index (arr : list (@StrokePoint num)) i k :
  i < length arr -> (forall p, well_behaved (k p)) ->
  well_behaved (at_index arr i k).
Proof.
  intros Hi Hk. unfold at_index.
  destruct (nth_error arr i) eqn:E; [apply Hk|].
  apply nth_error_None in E. lia.
Qed.

Lemma wb_for_loop fuel i stop step body :
  stop - i <= fuel -> 1 <= step ->
  (forall j, j < stop -> well_behaved (body j)) ->
  well_behaved (for_loop (num:=num) fuel i stop step body).
Proof.
  intros Hf Hs Hb. revert i Hf.
  induction fuel as [|fuel IH]; intros i Hf; simpl;
    destruct (stop <=? i) eqn:E; try apply wb_skip;
    apply Nat.leb_gt in E.
  - lia.
  - apply wb_andThen; [now apply Hb|]. apply IH. lia.
Qed.

Lemma wb_for start stop step body :
  1 <= step ->
  (forall j, j < stop -> well_behaved (body j)) ->
  well_behaved (for_ (num:=num) start stop step body).
Proof. intros Hs Hb. apply wb_for_loop; auto. Qed.

Lemma wb_forEach_from {A : Type} (body : A -> nat -> @Draw num) i arr :
  (forall a j, well_behaved (body a j)) ->
  well_behaved (forEach_from body i arr).
Proof.
  intros Hb. revert i.
  induction arr as [|a arr IH]; intros i; simpl; [apply wb_skip|].
  apply wb_andThen; auto.
Qed.

Lemma restores_restore s0 rest : restores (num:=num) s0 rest restore.
Proof.
  intros c Hc. unfold restore. rewrite Hc. now eexists _, _.
Qed.

Lemma restores_andThen s0 rest d1 d2 :
  well_behaved d1 -> restores s0 rest d2 -> restores s0 rest (d1 ;; d2).
Proof.
  intros H1 H2 c Hc.
  destruct (H1 c) as (c1 & o1 & E1 & S1).
  destruct (H2 c1) as (c2 & o2 & E2 & St & Sv); [congruence|].
  exists c2, (o1 ++ o2). unfold andThen. now rewrite E1, E2.
Qed.

Lemma passive_save : path_passive (@save num).
Proof. intros c1 c2 [Hs Hv]. simpl. unfold same_drawing_state; simpl.
  now rewrite Hs, Hv. Qed.

Lemma passive_assign f : path_passive (assign (num:=num) f).
Proof. intros c1 c2 [Hs Hv]. simpl. unfold same_drawing_state; simpl.
  now rewrite Hs, Hv. Qed.

Lemma blind_beginPath : path_blind (@beginPath num).
Proof. intros c1 c2 [Hs Hv]. unfold beginPath. now rewrite Hs, Hv. Qed.

Lemma blind_andThen d1 d2 : path_blind d1 -> path_blind (d1 ;; d2).
Proof. intros H c1 c2 Hc. unfold andThen. now rewrite (H c1 c2 Hc). Qed.

Lemma passive_then_blind d1 d2 :
  path_passive d1 -> path_blind d2 -> path_blind (d1 ;; d2).
Proof.
  intros H1 H2 c1 c2 Hc. unfold andThen. specialize (H1 c1 c2 Hc).
  destruct (d1 c1) as [[c1' o1]| |], (d1 c2) as [[c2' o2]| |];
    try contradiction; try reflexivity.
  destruct H1 as [Hs ->]. now rewrite (H2 c1' c2' Hs).
Qed.

End DrawFacts.

Create HintDb draw.

#[local] Hint Resolve wb_skip wb_andThen wb_assign wb_beginPath wb_addSegment
  wb_stroke wb_fill wb_clearRect wb_if : draw.

Ltac well_behaved_tac :=
  lazymatch goal with
  | |- well_behaved (andThen _ _) => apply wb_andThen; well_behaved_tac
  | |- well_behaved (if _ then _ else _) => apply wb_if; well_behaved_tac
  | |- well_behaved (at_index _ _ _) =>
      apply wb_at_index; [lia | intros ?; well_behaved_tac]
  | |- well_behaved (for_ _ _ _ _) =>
      apply wb_for; [lia | intros ? ?; well_behaved_tac]
  | |- well_behaved (moveTo _ _) => apply wb_addSegment
  | |- well_behaved (lineTo _ _) => apply wb_addSegment
  | |- well_behaved (arc _ _ _ _ _) => apply wb_addSegment
  | |- _ => auto with draw
  end.

(** ** Brush renderer *)

Section BrushFacts.

Context {num : Type} {NumOps : JsNumber num} {MathOps : JsMath num}.
Implicit Types (s : @Stroke num) (c : @Context2D num) (now : num).

Local Notation "d1 ;; d2" := (andThen d1 d2)
  (at level 61, right associativity).

Lemma pointsToRender_short s :
  length (points s) <= 200 -> pointsToRender s = points s.
Proof.
  intros H. unfold pointsToRender.
  destruct (200 <? length (points s)) eqn:E; [|reflexivity].
  apply Nat.ltb_lt in E. lia.
Qed.

Lemma pointsToRender_long s :
  200 < length (points s) ->
  pointsToRender s =
  Array_filter (fun _ i => (i mod 2 =? 0) || (i =? length (points s) - 1))
    (points s).
Proof.
  intros H. unfold pointsToRender.
  destruct (200 <? length (points s)) eqn:E; [reflexivity|].
  apply Nat.ltb_ge in E. lia.
Qed.

Lemma pointsToRender_head s :
  hd_error (pointsToRender s) = hd_error (points s).
Proof.
  destruct (Nat.le_gt_cases (length (points s)) 200) as [Hs|Hl].
  - now rewrite pointsToRender_short.
  - rewrite pointsToRender_long by assumption.
    now apply (keep_first_head (fun i => i mod 2 =? 0)).
Qed.

Lemma pointsToRender_last s :
  Array_last (pointsToRender s) = Array_last (points s).
Proof.
  destruct (Nat.le_gt_cases (length (points s)) 200) as [Hs|Hl].
  - now rewrite pointsToRender_short.
  - rewrite pointsToRender_long by assumption.
    apply (keep_last_last (fun i => i mod 2 =? 0)).
Qed.

Lemma pointsToRender_two s :
  2 <= length (points s) -> 2 <= length (pointsToRender s).
Proof.
  intros H. destruct (Nat.le_gt_cases (length (points s)) 200) as [Hs|Hl].
  - now rewrite pointsToRender_short.
  - rewrite pointsToRender_long by assumption.
    destruct (points s) as [|b l] using rev_ind; [simpl in H; lia|].
    clear IHl. rewrite (keep_last_snoc (fun i => i mod 2 =? 0)).
    rewrite length_app in *; simpl in *.
    destruct l as [|a l]; [simpl in H; lia|]. simpl. lia.
Qed.

Lemma wb_drawRipple now s pts :
  0 < length pts -> well_behaved (drawRipple now s pts).
Proof. intros H. unfold drawRipple. cbv zeta. well_behaved_tac. Qed.

Lemma wb_drawPulse now s pts :
  0 < length pts -> well_behaved (drawPulse now s pts).
Proof. intros H. unfold drawPulse. cbv zeta. well_behaved_tac. Qed.

Lemma wb_drawParticle s pts : well_behaved (drawParticle s pts).
Proof. unfold drawParticle. cbv zeta. well_behaved_tac. Qed.

Lemma wb_style now s :
  2 <= length (points s) ->
  well_behaved
    (match brush s with
     | ripple => drawRipple now s (pointsToRender s)
     | pulse => drawPulse now s (pointsToRender s)
     | particle => drawParticle s (pointsToRender s)
     end).
Proof.
  intros H. pose proof (pointsToRender_two s H).
  destruct (brush s);
    [apply wb_drawRipple|apply wb_drawPulse|apply wb_drawParticle]; lia.
Qed.

Lemma blind_style now s :
  2 <= length (points s) ->
  path_blind
    (match brush s with
     | ripple => drawRipple now s (pointsToRender s)
     | pulse => drawPulse now s (pointsToRender s)
     | particle => drawParticle s (pointsToRender s)
     end).
Proof.
  intros H. pose proof (pointsToRender_two s H) as Hp.
  destruct (brush s).
  - unfold drawRipple. cbv zeta. apply blind_andThen, blind_beginPath.
  - unfold drawPulse. cbv zeta. apply blind_andThen, blind_beginPath.
  - destruct (pointsToRender s) as [|p0 pts]; [simpl in Hp; lia|].
    unfold drawParticle, for_. cbv zeta.
    rewrite Nat.sub_0_r. cbn [length for_loop Nat.leb at_index nth_error].
    apply blind_andThen, blind_andThen, blind_beginPath.
Qed.

Lemma save_then_restores (d : @Draw num) c :
  restores (state c) (saved c) d ->
  exists c' out,
    (save ;; d) c = Ok (c', out)
    /\ state c' = state c /\ saved c' = saved c.
Proof.
  intros Hr.
  destruct (Hr {| state := state c; saved := state c :: saved c;
                  path := path c |} eq_refl) as (c' & out & E & Hs & Hv).
  exists c', out. unfold andThen, save. rewrite E. auto.
Qed.

(** Between its [save()] and its [restore()], [drawBrush] ends normally and
    gives the context back with the drawing state and the stack of saved
    states it had. *)
Lemma drawBrush_body_ok now s c :
  2 <= length (points s) ->
  exists c' out,
    drawBrush_body now s c = Ok (c', out)
    /\ state c' = state c /\ saved c' = saved c.
Proof.
  intros H. unfold drawBrush_body. apply save_then_restores.
  do 4 (apply restores_andThen; [apply wb_assign|]).
  apply restores_andThen; [apply (wb_style now s H)|].
  apply restores_restore.
Qed.

Lemma drawBrush_body_blind now s :
  2 <= length (points s) -> path_blind (drawBrush_body now s).
Proof.
  intros H. unfold drawBrush_body.
  apply passive_then_blind; [apply passive_save|].
  do 4 (apply passive_then_blind; [apply passive_assign|]).
  apply blind_andThen. apply (blind_style now s H).
Qed.

Lemma drawBrush_draws now s c :
  2 <= length (points s) ->
  drawBrush now s (Some c) =
  match drawBrush_body now s c with
  | Ok (c', out) => Ok (Some c', out)
  | TypeError => TypeError
  | OutOfFuel => OutOfFuel
  end.
Proof.
  intros H. unfold drawBrush.
  destruct (length (points s) <? 2) eqn:E; [|reflexivity].
  apply Nat.ltb_lt in E. lia.
Qed.

Lemma drawBrush_skips now s c :
  length (points s) < 2 -> drawBrush now s (Some c) = Ok (Some c, []).
Proof.
  intros H. unfold drawBrush. apply Nat.ltb_lt in H. now rewrite H.
Qed.

Lemma wb_drawBrush_ctx now s : well_behaved (drawBrush_ctx now s).
Proof.
  intros c. unfold drawBrush_ctx.
  destruct (Nat.lt_ge_cases (length (points s)) 2) as [Hlt|Hge].
  - rewrite drawBrush_skips by assumption. now exists c, [].
  - rewrite drawBrush_draws by assumption.
    destruct (drawBrush_body_ok now s c Hge) as (c' & out & E & _ & Hv).
    rewrite E. now exists c', out.
Qed.

Lemma wb_drawGhost s : well_behaved (drawGhost s).
Proof.
  unfold drawGhost.
  destruct (length (points s) <? 2) eqn:E; [apply wb_skip|].
  apply Nat.ltb_ge in E. intros c.
  match goal with
  | |- context [(save ;; ?d) c] =>
      destruct (save_then_restores d c) as (c' & out & E' & _ & Hv)
  end.
  { repeat (apply restores_andThen; [well_behaved_tac|]).
    apply restores_restore. }
  now exists c', out.
Qed.

Lemma wb_frame clock w h (st : @LightPainter num) :
  well_behaved (frame clock w h st).
Proof.
  unfold frame. apply wb_andThen; [apply wb_clearRect|].
  destruct (tempStroke st) as [ts|].
  - apply wb_andThen; [|apply wb_drawBrush_ctx].
    apply wb_if; [|apply wb_skip].
    apply wb_andThen; [apply wb_assign|].
    apply wb_andThen; [|apply wb_assign].
    apply wb_forEach_from. intros a j. apply wb_drawGhost.
  - apply wb_forEach_from. intros a j. apply wb_drawBrush_ctx.
Qed.

Lemma animate_total now clock w h (st : @LightPainter num) :
  exists st', animate now clock w h st = Ok st'.
Proof.
  unfold animate. destruct (ctx st) as [c|]; [|now exists st].
  destruct (negb (canvasRef st)); [now exists st|].
  destruct (ltb _ _); [now exists st|].
  destruct (wb_frame clock w h st c) as (c' & out & E & _).
  rewrite E. now eexists.
Qed.

End BrushFacts.

Section RendererProperties.

Context {num : Type} {NumOps : JsNumber num} {MathOps : JsMath num}.
Implicit Types (s : @Stroke num) (c : @Context2D num) (now : num).

(** C7: the first and the last point of a stroke are the first and the
    last point of its storage-simplified sequence (every N-th point on
    commit) and of its render-time sequence (every 2nd point when there are
    more than 200); a frame, which computes the render-time sequence of
    every stroke it draws, ends normally and leaves the committed strokes,
    the redo buffer and the stroke in progress as they were. *)
Theorem simplification_keeps_endpoints :
  (forall s,
      hd_error (points (optimizedStroke s)) = hd_error (points s)
      /\ Array_last (points (optimizedStroke s)) = Array_last (points s))
  /\ (forall s,
      hd_error (pointsToRender s) = hd_error (points s)
      /\ Array_last (pointsToRender s) = Array_last (points s))
  /\ (forall s,
      pointsToRender s =
      if 200 <? length (points s)
      then Array_filter
             (fun _ i => (i mod 2 =? 0) || (i =? length (points s) - 1))
             (points s)
      else points s)
  /\ (forall now clock w h (st : @LightPainter num),
      exists st',
        animate now clock w h st = Ok st'
        /\ strokes st' = strokes st
        /\ redoStack st' = redoStack st
        /\ tempStroke st' = tempStroke st).
Proof.
  split; [intros s; split;
          [apply optimizedStroke_head|apply optimizedStroke_last]|].
  split; [intros s; split;
          [apply pointsToRender_head|apply pointsToRender_last]|].
  split; [reflexivity|].
  intros now clock w h st.
  destruct (animate_total now clock w h st) as (st' & E).
  exists st'. split; [exact E|].
  destruct (animate_keeps_model _ _ _ _ _ _ E) as (A & B & C & _).
  auto.
Qed.

(** C9 (as amended): [drawBrush] takes no time; the ripple and the pulse
    branch read the clock themselves.  For a stroke of at least 2 points and
    a clock reading [now], the call ends normally and leaves the drawing
    state and the stack of saved states as they were; run again on the
    context it returns, with the same clock reading, it paints the same
    and returns the same context.  The reading matters only through the
    oscillation factor of the ripple or of the pulse brush; the particle
    brush paints the same at every reading. *)
Theorem drawBrush_repeatable now s c :
  2 <= length (points s) ->
  exists c' out,
    drawBrush now s (Some c) = Ok (Some c', out)
    /\ state c' = state c
    /\ saved c' = saved c
    /\ drawBrush now s (Some c') = Ok (Some c', out)
    /\ (forall now',
           brush s = particle
           \/ (brush s = ripple /\ rippleScaleAt now' = rippleScaleAt now)
           \/ (brush s = pulse /\ pulseScaleAt now' = pulseScaleAt now) ->
           drawBrush now' s (Some c) = Ok (Some c', out)).
Proof.
  intros H.
  destruct (drawBrush_body_ok now s c H) as (c' & out & E & Hs & Hv).
  exists c', out.
  assert (E1 : drawBrush now s (Some c) = Ok (Some c', out))
    by (rewrite drawBrush_draws, E; auto).
  split; [exact E1|]. split; [exact Hs|]. split; [exact Hv|].
  split.
  - rewrite drawBrush_draws by assumption.
    rewrite (drawBrush_body_blind now s H c' c); [now rewrite E|].
    now split.
  - intros now' Hb. rewrite <- E1.
    rewrite !drawBrush_draws by assumption.
    unfold drawBrush_body.
    destruct Hb as [Hb|[[Hb Hsc]|[Hb Hsc]]]; rewrite Hb.
    + reflexivity.
    + unfold drawRipple. now rewrite Hsc.
    + unfold drawPulse. now rewrite Hsc.
Qed.

(** C10: without a context, or on a stroke of fewer than 2 points,
    [drawBrush] returns at once: the context is untouched and nothing is
    painted.  In every case it ends normally, so no point is read out of
    range; when it draws, the render list has at least 2 points and its
    first and last entries are the stroke's first and last points. *)
Theorem drawBrush_guard :
  (forall now s, drawBrush now s None = Ok (None, []))
  /\ (forall now s c,
      length (points s) < 2 -> drawBrush now s (Some c) = Ok (Some c, []))
  /\ (forall now s context, exists r, drawBrush now s context = Ok r)
  /\ (forall s,
      2 <= length (points s) ->
      2 <= length (pointsToRender s)
      /\ nth_error (pointsToRender s) 0 = hd_error (points s)
      /\ nth_error (pointsToRender s) (length (pointsToRender s) - 1)
         = Array_last (points s)
      /\ hd_error (points s) <> None
      /\ Array_last (points s) <> None).
Proof.
  split; [reflexivity|].
  split; [intros now s c; apply drawBrush_skips|].
  split.
  { intros now s [c|]; [|now eexists].
    destruct (Nat.lt_ge_cases (length (points s)) 2) as [Hlt|Hge].
    - rewrite drawBrush_skips by assumption. now eexists.
    - rewrite drawBrush_draws by assumption.
      destruct (drawBrush_body_ok now s c Hge) as (c' & out & E & _).
      rewrite E. now eexists. }
  intros s H. split; [now apply pointsToRender_two|].
  split.
  { rewrite <- pointsToRender_head. now destruct (pointsToRender s). }
  split; [apply pointsToRender_last|].
  split.
  - destruct (points s); [simpl in H; lia|discriminate].
  - destruct (Array_last_some (points s)) as (a & ->); [|discriminate].
    destruct (points s); [simpl in H; lia|discriminate].
Qed.

End RendererProperties.

Lemma drawBrush_repeatable_witness :
  2 <= length (points (sampleStroke (num:=R) pulse 3))
  /\ exists c' out,
       drawBrush (num:=R) 1000%R (sampleStroke pulse 3) (Some freshContext)
       = Ok (Some c', out)
       /\ drawBrush (num:=R) 1000%R (sampleStroke pulse 3) (Some c')
          = Ok (Some c', out).
Proof.
  assert (H : 2 <= length (points (sampleStroke (num:=R) pulse 3)))
    by (simpl; lia).
  split; [exact H|].
  destruct (drawBrush_repeatable (num:=R) 1000%R (sampleStroke pulse 3)
              freshContext H) as (c' & out & E1 & _ & _ & E2 & _).
  exists c', out. exact (conj E1 E2).
Defined.

Lemma drawBrush_guard_witness :
  length (points (sampleStroke (num:=R) particle 1)) < 2
  /\ drawBrush (num:=R) 1000%R (sampleStroke particle 1) (Some freshContext)
     = Ok (Some freshContext, [])
  /\ 2 <= length (points (sampleStroke (num:=R) particle 300))
  /\ 2 <= length (pointsToRender (sampleStroke (num:=R) particle 300)).
Proof.
  assert (H1 : length (points (sampleStroke (num:=R) particle 1)) < 2)
    by (simpl; lia).
  assert (H2 : 2 <= length (points (sampleStroke (num:=R) particle 300))).
  { unfold sampleStroke. cbn [points]. rewrite length_map, length_seq. lia. }
  destruct (drawBrush_guard (num:=R)) as (_ & Hskip & _ & Hidx).
  exact (conj H1 (conj (Hskip 1000%R _ freshContext H1)
                   (conj H2 (proj1 (Hidx _ H2))))).
Defined.

Lemma rippleScaleAt_0 : rippleScaleAt (num:=R) 0%R = 0.8%R.
Proof.
  unfold rippleScaleAt. cbn [lit add mul R_JsNumber Math_sin R_JsMath].
  replace (0 * Q2R 0.001 * Q2R 2)%R with 0%R by lra.
  rewrite sin_0. unfold Q2R; simpl. lra.
Qed.

Lemma rippleScaleAt_quarter_turn : rippleScaleAt (num:=R) (250 * PI)%R = 1%R.
Proof.
  unfold rippleScaleAt. cbn [lit add mul R_JsNumber Math_sin R_JsMath].
  replace (250 * PI * Q2R 0.001 * Q2R 2)%R with (PI / 2)%R
    by (unfold Q2R; simpl; lra).
  rewrite sin_PI2. unfold Q2R; simpl. lra.
Qed.

(** C9 (as stated) fails: [drawBrush] has no time parameter, and what it
    paints depends on the clock it reads.  The same two-point ripple stroke
    on the same fresh context is stroked 24 wide when [performance.now()]
    returns 0 and 30 wide when it returns 250 * pi. *)
Lemma drawBrush_reads_the_clock :
  exists c1 out1 c2 out2,
    drawBrush (num:=R) 0%R (sampleStroke ripple 2) (Some freshContext)
      = Ok (Some c1, out1)
    /\ drawBrush (num:=R) (250 * PI)%R (sampleStroke ripple 2)
         (Some freshContext)
      = Ok (Some c2, out2)
    /\ strokedWidths out1 = [24%R]
    /\ strokedWidths out2 = [30%R]
    /\ out1 <> out2.
Proof.
  assert (W1 : (Q2R 30 * Q2R 1 * rippleScaleAt (num:=R) 0 = 24)%R)
    by (rewrite rippleScaleAt_0; unfold Q2R; simpl; lra).
  assert (W2 : (Q2R 30 * Q2R 1 * rippleScaleAt (num:=R) (250 * PI) = 30)%R)
    by (rewrite rippleScaleAt_quarter_turn; unfold Q2R; simpl; lra).
  eexists _, _, _, _.
  split.
  { cbv - [Rplus Rmult Rminus sin cos PI Q2R IZR rippleScaleAt]. reflexivity. }
  split.
  { cbv - [Rplus Rmult Rminus sin cos PI Q2R IZR rippleScaleAt]. reflexivity. }
  assert (E1 : forall p s0,
             strokedWidths (num:=R) [Stroked p s0] = [lineWidth s0])
    by reflexivity.
  rewrite !E1. cbn [lineWidth].
  split; [f_equal; exact W1|]. split; [f_equal; exact W2|].
  intros Heq. apply (f_equal (strokedWidths (num:=R))) in Heq.
  rewrite !E1 in Heq. cbn [lineWidth] in Heq. injection Heq as Heq.
  assert (Habs : 24%R = 30%R) by (rewrite <- W1, <- W2; exact Heq).
  lra.
Qed.

(** * Further properties *)

(** ** History as a timeline *)

Section TimelineFacts.

Context {num : Type} {NumOps : JsNumber num} {MathOps : JsMath num}.
Implicit Types (st : @LightPainter num) (ev : @Event num).

Lemma handleUndo_timeline st : timeline (handleUndo false st) = timeline st.
Proof.
  unfold handleUndo.
  destruct (Array_pop_cases (strokes st)) as [[_ E]|(r & a & El & E)];
    rewrite E; [reflexivity|].
  unfold timeline; simpl. rewrite El, rev_app_distr; simpl.
  now rewrite <- app_assoc.
Qed.

Lemma handleRedo_timeline st : timeline (handleRedo false st) = timeline st.
Proof.
  unfold handleRedo.
  destruct (Array_pop_cases (redoStack st)) as [[_ E]|(r & a & El & E)];
    rewrite E; [reflexivity|].
  unfold timeline; simpl. rewrite El, rev_app_distr; simpl.
  now rewrite <- app_assoc.
Qed.

Lemma handleUndo_length b st :
  length (strokes (handleUndo b st)) = length (strokes st) - 1.
Proof.
  unfold handleUndo.
  destruct (Array_pop_cases (strokes st)) as [[El E]|(r & a & El & E)];
    rewrite E; [now rewrite El|].
  simpl. rewrite El, length_app; simpl. lia.
Qed.

Lemma iter_undo_length b k st :
  length (strokes (Nat.iter k (handleUndo b) st)) = length (strokes st) - k.
Proof.
  induction k as [|k IH]; simpl; [lia|].
  rewrite handleUndo_length, IH. lia.
Qed.

Lemma handleUndo_members b st s :
  In s (timeline (handleUndo b st)) <-> In s (timeline st).
Proof.
  unfold handleUndo.
  destruct (Array_pop_cases (strokes st)) as [[_ E]|(r & a & El & E)];
    rewrite E; [reflexivity|].
  unfold timeline. rewrite El.
  destruct b; simpl; rewrite !in_app_iff, <- !in_rev, !in_app_iff; simpl;
    tauto.
Qed.

Lemma handleRedo_members b st s :
  In s (timeline (handleRedo b st)) <-> In s (timeline st).
Proof.
  unfold handleRedo.
  destruct (Array_pop_cases (redoStack st)) as [[_ E]|(r & a & El & E)];
    rewrite E; [reflexivity|].
  unfold timeline. rewrite El.
  destruct b; simpl; rewrite !in_app_iff, <- !in_rev, !in_app_iff; simpl;
    tauto.
Qed.

(** With every updater run once, undo and redo only move the boundary
    between the committed strokes and the undone ones: the strokes in
    drawing order stay the same under any mix of the two; redo followed by
    undo gives back the component when there was something to redo; and [k]
    undos followed by [k] redos give it back when at least [k] strokes were
    committed.  Under StrictMode each undo or redo that has a stroke to move
    leaves two copies of it, next to each other in the drawing order, and
    the rest of the order as it was; in either mode no stroke leaves the
    history and none enters it. *)
Theorem undo_redo_keep_timeline :
  (forall evs st,
      Forall (fun ev => ev = Undo false \/ ev = Redo false) evs ->
      timeline (run evs st) = timeline st
      /\ length (strokes (run evs st)) + length (redoStack (run evs st))
         = length (strokes st) + length (redoStack st))
  /\ (forall st,
      redoStack st <> [] -> handleUndo false (handleRedo false st) = st)
  /\ (forall k st,
      k <= length (strokes st) ->
      Nat.iter k (handleRedo false) (Nat.iter k (handleUndo false) st) = st)
  /\ (forall st l s,
      strokes st = l ++ [s] ->
      timeline st = l ++ [s] ++ rev (redoStack st)
      /\ timeline (handleUndo true st) = l ++ [s; s] ++ rev (redoStack st))
  /\ (forall st r s,
      redoStack st = r ++ [s] ->
      timeline st = strokes st ++ [s] ++ rev r
      /\ timeline (handleRedo true st) = strokes st ++ [s; s] ++ rev r)
  /\ (forall evs st s,
      Forall (fun ev => exists b, ev = Undo b \/ ev = Redo b) evs ->
      In s (timeline (run evs st)) <-> In s (timeline st)).
Proof.
  split; [|split; [|split; [|split; [|split]]]].
  - assert (Hlen : forall st, length (timeline st)
                   = length (strokes st) + length (redoStack st)).
    { intros st. unfold timeline. now rewrite length_app, length_rev. }
    intros evs st Hevs.
    assert (Ht : timeline (run evs st) = timeline st).
    { revert st. unfold run.
      induction Hevs as [|ev evs [->| ->] _ IH]; intros st; simpl;
        [reflexivity| |]; rewrite IH.
      - apply handleUndo_timeline.
      - apply handleRedo_timeline. }
    split; [exact Ht|]. now rewrite <- !Hlen, Ht.
  - intros st Hne. destruct (exists_last Hne) as (r & s & Hr).
    rewrite (handleRedo_snoc false st r s Hr).
    rewrite (handleUndo_snoc false _ (strokes st) s) by reflexivity.
    simpl. rewrite <- Hr. unfold setHistory; simpl. now destruct st.
  - induction k as [|k IH]; intros st Hk; [reflexivity|].
    rewrite Nat.iter_succ_r.
    change (Nat.iter (S k) (handleUndo false) st)
      with (handleUndo false (Nat.iter k (handleUndo false) st)).
    rewrite redo_undo; [apply IH; lia|].
    intros E. pose proof (iter_undo_length false k st) as Hl.
    rewrite E in Hl. simpl in Hl. lia.
  - intros st l s Hl. split.
    + unfold timeline. now rewrite Hl, <- app_assoc.
    + rewrite (handleUndo_snoc true st l s Hl). unfold timeline; simpl.
      now rewrite !rev_app_distr.
  - intros st r s Hr. split.
    + unfold timeline. now rewrite Hr, rev_app_distr.
    + rewrite (handleRedo_snoc true st r s Hr). unfold timeline; simpl.
      now rewrite <- !app_assoc.
  - intros evs st s Hevs. revert st. unfold run.
    induction Hevs as [|ev evs (b & [->| ->]) _ IH]; intros st; simpl;
      [reflexivity| |]; rewrite IH.
    + apply handleUndo_members.
    + apply handleRedo_members.
Qed.

(** ** Clearing *)

Lemma handleClear_session w h st :
  lastPointRef (handleClear w h st) = lastPointRef st
  /\ canvasRef (handleClear w h st) = canvasRef st
  /\ lastMoveTimeRef (handleClear w h st) = lastMoveTimeRef st.
Proof.
  unfold handleClear.
  destruct (match ctx st with Some _ => _ | None => _ end) as [context out].
  simpl. tauto.
Qed.

(** A clear cannot be undone: it empties the committed list and the redo
    buffer, so undo and redo do nothing after it.  It does not end a session:
    the stroke being drawn stays, and pointer up then commits it as the only
    stroke.  On the canvas it paints one translucent rectangle and leaves
    the drawing state and the stack of saved states as they were. *)
Theorem clear_cannot_be_undone w h st :
  timeline (handleClear w h st) = []
  /\ (forall b, handleUndo b (handleClear w h st) = handleClear w h st)
  /\ (forall b, handleRedo b (handleClear w h st) = handleClear w h st)
  /\ tempStroke (handleClear w h st) = tempStroke st
  /\ isDrawing (handleClear w h st) = isDrawing st
  /\ (forall ts,
         tempStroke st = Some ts -> isDrawing st = true ->
         2 <= length (points ts) ->
         strokes (handlePointerUp (handleClear w h st)) = [optimizedStroke ts])
  /\ (forall c,
         ctx st = Some c -> canvasRef st = true ->
         exists c',
           ctx (handleClear w h st) = Some c'
           /\ state c' = state c /\ saved c' = saved c
           /\ surface (handleClear w h st) =
              surface st ++
              [FillRect (lit 0) (lit 0) w h
                 (set_fillStyle
                    (css (if darkMode st then "rgba(255, 255, 255, 0.2)"
                          else "rgba(0, 0, 0, 0.1)"))
                    (state c))])
  /\ (ctx st = None \/ canvasRef st = false ->
      surface (handleClear w h st) = surface st
      /\ ctx (handleClear w h st) = ctx st).
Proof.
  destruct (handleClear_model w h st) as (Hs & Hr & Ht & Hd & _).
  split; [unfold timeline; now rewrite Hs, Hr|].
  split; [intros b; now apply handleUndo_empty|].
  split; [intros b; now apply handleRedo_empty|].
  split; [exact Ht|]. split; [exact Hd|].
  split.
  { intros ts Hts Hdr Hlen.
    destruct (handlePointerUp_active (handleClear w h st) ts) as (E & _).
    - now rewrite Ht.
    - now rewrite Hd.
    - rewrite E, Hs.
      destruct (1 <? length (points ts)) eqn:E1; [reflexivity|].
      apply Nat.ltb_ge in E1. lia. }
  split.
  - intros c Hc Hm. unfold handleClear. rewrite Hc, Hm.
    unfold andThen, save, assign, fillRect, restore. simpl.
    eexists. repeat split.
  - intros [Hc|Hm]; unfold handleClear.
    + rewrite Hc. simpl. now rewrite app_nil_r.
    + rewrite Hm. destruct (ctx st); simpl; now rewrite app_nil_r.
Qed.

(** ** The session flags *)

Lemma animate_keeps_canvasRef now clock w h st st' :
  animate now clock w h st = Ok st' -> canvasRef st' = canvasRef st.
Proof.
  unfold animate. intros H.
  destruct (ctx st) as [c|]; [|now injection H as <-].
  destruct (negb (canvasRef st)); [now injection H as <-|].
  destruct (ltb _ _); [now injection H as <-|].
  destruct (frame clock w h st c) as [[c' out]| |]; try discriminate.
  now injection H as <-.
Qed.

Lemma smoothInput_sets_reference (r : option (@Point num)) p q :
  fst (smoothInput r p q) <> None.
Proof. destruct r; discriminate. Qed.

(** In every state the component can reach, the session flags agree: when
    no stroke is being drawn there is no stroke in progress and the smoother
    has no reference; when one is being drawn the canvas is mounted, the
    smoother has a reference and the stroke in progress has at least one
    point. *)
Theorem session_flags_agree (c : string) (evs : list (@Event num)) :
  (isDrawing (run evs (initialState c)) = false ->
   tempStroke (run evs (initialState c)) = None
   /\ lastPointRef (run evs (initialState c)) = None)
  /\ (isDrawing (run evs (initialState c)) = true ->
      canvasRef (run evs (initialState c)) = true
      /\ lastPointRef (run evs (initialState c)) <> None
      /\ exists ts,
           tempStroke (run evs (initialState c)) = Some ts
           /\ points ts <> []).
Proof.
  apply (run_invariant
           (fun st =>
              (isDrawing st = false ->
               tempStroke st = None /\ lastPointRef st = None)
              /\ (isDrawing st = true ->
                  canvasRef st = true /\ lastPointRef st <> None
                  /\ exists ts, tempStroke st = Some ts /\ points ts <> [])));
    [|split; [now split|discriminate]].
  clear. intros ev st [Hi Ha].
  destruct ev as [|context|e now|e now| | |sm|sm|w h|now clock w h|a b c d|now];
    simpl.
  - split; [exact Hi|]. intros Hd. destruct (Ha Hd) as (_ & H). now split.
  - unfold initCanvas. destruct (negb (canvasRef st)); [now split|].
    destruct context; [simpl|]; now split.
  - unfold handlePointerDown.
    destruct (negb (canvasRef st)) eqn:Hc; [now split|]. simpl.
    split; [discriminate|]. intros _.
    split; [now destruct (canvasRef st)|].
    split; [discriminate|]. eexists. split; [reflexivity|discriminate].
  - unfold handlePointerMove.
    destruct (tempStroke st) as [ts|] eqn:Ht; [|rewrite <- Ht in *; now split].
    destruct (isDrawing st) eqn:Hd; simpl;
      [|rewrite <- Ht, <- Hd in *; now split].
    destruct (Ha eq_refl) as (Hc & _). rewrite Hc. simpl.
    destruct (_ <? _)%Z; [rewrite <- Ht, <- Hd in *; now split|].
    match goal with
    | |- context [smoothInput ?r ?p ?q] =>
        pose proof (smoothInput_sets_reference r p q) as Hsm;
        destruct (smoothInput r p q) as [lp sm]
    end.
    simpl in *. split; [discriminate|]. intros _.
    split; [reflexivity|]. split; [exact Hsm|].
    eexists. split; [reflexivity|]. now destruct (points ts).
  - unfold handlePointerUp.
    destruct (tempStroke st) as [ts|] eqn:Ht; [|rewrite <- Ht in *; now split].
    destruct (isDrawing st) eqn:Hd; simpl;
      [|rewrite <- Ht, <- Hd in *; now split].
    split; [now split|discriminate].
  - unfold handlePointerUp.
    destruct (tempStroke st) as [ts|] eqn:Ht; [|rewrite <- Ht in *; now split].
    destruct (isDrawing st) eqn:Hd; simpl;
      [|rewrite <- Ht, <- Hd in *; now split].
    split; [now split|discriminate].
  - unfold handleUndo. destruct (Array_pop (strokes st)) as [l [s|]];
      simpl; now split.
  - unfold handleRedo. destruct (Array_pop (redoStack st)) as [l [s|]];
      simpl; now split.
  - destruct (handleClear_model w h st) as (_ & _ & Ht & Hd & _).
    destruct (handleClear_session w h st) as (Hl & Hc & _).
    rewrite Ht, Hd, Hl, Hc. now split.
  - destruct (animate now clock w h st) as [st'| |] eqn:E; try now split.
    destruct (animate_keeps_model _ _ _ _ _ _ E) as (_ & _ & Ht & Hd & _ & Hl).
    rewrite (animate_keeps_canvasRef _ _ _ _ _ _ E), Ht, Hd, Hl. now split.
  - now split.
  - now split.
Qed.

End TimelineFacts.

(** ** The rate limit *)

Section RateLimitFacts.

Context {num : Type} {NumOps : JsNumber num}.
Implicit Types (st : @LightPainter num) (ts : @Stroke num).

Lemma spaced_snoc (gap t0 t : Z) (times : list Z) :
  (0 <= gap)%Z ->
  spaced gap times -> Forall (fun a => (a <= t0)%Z) times ->
  (gap <= t - t0)%Z ->
  spaced gap (times ++ [t]) /\ Forall (fun a => (a <= t)%Z) (times ++ [t]).
Proof.
  intros Hg Hs Hb Ht. split.
  - induction Hs as [|a l Ha Hl IH]; simpl.
    + constructor; constructor.
    + inversion Hb as [|? ? Ha0 Hl0]; subst.
      constructor; [|now apply IH].
      apply Forall_app. split; [exact Ha|].
      constructor; [lia|constructor].
  - apply Forall_app. split.
    + eapply Forall_impl; [|exact Hb]. simpl. intros a Ha. lia.
    + constructor; [lia|constructor].
Qed.

Lemma spaced_filter_from {A : Type} (gap : Z) (g : A -> Z)
  (f : A -> nat -> bool) (i : nat) (l : list A) :
  spaced gap (map g l) -> spaced gap (map g (filter_from f i l)).
Proof.
  unfold spaced.
  revert i. induction l as [|a l IH]; intros i Hs; simpl; [exact Hs|].
  inversion Hs as [|? ? Ha Hl]; subst.
  assert (Hin : Forall (fun b => (gap <= b - g a)%Z)
                  (map g (filter_from f (S i) l))).
  { clear - Ha. revert i. induction l as [|b l IHl]; intros i; simpl;
      [constructor|].
    inversion Ha; subst. destruct (f b (S i)); simpl; auto. }
  destruct (f a i); simpl; [constructor; [exact Hin|]|]; apply IH; exact Hl.
Qed.

Lemma optimizedStroke_tail_spaced (gap : Z) ts :
  spaced gap (map timestamp (tl (points ts))) ->
  spaced gap (map timestamp (tl (points (optimizedStroke ts)))).
Proof.
  intros Hs.
  destruct (Nat.le_gt_cases (length (points ts)) 500) as [Hle|Hgt].
  - now rewrite optimizedStroke_short.
  - rewrite optimizedStroke_long by assumption. simpl.
    destruct (points ts) as [|p0 rest]; [constructor|].
    unfold Array_filter. simpl filter_from.
    rewrite Nat.Div0.mod_0_l. simpl.
    now apply spaced_filter_from.
Qed.

(** What holds of a session between pointer down and pointer up. *)
Lemma session_spacing (moves : list (@PointerEvent num * Z)) st ts :
  tempStroke st = Some ts ->
  (16 <= moveThrottleRef st)%Z ->
  spaced 16 (map timestamp (tl (points ts))) ->
  Forall (fun a => (a <= lastMoveTimeRef st)%Z)
    (map timestamp (tl (points ts))) ->
  points ts <> [] ->
  exists ts',
    tempStroke
      (fold_left (fun acc m => handlePointerMove (fst m) (snd m) acc) moves st)
    = Some ts'
    /\ spaced 16 (map timestamp (tl (points ts'))).
Proof.
  revert st ts. induction moves as [|[e now] moves IH];
    intros st ts Ht Hthr Hsp Hb Hne; simpl; [now exists ts|].
  unfold handlePointerMove at 2. rewrite Ht.
  destruct (negb (isDrawing st) || negb (canvasRef st));
    [now apply (IH st ts)|].
  destruct (now - lastMoveTimeRef st <? moveThrottleRef st)%Z eqn:Hacc;
    [now apply (IH st ts)|].
  apply Z.ltb_ge in Hacc.
  destruct (smoothInput _ _ _) as [lp sm].
  match goal with
  | |- context [fold_left _ moves ?s1] =>
      destruct (spaced_snoc 16 (lastMoveTimeRef st) now
                  (map timestamp (tl (points ts)))) as [Hs' Hb'];
        [lia|exact Hsp|exact Hb|lia|];
      eapply (IH s1); [reflexivity| | | |]
  end; simpl.
  - destruct (underLoad ts now); lia.
  - destruct (points ts) as [|p0 rest]; [contradiction|].
    simpl in *. now rewrite map_app.
  - destruct (points ts) as [|p0 rest]; [contradiction|].
    simpl in *. now rewrite map_app.
  - now destruct (points ts).
Qed.

(** The rate limit is what the strokes show: in a session started on the
    mounted canvas with the sampling interval at 16 or more, the points
    sampled by pointer moves are at least 16ms apart, whatever the clock
    readings of the moves, and so are those of the stroke that pointer up
    commits, simplified or not. *)
Theorem samples_at_least_16ms_apart st e now
  (moves : list (@PointerEvent num * Z)) :
  canvasRef st = true ->
  (16 <= moveThrottleRef st)%Z ->
  (exists ts,
      tempStroke (sessionAfter e now moves st) = Some ts
      /\ spaced 16 (map timestamp (tl (points ts))))
  /\ (forall s,
      strokes (captureStroke e now moves st) = strokes st ++ [s] ->
      spaced 16 (map timestamp (tl (points s)))).
Proof.
  intros Hc Hthr.
  assert (H : exists ts,
             tempStroke (sessionAfter e now moves st) = Some ts
             /\ spaced 16 (map timestamp (tl (points ts)))).
  { unfold sessionAfter.
    eapply (session_spacing moves (handlePointerDown e now st)).
    - unfold handlePointerDown. rewrite Hc. reflexivity.
    - unfold handlePointerDown. now rewrite Hc.
    - constructor.
    - constructor.
    - discriminate. }
  split; [exact H|].
  destruct H as (ts & Ht & Hsp). intros s Hs.
  change (captureStroke e now moves st)
    with (handlePointerUp (sessionAfter e now moves st)) in Hs.
  destruct (handlePointerDown_mounted e now st Hc) as (A & _ & C & _).
  destruct (moves_history moves (handlePointerDown e now st))
    as (A' & _ & C' & _).
  fold (sessionAfter e now moves st) in A', C'.
  destruct (handlePointerUp_active _ ts Ht) as (E & _);
    [now rewrite C', C|].
  rewrite E, A', A in Hs.
  destruct (1 <? length (points ts)).
  - apply app_inj_tail in Hs as [_ <-].
    now apply optimizedStroke_tail_spaced.
  - apply (f_equal (@length _)) in Hs. rewrite length_app in Hs.
    simpl in Hs. lia.
Qed.

Lemma session_keeps_all (moves : list (@PointerEvent num * Z)) st ts :
  tempStroke st = Some ts -> isDrawing st = true -> canvasRef st = true ->
  (16 <= moveThrottleRef st <= 32)%Z ->
  each_after 32 (lastMoveTimeRef st) (map snd moves) ->
  exists ts',
    tempStroke
      (fold_left (fun acc m => handlePointerMove (fst m) (snd m) acc) moves st)
    = Some ts'
    /\ map timestamp (points ts') =
       map timestamp (points ts) ++ map snd moves.
Proof.
  revert st ts. induction moves as [|[e now] moves IH];
    intros st ts Ht Hd Hc Hthr Hea; simpl.
  - exists ts. now rewrite app_nil_r.
  - simpl in Hea. destruct Hea as [Hgap Hea].
    destruct (handlePointerMove_accepted e now st ts Ht Hd Hc)
      as (_ & Hlast & p & Ht' & Hp); [lia|].
    destruct (handlePointerMove_history e now st) as (_ & _ & Hd' & Hc' & _).
    pose proof (handlePointerMove_throttle e now st Hthr) as Hthr'.
    destruct (IH _ _ Ht') as (ts' & E & Hm);
      [congruence|congruence|exact Hthr'|now rewrite Hlast|].
    exists ts'. split; [exact E|].
    rewrite Hm. simpl. rewrite map_app, <- app_assoc. simpl. now rewrite Hp.
Qed.

(** No sample is lost when the moves come slowly enough: if the sampling
    interval is between 16 and 32 and every pointer move comes at least
    32ms after the previous accepted one, the stroke in progress has one
    point for pointer down and one for each move, stamped with the clock
    readings in order. *)
Theorem slow_moves_are_all_sampled st e now
  (moves : list (@PointerEvent num * Z)) :
  canvasRef st = true ->
  (16 <= moveThrottleRef st <= 32)%Z ->
  each_after 32 (lastMoveTimeRef st) (map snd moves) ->
  exists ts,
    tempStroke (sessionAfter e now moves st) = Some ts
    /\ map timestamp (points ts) = now :: map snd moves
    /\ length (points ts) = S (length moves).
Proof.
  intros Hc Hthr Hea. unfold sessionAfter.
  destruct (handlePointerDown_mounted e now st Hc) as (_ & _ & Hd & _).
  destruct (session_keeps_all moves (handlePointerDown e now st)
              {| points := [ {| x := sub (clientX e) (rect_left e);
                                y := sub (clientY e) (rect_top e);
                                pressure := eventPressure e;
                                timestamp := now |} ];
                 brush := brushStyle st; color := selectedColor st;
                 size := brushSize st |})
    as (ts & E & Hm).
  - unfold handlePointerDown. now rewrite Hc.
  - exact Hd.
  - unfold handlePointerDown. now rewrite Hc.
  - unfold handlePointerDown. now rewrite Hc.
  - unfold handlePointerDown. now rewrite Hc.
  - exists ts. split; [exact E|]. split; [exact Hm|].
    apply (f_equal (@length _)) in Hm.
    rewrite length_map in Hm. rewrite Hm. simpl. now rewrite length_map.
Qed.

(** ** How much the simplifiers keep *)

Lemma multiples_count_lower {A : Type} (n : nat) (l : list A) :
  0 < n ->
  length l <= length (filter_from (fun (_ : A) i => i mod n =? 0) 0 l) * n.
Proof.
  intros Hn. induction l as [|a l IH] using rev_ind; simpl; [lia|].
  rewrite filter_from_app, !length_app; simpl.
  pose proof (Nat.div_mod_eq (length l) n) as Hd.
  pose proof (Nat.mod_upper_bound (length l) n ltac:(lia)) as Hlt.
  destruct (length l mod n =? 0) eqn:Hm; simpl.
  - nia.
  - apply Nat.eqb_neq in Hm.
    set (q := length l / n) in *. set (c := length (filter_from _ 0 l)) in *.
    set (r := length l mod n) in *.
    assert (q < c) by nia. nia.
Qed.

(** The stored stroke is no coarser than the filter says: a stroke of more
    than 500 points is committed with exactly ceil((count - 1) / N) + 1
    points, N = ceil(count / 500), which is never fewer than 251 and never
    more than 501. *)
Theorem storage_simplification_count ts :
  500 < length (points ts) ->
  length (points (optimizedStroke ts)) =
    S ((length (points ts) + simplificationFactor ts - 2)
       / simplificationFactor ts)
  /\ 251 <= length (points (optimizedStroke ts)) <= 501.
Proof.
  intros H. rewrite optimizedStroke_long by assumption. simpl.
  pose proof (Math_ceil_div_500 (length (points ts))) as (Hup & _ & Hpos).
  destruct Hpos as [Hpos Hlow]; [lia|].
  unfold simplificationFactor.
  set (n := Math_ceil_div (length (points ts)) 500) in *. clearbody n.
  destruct (points ts) as [|b l] using rev_ind; [simpl in H; lia|].
  clear IHl.
  rewrite (keep_last_snoc (fun i => i mod n =? 0)).
  rewrite !length_app in *. cbn [length] in *.
  pose proof (multiples_count n l Hpos) as Hc.
  pose proof (multiples_count_lower n l Hpos) as Hc'.
  set (c := length (filter_from _ 0 l)) in *.
  assert (Hq : (length l + 1 + n - 2) / n = c).
  { symmetry.
    apply (Nat.div_unique _ n c (length l + 1 + n - 2 - n * c)); nia. }
  rewrite Hq. split; [lia|]. nia.
Qed.

End RateLimitFacts.

Section RenderCountFacts.

Context {num : Type} {NumOps : JsNumber num} {MathOps : JsMath num}.

(** The render list of a stroke of more than 200 points has exactly
    floor(count / 2) + 1 points (so more than half of them, and at least
    101); a stroke of up to 200 points is rendered from all its points. *)
Theorem render_simplification_count (s : @Stroke num) :
  (200 < length (points s) ->
   length (pointsToRender s) = length (points s) / 2 + 1)
  /\ (length (points s) <= 200 -> pointsToRender s = points s).
Proof.
  split; [|apply pointsToRender_short].
  intros H. rewrite pointsToRender_long by assumption.
  destruct (points s) as [|b l] using rev_ind; [simpl in H; lia|].
  clear IHl.
  rewrite (keep_last_snoc (fun i => i mod 2 =? 0)).
  rewrite !length_app in *. cbn [length] in *.
  pose proof (multiples_count 2 l ltac:(lia)) as Hc.
  pose proof (multiples_count_lower 2 l ltac:(lia)) as Hc'.
  set (c := length (filter_from _ 0 l)) in *.
  assert (Hq : (length l + 1) / 2 = c).
  { symmetry. apply (Nat.div_unique _ 2 c (length l + 1 - 2 * c)); lia. }
  lia.
Qed.

End RenderCountFacts.

(** ** What the loops of the renderer draw *)

Section LoopFacts.

Context {num : Type} {NumOps : JsNumber num}.
Implicit Types (d : @Draw num) (c : @Context2D num)
  (pts : list (@StrokePoint num)).

Local Notation "d1 ;; d2" := (andThen d1 d2)
  (at level 61, right associativity).

Lemma andThen_runs d1 d2 c c1 o1 c2 o2 :
  d1 c = Ok (c1, o1) -> d2 c1 = Ok (c2, o2) ->
  (d1 ;; d2) c = Ok (c2, o1 ++ o2).
Proof. intros E1 E2. unfold andThen. now rewrite E1, E2. Qed.

Lemma andThen_inv d1 d2 c c2 out :
  (d1 ;; d2) c = Ok (c2, out) ->
  exists c1 o1 o2,
    d1 c = Ok (c1, o1) /\ d2 c1 = Ok (c2, o2) /\ out = o1 ++ o2.
Proof.
  unfold andThen. intros H.
  destruct (d1 c) as [[c1 o1]| |]; try discriminate.
  destruct (d2 c1) as [[c2' o2]| |] eqn:E2; try discriminate.
  injection H as <- <-. now exists c1, o1, o2.
Qed.

Lemma for_loop_ext fuel i stop step (body body' : nat -> @Draw num) c :
  (forall j, i <= j -> body j = body' j) ->
  for_loop fuel i stop step body c = for_loop fuel i stop step body' c.
Proof.
  revert i c. induction fuel as [|fuel IH]; intros i c Hb; simpl;
    destruct (stop <=? i); try reflexivity.
  unfold andThen. rewrite (Hb i) by lia.
  destruct (body' i c) as [[c1 o1]| |]; try reflexivity.
  rewrite (IH (i + step) c1); [reflexivity|].
  intros j Hj. apply Hb. lia.
Qed.

Lemma lineSegments_cons pts j (l : list nat) p :
  nth_error pts j = Some p ->
  lineSegments pts (j :: l) = LineTo (x p) (y p) :: lineSegments pts l.
Proof. intros E. unfold lineSegments. simpl. now rewrite E. Qed.

Lemma lineSegments_shift (p0 : @StrokePoint num) pts (l : list nat) :
  lineSegments (p0 :: pts) (map S l) = lineSegments pts l.
Proof.
  unfold lineSegments. induction l as [|j l IH]; simpl; [reflexivity|].
  now rewrite IH.
Qed.

Lemma lineSegments_all pts :
  lineSegments pts (seq 0 (length pts)) =
  map (fun p => LineTo (x p) (y p)) pts.
Proof.
  induction pts as [|p0 pts IH]; [reflexivity|].
  simpl length. rewrite <- cons_seq, <- seq_shift.
  rewrite (lineSegments_cons _ 0 _ p0) by reflexivity.
  now rewrite lineSegments_shift, IH.
Qed.

Lemma polyline_segments (p0 : @StrokePoint num) pts :
  polyline (p0 :: pts) =
  MoveTo (x p0) (y p0) :: lineSegments (p0 :: pts) (seq 1 (length pts)).
Proof.
  simpl. f_equal. rewrite <- seq_shift, lineSegments_shift.
  symmetry. apply lineSegments_all.
Qed.

Lemma loop_indices_unit fuel i stop :
  stop - i <= fuel -> loop_indices fuel i stop 1 = seq i (stop - i).
Proof.
  revert i. induction fuel as [|fuel IH]; intros i Hf; simpl;
    destruct (stop <=? i) eqn:E.
  - apply Nat.leb_le in E. now replace (stop - i) with 0 by lia.
  - apply Nat.leb_gt in E. lia.
  - apply Nat.leb_le in E. now replace (stop - i) with 0 by lia.
  - apply Nat.leb_gt in E. rewrite IH by lia.
    replace (stop - i) with (S (stop - (i + 1))) by lia.
    simpl. now rewrite Nat.add_1_r.
Qed.

Lemma loop_indices_odd fuel a n :
  n - (2 * a + 1) <= fuel ->
  loop_indices fuel (2 * a + 1) n 2 =
  map (fun k => 2 * k + 1) (seq a (n / 2 - a)).
Proof.
  revert a. induction fuel as [|fuel IH]; intros a Hf; cbn [loop_indices];
    destruct (n <=? 2 * a + 1) eqn:E.
  - apply Nat.leb_le in E.
    assert (n / 2 <= a)
      by (pose proof (Nat.div_mod_eq n 2);
          pose proof (Nat.mod_upper_bound n 2); lia).
    now replace (n / 2 - a) with 0 by lia.
  - apply Nat.leb_gt in E. lia.
  - apply Nat.leb_le in E.
    assert (n / 2 <= a)
      by (pose proof (Nat.div_mod_eq n 2);
          pose proof (Nat.mod_upper_bound n 2); lia).
    now replace (n / 2 - a) with 0 by lia.
  - apply Nat.leb_gt in E.
    assert (a + 1 <= n / 2)
      by (pose proof (Nat.div_mod_eq n 2);
          pose proof (Nat.mod_upper_bound n 2); lia).
    replace (2 * a + 1 + 2) with (2 * (a + 1) + 1) by lia.
    rewrite IH by lia.
    replace (n / 2 - a) with (S (n / 2 - (a + 1))) by lia.
    cbn [seq map]. now rewrite (Nat.add_1_r a).
Qed.

Lemma oddIndices_loop n :
  loop_indices (n - 1) 1 n 2 = oddIndices n.
Proof.
  unfold oddIndices.
  change 1 with (2 * 0 + 1) at 2.
  rewrite (loop_indices_odd (n - 1) 0 n) by lia.
  now rewrite Nat.sub_0_r.
Qed.

(** A loop whose body draws a line to the point it indexes. *)
Lemma for_loop_lineTo pts fuel i step c :
  1 <= step -> length pts - i <= fuel ->
  for_loop fuel i (length pts) step
    (fun j => at_index pts j (fun p => lineTo (x p) (y p))) c
  = Ok ({| state := state c; saved := saved c;
           path := path c ++
                   lineSegments pts (loop_indices fuel i (length pts) step) |},
        []).
Proof.
  intros Hs. revert i c.
  induction fuel as [|fuel IH]; intros i c Hf; simpl;
    destruct (length pts <=? i) eqn:E;
    try (unfold skip, lineSegments; simpl; rewrite app_nil_r;
         now destruct c).
  - apply Nat.leb_gt in E. lia.
  - apply Nat.leb_gt in E.
    destruct (nth_error pts i) as [p|] eqn:Ep;
      [|apply nth_error_None in Ep; lia].
    rewrite (lineSegments_cons _ _ _ _ Ep).
    erewrite andThen_runs;
      [| unfold at_index; rewrite Ep; reflexivity | apply IH; lia].
    simpl. now rewrite <- app_assoc.
Qed.

Lemma set_lineWidth_twice (a b : num) (s : @DrawState num) :
  set_lineWidth a (set_lineWidth b s) = set_lineWidth a s.
Proof. reflexivity. Qed.

Lemma set_globalAlpha_twice (a b : num) (s : @DrawState num) :
  set_globalAlpha a (set_globalAlpha b s) = set_globalAlpha a s.
Proof. reflexivity. Qed.

(** The main loop of the ripple brush: whatever widths it sets on the way,
    it ends with the width computed from the last point. *)
Lemma ripple_loop pts (sz scale : num) plast fuel i c :
  Array_last pts = Some plast ->
  i < length pts -> length pts - i <= fuel ->
  for_loop fuel i (length pts) 1
    (fun j =>
       at_index pts j (fun point =>
         (if (j mod 5 =? 0) || (j =? length pts - 1)
          then assign (set_lineWidth (mul (mul sz (pressure point)) scale))
          else skip) ;;
         lineTo (x point) (y point))) c
  = Ok ({| state :=
             set_lineWidth (mul (mul sz (pressure plast)) scale) (state c);
           saved := saved c;
           path := path c ++ lineSegments pts (seq i (length pts - i)) |},
        []).
Proof.
  intros Hlast. revert i c.
  induction fuel as [|fuel IH]; intros i c Hi Hf; [lia|].
  simpl for_loop.
  destruct (length pts <=? i) eqn:E; [apply Nat.leb_le in E; lia|].
  destruct (nth_error pts i) as [p|] eqn:Ep;
    [|apply nth_error_None in Ep; lia].
  replace (length pts - i) with (S (length pts - (i + 1))) by lia.
  rewrite <- cons_seq, (lineSegments_cons _ _ _ _ Ep).
  destruct (Nat.eq_dec (i + 1) (length pts)) as [Hend|Hmore].
  - (* the last iteration sets the width *)
    assert (Hp : p = plast).
    { unfold Array_last in Hlast. replace (length pts - 1) with i in Hlast by lia.
      congruence. }
    subst p.
    replace (i =? length pts - 1) with true
      by (symmetry; apply Nat.eqb_eq; lia).
    rewrite orb_true_r.
    erewrite andThen_runs;
      [| unfold at_index; rewrite Ep; unfold andThen; simpl; reflexivity
       | destruct fuel; simpl;
         (replace (length pts <=? i + 1) with true
            by (symmetry; apply Nat.leb_le; lia)); reflexivity].
    simpl. replace (length pts - (i + 1)) with 0 by lia.
    unfold lineSegments. simpl. reflexivity.
  - match goal with
    | |- (?body ;; _) c = _ =>
        assert (Hbody : exists s_i,
                   body c = Ok ({| state := s_i; saved := saved c;
                                   path := path c ++ [LineTo (x p) (y p)] |},
                                [])
                   /\ set_lineWidth (mul (mul sz (pressure plast)) scale) s_i
                      = set_lineWidth (mul (mul sz (pressure plast)) scale)
                          (state c))
    end.
    { unfold at_index. rewrite Ep. unfold andThen.
      match goal with
      | |- context [if ?b then assign _ else skip] => destruct b
      end; simpl; eexists; split; reflexivity. }
    destruct Hbody as (s_i & Hrun & Hw).
    erewrite andThen_runs; [|exact Hrun|apply IH; lia].
    simpl. rewrite <- app_assoc. simpl. now rewrite Nat.add_1_r, Hw.
Qed.

End LoopFacts.

(** ** What each pass paints *)

Section PaintFacts.

Context {num : Type} {NumOps : JsNumber num} {MathOps : JsMath num}.
Implicit Types (d : @Draw num) (c : @Context2D num) (s : @Stroke num)
  (pts : list (@StrokePoint num)).

Local Notation "d1 ;; d2" := (andThen d1 d2)
  (at level 61, right associativity).

Lemma for_lineTo_from pts i step c :
  1 <= step ->
  for_ i (length pts) step
    (fun j => at_index pts j (fun p => lineTo (x p) (y p))) c
  = Ok ({| state := state c; saved := saved c;
           path := path c ++
                   lineSegments pts
                     (loop_indices (length pts - i) i (length pts) step) |},
        []).
Proof. intros Hs. unfold for_. now apply for_loop_lineTo. Qed.

Lemma ripple_for pts (sz scale : num) plast c :
  Array_last pts = Some plast -> 1 < length pts ->
  for_ 1 (length pts) 1
    (fun j =>
       at_index pts j (fun point =>
         (if (j mod 5 =? 0) || (j =? length pts - 1)
          then assign (set_lineWidth (mul (mul sz (pressure point)) scale))
          else skip) ;;
         lineTo (x point) (y point))) c
  = Ok ({| state :=
             set_lineWidth (mul (mul sz (pressure plast)) scale) (state c);
           saved := saved c;
           path := path c ++ lineSegments pts (seq 1 (length pts - 1)) |},
        []).
Proof. intros Hl Hn. unfold for_. now apply ripple_loop. Qed.

(** The overlay loop of the ripple brush: a move to the first point, then
    lines to the points at the multiples of the step. *)
Lemma overlay_for (p0 : @StrokePoint num) rest step c :
  1 <= step ->
  for_ 0 (length (p0 :: rest)) step
    (fun i =>
       at_index (p0 :: rest) i (fun point =>
         if i =? 0 then moveTo (x point) (y point)
         else lineTo (x point) (y point))) c
  = Ok ({| state := state c; saved := saved c;
           path := path c ++
                   MoveTo (x p0) (y p0)
                   :: lineSegments (p0 :: rest)
                        (tl (loop_indices (length (p0 :: rest)) 0
                               (length (p0 :: rest)) step)) |},
        []).
Proof.
  intros Hs. unfold for_. rewrite Nat.sub_0_r.
  cbn [length for_loop loop_indices Nat.leb tl].
  eapply eq_trans.
  { eapply andThen_runs; [reflexivity|].
    erewrite for_loop_ext.
    - apply (for_loop_lineTo (p0 :: rest)); [exact Hs|cbn [length]; lia].
    - intros j Hj. simpl in Hj.
      replace (j =? 0) with false by (symmetry; apply Nat.eqb_neq; lia).
      reflexivity. }
  simpl. now rewrite <- app_assoc.
Qed.

Ltac run_draw :=
  cbn [state saved path app];
  lazymatch goal with
  | |- (_ ;; _) _ = _ => eapply andThen_runs; [run_draw | run_draw]
  | |- for_ _ _ _ _ _ = _ =>
      first [ apply for_lineTo_from; lia
            | eapply ripple_for; [eassumption | cbn [length] in *; lia]
            | apply overlay_for; lia ]
  | |- _ =>
      first
        [ cbn [save restore assign beginPath addSegment moveTo lineTo arc
               stroke_ fill skip at_index nth_error state saved path app];
          reflexivity
        | unfold at_index;
          match goal with
          | H : nth_error ?l ?i = Some _ |- context [nth_error ?l ?i] =>
              rewrite H
          end;
          cbn [addSegment moveTo lineTo state saved path app];
          reflexivity ]
  end.

Lemma drawGhost_runs s c :
  (2 <= length (points s) ->
   drawGhost s c =
   Ok ({| state := state c; saved := saved c;
          path := polyline (points s) |},
       [ghostPaint (state c) s]))
  /\ (length (points s) < 2 -> drawGhost s c = Ok (c, [])).
Proof.
  split; intros H; unfold drawGhost.
  - replace (length (points s) <? 2) with false
      by (symmetry; apply Nat.ltb_ge; exact H).
    unfold ghostPaint, glowState.
    destruct (points s) as [|p0 rest] eqn:Hp; [simpl in H; lia|].
    eapply eq_trans.
    { run_draw. }
    rewrite loop_indices_unit by lia.
    rewrite polyline_segments. simpl.
    now rewrite Nat.sub_0_r.
  - apply Nat.ltb_lt in H. now rewrite H.
Qed.

(** The ghost pass draws a committed stroke as one plain line through all
    its stored points (no render-time thinning, no brush style, no
    pressure), 0.8 times the brush size wide, with the glow of the stroke,
    and gives the drawing state and the stack of saved states back. *)
Theorem ghost_pass_draws_every_point s c :
  (2 <= length (points s) ->
   drawGhost s c =
   Ok ({| state := state c; saved := saved c;
          path := polyline (points s) |},
       [ghostPaint (state c) s]))
  /\ (length (points s) < 2 -> drawGhost s c = Ok (c, [])).
Proof. apply drawGhost_runs. Qed.

(** The pulse brush paints two strokes with the glow of the stroke: the
    core through every render point, [size * scale] wide, and over it a halo
    in the colour at 30% opacity, 1.5 times as wide, that starts at the
    first point and runs through the points at odd indices only. *)
Theorem pulse_paints_core_and_halo now s c p0 :
  brush s = pulse ->
  2 <= length (points s) ->
  hd_error (pointsToRender s) = Some p0 ->
  drawBrush now s (Some c) =
  Ok (Some {| state := state c; saved := saved c;
              path :=
                MoveTo (x p0) (y p0)
                :: lineSegments (pointsToRender s)
                     (oddIndices (length (pointsToRender s))) |},
      [ Stroked (polyline (pointsToRender s))
          (set_strokeStyle (css (color s))
             (set_lineWidth (mul (size s) (pulseScaleAt now))
                (glowState s (state c))));
        Stroked
          (MoveTo (x p0) (y p0)
           :: lineSegments (pointsToRender s)
                (oddIndices (length (pointsToRender s))))
          (set_strokeStyle (setColorOpacity (color s) (lit 0.3))
             (set_lineWidth
                (mul (mul (size s) (pulseScaleAt now)) (lit 1.5))
                (glowState s (state c)))) ]).
Proof.
  intros Hb Hlen Hhd.
  rewrite drawBrush_draws by assumption.
  unfold drawBrush_body. rewrite Hb. cbv zeta.
  pose proof (pointsToRender_two s Hlen) as Hn.
  destruct (pointsToRender s) as [|q0 rest]; [discriminate|].
  injection Hhd as ->.
  unfold drawPulse. cbv zeta.
  match goal with
  | |- match ?run with _ => _ end = Ok (Some ?c', ?out) =>
      assert (E : run = Ok (c', out))
  end.
  { eapply eq_trans; [run_draw|].
    rewrite loop_indices_unit by lia. rewrite oddIndices_loop.
    rewrite polyline_segments. unfold glowState.
    cbn [length Nat.sub]. rewrite Nat.sub_0_r. reflexivity. }
  now rewrite E.
Qed.

(** The ripple brush strokes its path once, with one width: the loop sets a
    width at every fifth point but always sets it again at the last one, so
    the path through all render points is stroked [size * pressure * scale]
    wide with the pressure of the last point.  Up to 10 render points that
    is all it paints; with more it adds a brightened core, 0.4 times the
    size wide, through the points at the multiples of the step and the last
    point. *)
Theorem ripple_width_comes_from_last_point now s c p0 plast :
  brush s = ripple ->
  2 <= length (points s) ->
  hd_error (pointsToRender s) = Some p0 ->
  Array_last (pointsToRender s) = Some plast ->
  let n := length (pointsToRender s) in
  let outer :=
    Stroked (polyline (pointsToRender s))
      (set_strokeStyle (css (color s))
         (set_lineWidth
            (mul (mul (size s) (pressure plast)) (rippleScaleAt now))
            (glowState s (state c)))) in
  let corePath :=
    MoveTo (x p0) (y p0)
    :: lineSegments (pointsToRender s)
         (tl (loop_indices n 0 n (Nat.max 1 (n / 10))))
    ++ [LineTo (x plast) (y plast)] in
  (n <= 10 ->
   drawBrush now s (Some c) =
   Ok (Some {| state := state c; saved := saved c;
               path := polyline (pointsToRender s) |},
       [outer]))
  /\ (10 < n ->
      drawBrush now s (Some c) =
      Ok (Some {| state := state c; saved := saved c; path := corePath |},
          [ outer;
            Stroked corePath
              (set_strokeStyle (adjustColorBrightness (color s) (lit 1.2))
                 (set_lineWidth
                    (mul (mul (size s) (lit 0.4)) (rippleScaleAt now))
                    (glowState s (state c)))) ])).
Proof.
  intros Hb Hlen Hhd Hlast n outer corePath. subst n outer corePath.
  rewrite !drawBrush_draws by assumption.
  unfold drawBrush_body. rewrite Hb. cbv zeta.
  pose proof (pointsToRender_two s Hlen) as Hn.
  destruct (pointsToRender s) as [|q0 rest] eqn:Hp; [discriminate|].
  injection Hhd as ->.
  unfold drawRipple. cbv zeta.
  split; intros Hcount.
  - replace (10 <? length (p0 :: rest)) with false
      by (symmetry; apply Nat.ltb_ge; exact Hcount).
    match goal with
    | |- match ?run with _ => _ end = Ok (Some ?c', ?out) =>
        assert (E : run = Ok (c', out))
    end.
    { eapply eq_trans; [run_draw|].
      rewrite polyline_segments. unfold glowState.
      cbn [length Nat.sub]. rewrite Nat.sub_0_r. reflexivity. }
    now rewrite E.
  - replace (10 <? length (p0 :: rest)) with true
      by (symmetry; apply Nat.ltb_lt; exact Hcount).
    assert (Hidx : nth_error (p0 :: rest) (length (p0 :: rest) - 1)
                   = Some plast) by exact Hlast.
    match goal with
    | |- match ?run with _ => _ end = Ok (Some ?c', ?out) =>
        assert (E : run = Ok (c', out))
    end.
    { eapply eq_trans; [run_draw|].
      rewrite polyline_segments. unfold glowState.
      cbn [length Nat.sub]. rewrite Nat.sub_0_r.
      cbn - [loop_indices lineSegments Nat.div Nat.max set_lineWidth
             set_strokeStyle set_shadowColor set_shadowBlur set_lineJoin
             set_lineCap]. reflexivity. }
    now rewrite E.
Qed.

End PaintFacts.

(** ** Glow, blending and the frame *)

Section GlowFacts.

Context {num : Type} {NumOps : JsNumber num} {MathOps : JsMath num}.
Implicit Types (d : @Draw num) (c : @Context2D num) (s : @Stroke num)
  (I : @DrawState num -> Prop) (Q : @Paint num -> Prop).

Local Notation "d1 ;; d2" := (andThen d1 d2)
  (at level 61, right associativity).

Lemma pin_skip I Q : paints_in I Q skip.
Proof. intros c c' out Hc H. injection H as <- <-. now split. Qed.

Lemma pin_andThen I Q d1 d2 :
  paints_in I Q d1 -> paints_in I Q d2 -> paints_in I Q (d1 ;; d2).
Proof.
  intros H1 H2 c c' out Hc H.
  apply andThen_inv in H as (c1 & o1 & o2 & E1 & E2 & ->).
  destruct (H1 _ _ _ Hc E1) as [Hc1 Ho1].
  destruct (H2 _ _ _ Hc1 E2) as [Hc2 Ho2].
  split; [exact Hc2|]. apply Forall_app. now split.
Qed.

Lemma pin_assign I Q f :
  (forall st0, I st0 -> I (f st0)) -> paints_in I Q (assign f).
Proof. intros Hf c c' out Hc H. injection H as <- <-. simpl. auto. Qed.

Lemma pin_beginPath I Q : paints_in I Q beginPath.
Proof. intros c c' out Hc H. injection H as <- <-. simpl. auto. Qed.

Lemma pin_addSegment I Q g : paints_in I Q (addSegment g).
Proof. intros c c' out Hc H. injection H as <- <-. simpl. auto. Qed.

Lemma pin_stroke I Q :
  (forall p st0, I st0 -> Q (Stroked p st0)) -> paints_in I Q stroke_.
Proof. intros HQ c c' out Hc H. injection H as <- <-. auto. Qed.

Lemma pin_fill I Q :
  (forall p st0, I st0 -> Q (Filled p st0)) -> paints_in I Q fill.
Proof. intros HQ c c' out Hc H. injection H as <- <-. auto. Qed.

Lemma pin_if I Q (b : bool) d1 d2 :
  paints_in I Q d1 -> paints_in I Q d2 -> paints_in I Q (if b then d1 else d2).
Proof. now destruct b. Qed.

Lemma pin_at_index I Q (arr : list (@StrokePoint num)) i k :
  (forall p, paints_in I Q (k p)) -> paints_in I Q (at_index arr i k).
Proof.
  intros Hk. unfold at_index. destruct (nth_error arr i); [apply Hk|].
  intros c c' out _ H. discriminate.
Qed.

Lemma pin_for I Q start stop step body :
  (forall j, paints_in I Q (body j)) ->
  paints_in I Q (for_ start stop step body).
Proof.
  intros Hb. unfold for_. generalize (stop - start) as fuel.
  intros fuel. revert start.
  induction fuel as [|fuel IH]; intros i; simpl;
    destruct (stop <=? i); try apply pin_skip.
  - intros c c' out _ H. discriminate.
  - apply pin_andThen; [apply Hb|apply IH].
Qed.

Lemma glowing_set_lineWidth op s w st0 :
  glowing op s st0 -> glowing op s (set_lineWidth w st0).
Proof. unfold glowing. simpl. tauto. Qed.

Lemma glowing_set_strokeStyle op s v st0 :
  glowing op s st0 -> glowing op s (set_strokeStyle v st0).
Proof. unfold glowing. simpl. tauto. Qed.

Lemma glowing_set_fillStyle op s v st0 :
  glowing op s st0 -> glowing op s (set_fillStyle v st0).
Proof. unfold glowing. simpl. tauto. Qed.

Lemma glowing_set_globalAlpha op s v st0 :
  glowing op s st0 -> glowing op s (set_globalAlpha v st0).
Proof. unfold glowing. simpl. tauto. Qed.

Lemma glowing_glowState s st0 :
  glowing (globalCompositeOperation st0) s (glowState s st0).
Proof. unfold glowing, glowState. simpl. tauto. Qed.

Ltac paints_in_tac :=
  lazymatch goal with
  | |- paints_in _ _ (andThen _ _) => apply pin_andThen; paints_in_tac
  | |- paints_in _ _ (if _ then _ else _) => apply pin_if; paints_in_tac
  | |- paints_in _ _ (at_index _ _ _) =>
      apply pin_at_index; intros ?; paints_in_tac
  | |- paints_in _ _ (for_ _ _ _ _) => apply pin_for; intros ?; paints_in_tac
  | |- paints_in _ _ (moveTo _ _) => apply pin_addSegment
  | |- paints_in _ _ (lineTo _ _) => apply pin_addSegment
  | |- paints_in _ _ (arc _ _ _ _ _) => apply pin_addSegment
  | |- paints_in _ _ beginPath => apply pin_beginPath
  | |- paints_in _ _ skip => apply pin_skip
  | |- paints_in _ _ stroke_ => apply pin_stroke; intros ? ? H; exact H
  | |- paints_in _ _ fill => apply pin_fill; intros ? ? H; exact H
  | |- paints_in _ _ (assign (set_lineWidth _)) =>
      apply pin_assign; intros ?; apply glowing_set_lineWidth
  | |- paints_in _ _ (assign (set_strokeStyle _)) =>
      apply pin_assign; intros ?; apply glowing_set_strokeStyle
  | |- paints_in _ _ (assign (set_fillStyle _)) =>
      apply pin_assign; intros ?; apply glowing_set_fillStyle
  | |- paints_in _ _ (assign (set_globalAlpha _)) =>
      apply pin_assign; intros ?; apply glowing_set_globalAlpha
  end.

Lemma pin_drawRipple op now s pts :
  paints_in (glowing op s) (strokedIn (glowing op s)) (drawRipple now s pts).
Proof. unfold drawRipple. cbv zeta. paints_in_tac. Qed.

Lemma pin_drawPulse op now s pts :
  paints_in (glowing op s) (strokedIn (glowing op s)) (drawPulse now s pts).
Proof. unfold drawPulse. cbv zeta. paints_in_tac. Qed.

Lemma pin_drawParticle op s pts :
  paints_in (glowing op s) (filledIn (glowing op s)) (drawParticle s pts).
Proof. unfold drawParticle. cbv zeta. paints_in_tac. Qed.

(** What [drawBrush] paints is what its brush paints, started in the glow
    state. *)
Lemma drawBrush_body_output now s c c' out :
  drawBrush_body now s c = Ok (c', out) ->
  exists c5 c6,
    state c5 = glowState s (state c)
    /\ (match brush s with
        | ripple => drawRipple now s (pointsToRender s)
        | pulse => drawPulse now s (pointsToRender s)
        | particle => drawParticle s (pointsToRender s)
        end) c5 = Ok (c6, out).
Proof.
  unfold drawBrush_body. intros H.
  do 5 (apply andThen_inv in H as (? & ? & ? & E & H & ->);
        injection E as <- <-).
  apply andThen_inv in H as (c6 & o6 & o7 & E & H & ->).
  assert (o7 = []) as ->.
  { unfold restore in H. destruct (saved c6); now injection H as <- <-. }
  rewrite app_nil_r. simpl.
  eexists _, c6. split; [|exact E]. reflexivity.
Qed.

Lemma drawBrush_glow now s c c' out :
  drawBrush now s (Some c) = Ok (Some c', out) ->
  Forall
    (match brush s with
     | particle => filledIn (glowing (globalCompositeOperation (state c)) s)
     | _ => strokedIn (glowing (globalCompositeOperation (state c)) s)
     end) out.
Proof.
  intros H.
  destruct (Nat.lt_ge_cases (length (points s)) 2) as [Hlt|Hge].
  - rewrite drawBrush_skips in H by assumption. injection H as <- <-.
    constructor.
  - rewrite drawBrush_draws in H by assumption.
    destruct (drawBrush_body now s c) as [[c1 o1]| |] eqn:E; try discriminate.
    injection H as <- <-.
    destruct (drawBrush_body_output _ _ _ _ _ E) as (c5 & c6 & Hs & Hrun).
    pose proof (glowing_glowState s (state c)) as Hg. rewrite <- Hs in Hg.
    destruct (brush s).
    + exact (proj2 (pin_drawRipple _ _ _ _ _ _ _ Hg Hrun)).
    + exact (proj2 (pin_drawPulse _ _ _ _ _ _ _ Hg Hrun)).
    + exact (proj2 (pin_drawParticle _ _ _ _ _ _ Hg Hrun)).
Qed.

(** Every brush paints with the glow: whatever [drawBrush] paints is
    painted with round caps and joins, a shadow of the stroke's colour and
    half its size, and the compositing operation the context had; the
    ripple and the pulse brush only stroke paths, the particle brush only
    fills them, and none clears or fills a rectangle. *)
Theorem brushes_paint_with_glow now s c c' out :
  drawBrush now s (Some c) = Ok (Some c', out) ->
  Forall
    (match brush s with
     | particle => filledIn (glowing (globalCompositeOperation (state c)) s)
     | _ => strokedIn (glowing (globalCompositeOperation (state c)) s)
     end) out.
Proof. apply drawBrush_glow. Qed.

Lemma drawBrush_some now s c :
  exists c' out,
    drawBrush now s (Some c) = Ok (Some c', out)
    /\ state c' = state c /\ saved c' = saved c.
Proof.
  destruct (Nat.lt_ge_cases (length (points s)) 2) as [Hlt|Hge].
  - rewrite drawBrush_skips by assumption. now exists c, [].
  - rewrite drawBrush_draws by assumption.
    destruct (drawBrush_body_ok now s c Hge) as (c' & out & E & Hs & Hv).
    rewrite E. now exists c', out.
Qed.

Lemma glow_paintedWith op s (p : @Paint num) :
  strokedIn (glowing op s) p \/ filledIn (glowing op s) p ->
  paintedWith op p.
Proof.
  unfold paintedWith.
  destruct p; simpl; intros [H|H]; try contradiction; apply H.
Qed.

Lemma settles_andThen (f g : @DrawState num -> @DrawState num) op d1 d2 :
  settles f op d1 -> settles g op d2 ->
  (forall st0, globalCompositeOperation (f st0)
               = globalCompositeOperation st0) ->
  settles (fun st0 => g (f st0)) op (d1 ;; d2).
Proof.
  intros H1 H2 Hf c Hc.
  destruct (H1 c Hc) as (c1 & o1 & E1 & S1 & V1 & P1).
  destruct (H2 c1) as (c2 & o2 & E2 & S2 & V2 & P2);
    [now rewrite S1, Hf|].
  exists c2, (o1 ++ o2). rewrite (andThen_runs _ _ _ _ _ _ _ E1 E2).
  split; [reflexivity|]. split; [now rewrite S2, S1|].
  split; [congruence|]. apply Forall_app. now split.
Qed.

Lemma settles_skip op : settles (fun st0 => st0) op (@skip num).
Proof. intros c Hc. exists c, []. repeat split. constructor. Qed.

Lemma settles_alpha (a : num) op :
  settles (set_globalAlpha a) op (assign (set_globalAlpha a)).
Proof. intros c Hc. eexists _, _. repeat split. constructor. Qed.

Lemma settles_clearRect a b w h op :
  settles (fun st0 => st0) op (clearRect (num:=num) a b w h).
Proof.
  intros c Hc. eexists _, _. repeat split.
  constructor; [exact Logic.I|constructor].
Qed.

Lemma settles_drawGhost s op : settles (fun st0 => st0) op (drawGhost s).
Proof.
  intros c Hc. destruct (drawGhost_runs s c) as [Hlong Hshort].
  destruct (Nat.lt_ge_cases (length (points s)) 2) as [Hlt|Hge].
  - rewrite (Hshort Hlt). exists c, []. repeat split. constructor.
  - rewrite (Hlong Hge). eexists _, _. repeat split.
    constructor; [|constructor]. exact Hc.
Qed.

Lemma settles_drawBrush_ctx now s op :
  settles (fun st0 => st0) op (drawBrush_ctx now s).
Proof.
  intros c Hc. unfold drawBrush_ctx.
  destruct (drawBrush_some now s c) as (c' & out & E & Hs & Hv).
  rewrite E. exists c', out. repeat split; auto.
  pose proof (drawBrush_glow _ _ _ _ _ E) as Hg. rewrite Hc in Hg.
  eapply Forall_impl; [|exact Hg].
  intros p Hp. apply (glow_paintedWith op s).
  destruct (brush s); auto.
Qed.

Lemma settles_forEach_from {A : Type} (body : A -> nat -> @Draw num) op i l :
  (forall a j, settles (fun st0 => st0) op (body a j)) ->
  settles (fun st0 => st0) op (forEach_from body i l).
Proof.
  intros Hb. revert i. induction l as [|a l IH]; intros i; simpl.
  - apply settles_skip.
  - apply (settles_andThen (fun st0 => st0) (fun st0 => st0)); auto.
Qed.


End GlowFacts.

Section FrameFacts.

Context {num : Type} {NumOps : JsNumber num} {MathOps : JsMath num}.
Implicit Types (c : @Context2D num) (s : @Stroke num)
  (st : @LightPainter num).

Local Notation "d1 ;; d2" := (andThen d1 d2)
  (at level 61, right associativity).

(** The drawing state a frame leaves: as it was, except that a frame
    with a ghost pass ends with the alpha at 1. *)
Lemma settles_frame clock w h st op :
  settles
    (fun ds : @DrawState num =>
       match tempStroke st with
       | Some _ =>
           if 0 <? length (strokes st)
           then set_globalAlpha (lit 1.0) ds else ds
       | None => ds
       end) op (frame clock w h st).
Proof.
  unfold frame.
  destruct (tempStroke st) as [ts|].
  - destruct (0 <? length (strokes st)).
    + apply (settles_andThen (fun ds => ds)
               (fun ds => set_globalAlpha (lit 1.0) ds));
        [apply settles_clearRect| |reflexivity].
      apply (settles_andThen (fun ds => set_globalAlpha (lit 1.0) ds)
               (fun ds => ds));
        [|apply settles_drawBrush_ctx|reflexivity].
      apply (settles_andThen (set_globalAlpha (lit 0.95))
               (fun ds => set_globalAlpha (lit 1.0) ds));
        [apply settles_alpha| |reflexivity].
      apply (settles_andThen (fun ds => ds) (set_globalAlpha (lit 1.0)));
        [|apply settles_alpha|reflexivity].
      apply settles_forEach_from. intros a j. apply settles_drawGhost.
    + apply (settles_andThen (fun ds => ds) (fun ds => ds));
        [apply settles_clearRect| |reflexivity].
      apply (settles_andThen (fun ds => ds) (fun ds => ds));
        [apply settles_skip|apply settles_drawBrush_ctx|reflexivity].
  - apply (settles_andThen (fun ds => ds) (fun ds => ds));
      [apply settles_clearRect| |reflexivity].
    apply settles_forEach_from. intros a j. apply settles_drawBrush_ctx.
Qed.

Lemma frame_starts_by_clearing clock w h st c c' out :
  frame clock w h st c = Ok (c', out) ->
  exists rest, out = ClearRect (lit 0) (lit 0) w h :: rest.
Proof.
  unfold frame. intros H.
  apply andThen_inv in H as (c1 & o1 & o2 & E & _ & ->).
  injection E as <- <-. now exists o2.
Qed.

(** What a call of [animate] does.  When the clock is less than 16 above
    [lastTimeRef] it changes nothing.  [lastTimeRef] is written by a call
    that paints and also by the effect that restarts the loop whenever
    [animate] is made anew, so a call less than 16ms after such a restart
    paints nothing, however long ago the last frame was painted.  Any other
    call on a mounted canvas with a context records its time, clears the
    canvas first and then paints with the compositing operation of the
    context only; it leaves the stack of saved states as it was, and the
    drawing state too, except that a frame with a ghost pass (a stroke in
    progress over committed strokes) ends with the alpha at 1. *)
Theorem animate_effect now clock w h st c :
  ctx st = Some c -> canvasRef st = true ->
  (ltb (sub now (lastTimeRef st)) (lit 16) = true ->
   animate now clock w h st = Ok st)
  /\ (forall t,
      ltb (sub now t) (lit 16) = true ->
      lastTimeRef (restartAnimation t st) = t
      /\ animate now clock w h (restartAnimation t st)
         = Ok (restartAnimation t st))
  /\ (ltb (sub now (lastTimeRef st)) (lit 16) = false ->
      exists st' c' out,
        animate now clock w h st = Ok st'
        /\ ctx st' = Some c'
        /\ lastTimeRef st' = now
        /\ surface st' = surface st ++ ClearRect (lit 0) (lit 0) w h :: out
        /\ saved c' = saved c
        /\ state c' =
           match tempStroke st with
           | Some _ =>
               if 0 <? length (strokes st)
               then set_globalAlpha (lit 1.0) (state c) else state c
           | None => state c
           end
        /\ Forall (paintedWith (globalCompositeOperation (state c))) out).
Proof.
  intros Hc Hm.
  split; [|split].
  - intros Hgate. unfold animate. now rewrite Hc, Hm, Hgate.
  - intros t Hgate. split; [reflexivity|].
    unfold animate. cbn [ctx canvasRef lastTimeRef restartAnimation].
    now rewrite Hc, Hm, Hgate.
  - intros Hgate. unfold animate. rewrite Hc, Hm. simpl. rewrite Hgate.
    destruct (settles_frame clock w h st _ c eq_refl)
      as (c' & out & E & Hs & Hv & Hp).
    destruct (frame_starts_by_clearing _ _ _ _ _ _ _ E) as (rest & ->).
    rewrite E. eexists _, c', rest. split; [reflexivity|]. simpl.
    repeat split; auto.
    now inversion Hp.
Qed.

Lemma forEach_ghost_runs (l : list (@Stroke num)) i c :
  exists c',
    forEach_from (fun s (_ : nat) => drawGhost s) i l c
    = Ok (c', map (ghostPaint (state c)) (ghostable l))
    /\ state c' = state c /\ saved c' = saved c.
Proof.
  revert i c. induction l as [|a l IH]; intros i c.
  - now exists c.
  - cbn [forEach_from]. unfold ghostable. cbn [filter]. fold (ghostable l).
    destruct (drawGhost_runs a c) as [Hlong Hshort].
    destruct (2 <=? length (points a)) eqn:E.
    + apply Nat.leb_le in E.
      destruct (IH (S i) {| state := state c; saved := saved c;
                            path := polyline (points a) |})
        as (c' & Erun & Hs & Hv).
      exists c'. rewrite (andThen_runs _ _ _ _ _ _ _ (Hlong E) Erun).
      cbn [state saved map app] in *. auto.
    + apply Nat.leb_gt in E.
      destruct (IH (S i) c) as (c' & Erun & Hs & Hv).
      exists c'. rewrite (andThen_runs _ _ _ _ _ _ _ (Hshort E) Erun).
      cbn [app]. auto.
Qed.

(** A frame while a stroke is being drawn paints, in this order: the
    cleared canvas; one plain line for every committed stroke of at least 2
    points, in the order they were committed, all with the alpha at 0.95;
    then the stroke in progress with its own brush, read at the first clock
    value, with the alpha back at 1 when there were committed strokes. *)
Theorem frame_during_capture clock w h st c ts :
  tempStroke st = Some ts ->
  exists cB c' brushOut,
    frame clock w h st c =
    Ok (c',
        ClearRect (lit 0) (lit 0) w h
        :: map (ghostPaint (set_globalAlpha (lit 0.95) (state c)))
             (ghostable (strokes st))
        ++ brushOut)
    /\ drawBrush (clock 0) ts (Some cB) = Ok (Some c', brushOut)
    /\ saved cB = saved c
    /\ state cB =
       (if 0 <? length (strokes st)
        then set_globalAlpha (lit 1.0) (state c) else state c).
Proof.
  intros Ht. unfold frame. rewrite Ht.
  destruct (0 <? length (strokes st)) eqn:Hn.
  - destruct (forEach_ghost_runs (strokes st) 0
                {| state := set_globalAlpha (lit 0.95) (state c);
                   saved := saved c; path := path c |})
      as (c1 & Eg & Hs1 & Hv1).
    set (cB := {| state := set_globalAlpha (lit 1.0) (state c1);
                  saved := saved c1; path := path c1 |}).
    destruct (drawBrush_some (clock 0) ts cB) as (c' & out & E & _ & _).
    exists cB, c', out.
    split; [|split; [exact E|split]].
    + eapply eq_trans.
      { eapply andThen_runs; [reflexivity|].
        eapply andThen_runs.
        - eapply andThen_runs; [reflexivity|].
          eapply andThen_runs; [exact Eg|reflexivity].
        - unfold drawBrush_ctx. fold cB. rewrite E. reflexivity. }
      simpl. now rewrite app_nil_r.
    + unfold cB. simpl. exact Hv1.
    + unfold cB. simpl. now rewrite Hs1.
  - assert (Hnil : strokes st = []).
    { apply Nat.ltb_ge in Hn. destruct (strokes st); [reflexivity|].
      simpl in Hn. lia. }
    destruct (drawBrush_some (clock 0) ts c) as (c' & out & E & _ & _).
    exists c, c', out. rewrite Hnil.
    split; [|split; [exact E|split; reflexivity]].
    eapply eq_trans.
    { eapply andThen_runs; [reflexivity|].
      eapply andThen_runs; [reflexivity|].
      unfold drawBrush_ctx. rewrite E. reflexivity. }
    reflexivity.
Qed.

Lemma forEach_brush_runs clock (l : list (@Stroke num)) i c :
  exists c' outs,
    forEach_from (fun s k => drawBrush_ctx (clock k) s) i l c
    = Ok (c', concat outs)
    /\ state c' = state c /\ saved c' = saved c
    /\ Forall2
         (fun ks out =>
            exists cK cK',
              drawBrush (clock (fst ks)) (snd ks) (Some cK)
              = Ok (Some cK', out)
              /\ state cK = state c /\ saved cK = saved c)
         (combine (seq i (length l)) l) outs.
Proof.
  revert i c. induction l as [|a l IH]; intros i c; simpl.
  - exists c, []. repeat split. constructor.
  - destruct (drawBrush_some (clock i) a c) as (c1 & o1 & E1 & Hs1 & Hv1).
    destruct (IH (S i) c1) as (c' & outs & Erun & Hs & Hv & Hall).
    exists c', (o1 :: outs).
    split.
    { eapply eq_trans.
      { eapply andThen_runs; [|exact Erun].
        unfold drawBrush_ctx. rewrite E1. reflexivity. }
      reflexivity. }
    split; [congruence|]. split; [congruence|].
    constructor.
    + exists c, c1. simpl. auto.
    + eapply Forall2_impl; [|exact Hall].
      intros ks out (cK & cK' & E & HsK & HvK).
      exists cK, cK'. split; [exact E|]. split; congruence.
Qed.

(** A frame on an idle canvas clears it and then draws every committed
    stroke with its brush, in the order the strokes were committed, each
    call reading the clock for itself and each starting from the drawing
    state and the stack of saved states the frame started with. *)
Theorem frame_when_idle clock w h st c :
  tempStroke st = None ->
  exists c' outs,
    frame clock w h st c =
    Ok (c', ClearRect (lit 0) (lit 0) w h :: concat outs)
    /\ state c' = state c /\ saved c' = saved c
    /\ Forall2
         (fun ks out =>
            exists cK cK',
              drawBrush (clock (fst ks)) (snd ks) (Some cK)
              = Ok (Some cK', out)
              /\ state cK = state c /\ saved cK = saved c)
         (combine (seq 0 (length (strokes st))) (strokes st)) outs.
Proof.
  intros Ht. unfold frame. rewrite Ht.
  destruct (forEach_brush_runs clock (strokes st) 0 c)
    as (c' & outs & E & Hs & Hv & Hall).
  exists c', outs. split; [|auto].
  unfold forEach. eapply eq_trans.
  { eapply andThen_runs; [reflexivity|exact E]. }
  reflexivity.
Qed.

(** Strokes are always blended additively: once [initCanvas] has set the
    compositing operation to "lighter", no handler changes it, so after any
    sequence of events the context, if there is one, still has it, and
    every stroke, fill and wash on the surface was painted with it. *)
Theorem strokes_are_blended_additively (c0 : string)
  (evs : list (@Event num)) :
  Forall (paintedWith "lighter") (surface (run evs (initialState c0)))
  /\ (forall c,
        ctx (run evs (initialState c0)) = Some c ->
        globalCompositeOperation (state c) = "lighter"%string).
Proof.
  apply (run_invariant
           (fun st =>
              Forall (paintedWith "lighter") (surface st)
              /\ (forall c, ctx st = Some c ->
                            globalCompositeOperation (state c)
                            = "lighter"%string)));
    [|split; [constructor|discriminate]].
  clear. intros ev st [Hp Hc].
  destruct ev as [|context|e now|e now| | |sm|sm|w h|now clock w h|a b c d|now];
    simpl.
  - now split.
  - unfold initCanvas. destruct (negb (canvasRef st)); [now split|].
    destruct context as [c1|]; [|now split]. simpl.
    split; [exact Hp|]. intros c E. now injection E as <-.
  - unfold handlePointerDown. destruct (negb (canvasRef st)); now split.
  - unfold handlePointerMove. destruct (tempStroke st); [|now split].
    destruct (negb (isDrawing st) || negb (canvasRef st)); [now split|].
    destruct (_ <? _)%Z; [now split|].
    destruct (smoothInput _ _ _). now split.
  - unfold handlePointerUp. destruct (tempStroke st); [|now split].
    destruct (negb (isDrawing st)); now split.
  - unfold handlePointerUp. destruct (tempStroke st); [|now split].
    destruct (negb (isDrawing st)); now split.
  - unfold handleUndo. destruct (Array_pop (strokes st)) as [l [s|]];
      now split.
  - unfold handleRedo. destruct (Array_pop (redoStack st)) as [l [s|]];
      now split.
  - unfold handleClear.
    destruct (ctx st) as [c|] eqn:E; simpl;
      [|rewrite app_nil_r; split; [exact Hp|discriminate]].
    destruct (canvasRef st); simpl;
      [|rewrite app_nil_r; split; [exact Hp|exact Hc]].
    split.
    + apply Forall_app. split; [exact Hp|].
      constructor; [|constructor]. unfold paintedWith. simpl. now apply Hc.
    + intros c' E'. injection E' as <-. simpl. now apply Hc.
  - destruct (animate now clock w h st) as [st'| |] eqn:E; try now split.
    unfold animate in E.
    destruct (ctx st) as [c|] eqn:Ec; [|injection E as <-; split; auto;
                                         now rewrite Ec].
    destruct (negb (canvasRef st)); [injection E as <-; split; auto;
                                     now rewrite Ec|].
    destruct (ltb _ _); [injection E as <-; split; auto; now rewrite Ec|].
    destruct (settles_frame clock w h st "lighter" c (Hc c eq_refl))
      as (c' & out & Ef & Hs & _ & Hout).
    rewrite Ef in E. injection E as <-. simpl.
    split; [apply Forall_app; now split|].
    intros c1 E1. injection E1 as <-. rewrite Hs.
    destruct (tempStroke st); [destruct (0 <? _)|]; simpl; now apply Hc.
  - now split.
  - now split.
Qed.

End FrameFacts.

(** ** Colour utilities *)

Section ColorFacts.

Import Color.

Local Open Scope string_scope.

Lemma allAscii_complete (a : ascii) : In a allAscii.
Proof.
  unfold allAscii. rewrite <- (ascii_nat_embedding a).
  apply in_map, in_seq. pose proof (nat_ascii_bounded a). lia.
Qed.

Lemma twoDigitsParse_all (a b : ascii) : twoDigitsParse a b = true.
Proof.
  assert (H : forallb (fun a => forallb (twoDigitsParse a) allAscii) allAscii
              = true) by (vm_compute; reflexivity).
  rewrite forallb_forall in H. specialize (H a (allAscii_complete a)).
  rewrite forallb_forall in H. apply H, allAscii_complete.
Qed.

Lemma channelPrints_all (n : nat) : (n < 256)%nat -> channelPrints n = true.
Proof.
  intros Hn.
  assert (H : forallb channelPrints (seq 0 256) = true)
    by (vm_compute; reflexivity).
  rewrite forallb_forall in H. apply H, in_seq. lia.
Qed.

Lemma optionZ_eqb_eq (a b : option Z) : optionZ_eqb a b = true -> a = b.
Proof.
  destruct a, b; simpl; try discriminate; [|reflexivity].
  intros H. apply Z.eqb_eq in H. now subst.
Qed.

Lemma parse_two_hex (a b : ascii) :
  isHex a = true -> isHex b = true ->
  exists u v,
    hexValue a = Some u /\ hexValue b = Some v
    /\ parseInt16 (String a (String b "")) = Some (16 * u + v)%Z
    /\ (0 <= 16 * u + v <= 255)%Z.
Proof.
  unfold isHex. intros Ha Hb.
  pose proof (twoDigitsParse_all a b) as H. unfold twoDigitsParse in H.
  destruct (hexValue a) as [u|]; [|discriminate].
  destruct (hexValue b) as [v|]; [|discriminate].
  apply andb_true_iff in H as [H H2]. apply andb_true_iff in H as [H H1].
  exists u, v. repeat split; auto.
  - now apply optionZ_eqb_eq.
  - now apply Z.leb_le.
  - now apply Z.leb_le.
Qed.

Lemma print_channel (v : Z) :
  (0 <= v <= 255)%Z ->
  exists h l,
    padStart2 (toString16 v) = String h (String l "")
    /\ isHex h = true /\ isHex l = true
    /\ parseInt16 (String h (String l "")) = Some v.
Proof.
  intros Hv.
  pose proof (channelPrints_all (Z.to_nat v) ltac:(lia)) as H.
  unfold channelPrints in H. rewrite Z2Nat.id in H by lia.
  destruct (padStart2 (toString16 v)) as [|h [|l [|x rest]]];
    try discriminate.
  apply andb_true_iff in H as [H H3]. apply andb_true_iff in H as [H1 H2].
  exists h, l. repeat split; auto. now apply optionZ_eqb_eq.
Qed.

(** Printing and parsing a channel are inverse to each other: a value from
    0 to 255 prints as exactly two hexadecimal digits that [parseInt] reads
    back as the value, and any two hexadecimal digits, of either case,
    parse to sixteen times the first plus the second, a value from 0 to
    255. *)
Theorem channel_hex_round_trip :
  (forall v : Z,
      (0 <= v <= 255)%Z ->
      String.length (padStart2 (toString16 v)) = 2%nat
      /\ parseInt16 (padStart2 (toString16 v)) = Some v)
  /\ (forall a b : ascii,
      isHex a = true -> isHex b = true ->
      exists u v,
        hexValue a = Some u /\ hexValue b = Some v
        /\ parseInt16 (String a (String b "")) = Some (16 * u + v)%Z
        /\ (0 <= 16 * u + v <= 255)%Z).
Proof.
  split; [|apply parse_two_hex].
  intros v Hv. destruct (print_channel v Hv) as (h & l & E & _ & _ & Hp).
  rewrite E. now split.
Qed.

Lemma validColor_inv (color : string) :
  validColor color = true ->
  exists a b c d e f,
    color = String "#" (String a (String b (String c (String d (String e
              (String f ""))))))
    /\ isHex a = true /\ isHex b = true /\ isHex c = true
    /\ isHex d = true /\ isHex e = true /\ isHex f = true.
Proof.
  destruct color as [|c0 [|a [|b [|c [|d [|e [|f [|g rest]]]]]]]];
    try discriminate;
    destruct c0 as [[] [] [] [] [] [] [] []]; simpl; try discriminate.
  intros H. repeat (apply andb_true_iff in H as [H ?]).
  exists a, b, c, d, e, f. repeat split; auto.
Qed.

(** *** Signs in binary64 rounding *)

Lemma shr_1_nonneg (mrs : SpecFloat.shr_record) :
  (0 <= SpecFloat.shr_m mrs)%Z -> (0 <= SpecFloat.shr_m (SpecFloat.shr_1 mrs))%Z.
Proof.
  destruct mrs as [m r s]. destruct m as [|[p|p|]|[p|p|]]; simpl; lia.
Qed.

Lemma iter_pos_nonneg (p : positive) (mrs : SpecFloat.shr_record) :
  (0 <= SpecFloat.shr_m mrs)%Z ->
  (0 <= SpecFloat.shr_m (SpecFloat.iter_pos SpecFloat.shr_1 p mrs))%Z.
Proof.
  revert mrs. induction p as [p IH|p IH|]; intros mrs H; simpl.
  - apply IH, IH. now apply shr_1_nonneg.
  - now apply IH, IH.
  - now apply shr_1_nonneg.
Qed.

Lemma shr_fexp_nonneg (m e : Z) (l : SpecFloat.location) :
  (0 <= m)%Z ->
  (0 <= SpecFloat.shr_m
          (fst (SpecFloat.shr_fexp FloatOps.prec FloatOps.emax m e l)))%Z.
Proof.
  intros H. unfold SpecFloat.shr_fexp, SpecFloat.shr.
  assert (H0 : (0 <= SpecFloat.shr_m (SpecFloat.shr_record_of_loc m l))%Z)
    by (destruct l as [|[]]; exact H).
  destruct (_ - e)%Z; simpl; auto.
  now apply iter_pos_nonneg.
Qed.

Lemma round_nearest_even_nonneg (m : Z) (l : SpecFloat.location) :
  (0 <= m)%Z -> (0 <= SpecFloat.round_nearest_even m l)%Z.
Proof.
  intros H. destruct l as [|[]]; simpl; try lia.
  destruct (Z.even m); lia.
Qed.

Lemma binary_round_aux_notNegative (m e : Z) (l : SpecFloat.location) :
  (0 <= m)%Z ->
  Double.notNegative
    (SpecFloat.binary_round_aux FloatOps.prec FloatOps.emax false m e l).
Proof.
  intros H. unfold SpecFloat.binary_round_aux.
  pose proof (shr_fexp_nonneg m e l H) as H1.
  destruct (SpecFloat.shr_fexp FloatOps.prec FloatOps.emax m e l)
    as [mrs' e'].
  cbn [fst] in H1.
  pose proof (shr_fexp_nonneg _ e' SpecFloat.loc_Exact
                (round_nearest_even_nonneg _
                   (SpecFloat.loc_of_shr_record mrs') H1)) as H2.
  destruct (SpecFloat.shr_fexp _ _ _ e' SpecFloat.loc_Exact) as [mrs'' e''].
  cbn [fst] in H2.
  destruct (SpecFloat.shr_m mrs'') as [|q|q]; [exact I| |lia].
  now destruct (e'' <=? _)%Z.
Qed.

Lemma mul_notNegative (a b : PrimFloat.float) :
  Double.nonnegative a = true -> Double.nonnegative b = true ->
  Double.notNegative (FloatOps.Prim2SF (PrimFloat.mul a b)).
Proof.
  unfold Double.nonnegative. intros Ha Hb.
  rewrite FloatAxioms.mul_spec. unfold FloatAxioms.SF64mul.
  destruct (FloatOps.Prim2SF a) as [sa|sa| |sa ma ea]; try discriminate;
    destruct (FloatOps.Prim2SF b) as [sb|sb| |sb mb eb]; try discriminate;
    simpl; auto.
  destruct sa, sb; try discriminate. cbn [xorb].
  apply binary_round_aux_notNegative. lia.
Qed.

Lemma Math_min_255_notNegative (v : SpecFloat.spec_float) :
  Double.notNegative v ->
  exists z, Math_min_255 (roundSF v) = Integer z /\ (0 <= z <= 255)%Z.
Proof.
  destruct v as [s|s| |s m e]; cbn [Double.notNegative roundSF Math_min_255];
    intros H.
  - exists 0%Z. split; [reflexivity|lia].
  - subst s. exists 255%Z. split; [reflexivity|lia].
  - contradiction.
  - subst s. eexists. split; [reflexivity|].
    split; [|lia]. apply Z.min_glb; [lia|].
    destruct e as [|k|k].
    + lia.
    + apply Z.mul_nonneg_nonneg; [lia|]. apply Z.pow_nonneg. lia.
    + apply Z.div_pos; [|apply Z.pow_pos_nonneg; lia].
      pose proof (Z.pow_nonneg 2 (Zpos k)). lia.
Qed.

Lemma channelScales_all (n : nat) : (n < 256)%nat -> channelScales n = true.
Proof.
  intros Hn.
  assert (H : forallb channelScales (seq 0 256) = true)
    by (vm_compute; reflexivity).
  rewrite forallb_forall in H. apply H, in_seq. lia.
Qed.


Lemma channel_scales (r : Z) :
  (0 <= r <= 255)%Z ->
  Double.nonnegative (Double.of_Z r) = true
  /\ scaleChannel PrimFloat.one (Some r) = Integer r.
Proof.
  intros Hr.
  pose proof (channelScales_all (Z.to_nat r) ltac:(lia)) as H.
  unfold channelScales in H. rewrite Z2Nat.id in H by lia.
  apply andb_true_iff in H as [H1 H2]. split; [exact H1|].
  destruct (scaleChannel PrimFloat.one (Some r)) as [|s|z];
    try discriminate.
  apply Z.eqb_eq in H2. now subst.
Qed.

(** The scaled channel of a colour in the fixed format. *)
Lemma scaled_channel_prints (a b : ascii) (factor : PrimFloat.float) :
  isHex a = true -> isHex b = true -> Double.nonnegative factor = true ->
  exists r r' h l,
    parseInt16 (String a (String b "")) = Some r
    /\ (0 <= r <= 255)%Z
    /\ scaleChannel factor (Some r) = Integer r'
    /\ (0 <= r' <= 255)%Z
    /\ padStart2 (numberToString16 (scaleChannel factor (Some r)))
       = String h (String l "")
    /\ isHex h = true /\ isHex l = true
    /\ parseInt16 (String h (String l "")) = Some r'.
Proof.
  intros Ha Hb Hf.
  destruct (parse_two_hex a b Ha Hb) as (u & v & _ & _ & Hp & Hr).
  destruct (channel_scales _ Hr) as [Hn _].
  destruct (Math_min_255_notNegative _
              (mul_notNegative _ _ Hn Hf)) as (z & Ez & Hz).
  destruct (print_channel z Hz) as (h & l & E & Hh & Hl & Hback).
  exists (16 * u + v)%Z, z, h, l.
  assert (Es : scaleChannel factor (Some (16 * u + v)%Z) = Integer z)
    by exact Ez.
  rewrite Es. cbn [numberToString16]. repeat split; auto; lia.
Qed.

Lemma scaleChannel_NaN (factor : PrimFloat.float) :
  scaleChannel factor None = NotANumber.
Proof.
  unfold scaleChannel, Math_round, toNumber.
  rewrite FloatAxioms.mul_spec.
  change (FloatOps.Prim2SF PrimFloat.nan) with SpecFloat.S754_nan.
  reflexivity.
Qed.

(** Brightness adjustment keeps the fixed format.  For a colour that is [#]
    and six hexadecimal digits and a factor that is a finite double not
    below zero, each channel times the factor (the product of doubles),
    rounded and capped at 255, is a whole number from 0 to 255, and the
    result is [#] and the six hexadecimal digits of the three; with factor 1
    the channels are unchanged.  Every colour of the three palettes is in
    the fixed format.  A colour of fewer than two characters has no channel
    to read and gives [#NaNNaNNaN] whatever the factor. *)
Theorem adjustColorBrightness_keeps_format :
  (forall (color : string) (factor : PrimFloat.float),
      validColor color = true -> Double.nonnegative factor = true ->
      exists r g b r' g' b',
        channels color = (Some r, Some g, Some b)
        /\ scaleChannel factor (Some r) = Integer r'
        /\ scaleChannel factor (Some g) = Integer g'
        /\ scaleChannel factor (Some b) = Integer b'
        /\ (0 <= r' <= 255 /\ 0 <= g' <= 255 /\ 0 <= b' <= 255)%Z
        /\ validColor (Color.adjustColorBrightness color factor) = true
        /\ channels (Color.adjustColorBrightness color factor)
           = (Some r', Some g', Some b'))
  /\ (forall color : string,
      validColor color = true ->
      channels (Color.adjustColorBrightness color PrimFloat.one)
      = channels color)
  /\ (forall p color, In color (palettes p) -> validColor color = true)
  /\ (forall (color : string) (factor : PrimFloat.float),
      (String.length color <= 1)%nat ->
      Color.adjustColorBrightness color factor = "#NaNNaNNaN").
Proof.
  assert (Hmain : forall (color : string) (factor : PrimFloat.float),
      validColor color = true -> Double.nonnegative factor = true ->
      exists r g b r' g' b',
        channels color = (Some r, Some g, Some b)
        /\ scaleChannel factor (Some r) = Integer r'
        /\ scaleChannel factor (Some g) = Integer g'
        /\ scaleChannel factor (Some b) = Integer b'
        /\ (0 <= r <= 255 /\ 0 <= g <= 255 /\ 0 <= b <= 255)%Z
        /\ (0 <= r' <= 255 /\ 0 <= g' <= 255 /\ 0 <= b' <= 255)%Z
        /\ validColor (Color.adjustColorBrightness color factor) = true
        /\ channels (Color.adjustColorBrightness color factor)
           = (Some r', Some g', Some b')).
  { intros color factor Hv Hf.
    destruct (validColor_inv color Hv)
      as (a & b & c & d & e & f & -> & Ha & Hb & Hc & Hd & He & Hf').
    destruct (scaled_channel_prints a b factor Ha Hb Hf)
      as (r & r' & h1 & l1 & Pr & Rr & Sr & Rr' & Er & Hh1 & Hl1 & Br).
    destruct (scaled_channel_prints c d factor Hc Hd Hf)
      as (g & g' & h2 & l2 & Pg & Rg & Sg & Rg' & Eg & Hh2 & Hl2 & Bg).
    destruct (scaled_channel_prints e f factor He Hf' Hf)
      as (bl & bl' & h3 & l3 & Pb & Rb & Sb & Rb' & Eb & Hh3 & Hl3 & Bb).
    exists r, g, bl, r', g', bl'.
    assert (Hout : Color.adjustColorBrightness
                     (String "#" (String a (String b (String c (String d
                        (String e (String f "")))))))
                     factor
                   = String "#" (String h1 (String l1 (String h2 (String l2
                       (String h3 (String l3 ""))))))).
    { unfold Color.adjustColorBrightness. cbn [slice substring Nat.sub].
      cbv zeta. rewrite Pr, Pg, Pb, Er, Eg, Eb. reflexivity. }
    split.
    { unfold channels. cbn [slice substring Nat.sub]. now rewrite Pr, Pg, Pb. }
    split; [exact Sr|]. split; [exact Sg|]. split; [exact Sb|].
    split; [tauto|]. split; [tauto|].
    rewrite Hout. split.
    - simpl. now rewrite Hh1, Hl1, Hh2, Hl2, Hh3, Hl3.
    - unfold channels. cbn [slice substring Nat.sub]. now rewrite Br, Bg, Bb. }
  split; [|split; [|split]].
  - intros color factor Hv Hf.
    destruct (Hmain color factor Hv Hf)
      as (r & g & b & r' & g' & b' & H1 & H2 & H3 & H4 & _ & H5 & H6 & H7).
    exists r, g, b, r', g', b'. tauto.
  - intros color Hv.
    destruct (Hmain color PrimFloat.one Hv eq_refl)
      as (r & g & b & r' & g' & b' & H1 & H2 & H3 & H4 & (Rr & Rg & Rb)
          & _ & _ & H7).
    rewrite (proj2 (channel_scales r Rr)) in H2.
    rewrite (proj2 (channel_scales g Rg)) in H3.
    rewrite (proj2 (channel_scales b Rb)) in H4.
    injection H2 as <-. injection H3 as <-. injection H4 as <-.
    now rewrite H7, H1.
  - intros p color Hin.
    destruct p; simpl in Hin;
      repeat (destruct Hin as [<-|Hin]; [vm_compute; reflexivity|]);
      contradiction.
  - intros color factor Hlen.
    assert (E : Color.adjustColorBrightness color factor
                = "#" ++ padStart2 (numberToString16 (scaleChannel factor None))
                      ++ padStart2 (numberToString16 (scaleChannel factor None))
                      ++ padStart2 (numberToString16 (scaleChannel factor None))).
    { destruct color as [|a [|b rest]]; [reflexivity|reflexivity|].
      simpl in Hlen. lia. }
    rewrite E, scaleChannel_NaN. reflexivity.
Qed.

End ColorFacts.

Lemma adjustColorBrightness_keeps_format_witness :
  Color.validColor "#50E3C2" = true
  /\ Double.nonnegative (lit 1.2) = true
  /\ Color.validColor (Color.adjustColorBrightness "#50E3C2" (lit 1.2)) = true
  /\ Color.adjustColorBrightness "#50E3C2" (lit 1.2) = "#60ffe9"%string
  /\ Color.adjustColorBrightness "#323232" (lit 0.29) = "#0e0e0e"%string.
Proof.
  assert (H1 : Color.validColor "#50E3C2" = true) by reflexivity.
  assert (H2 : Double.nonnegative (lit 1.2) = true) by reflexivity.
  destruct (proj1 adjustColorBrightness_keeps_format "#50E3C2"%string
              (lit 1.2) H1 H2)
    as (r & g & b & r' & g' & b' & _ & _ & _ & _ & _ & Hv & _).
  split; [exact H1|]. split; [exact H2|]. split; [exact Hv|].
  split; vm_compute; reflexivity.
Defined.

Lemma channel_hex_round_trip_witness :
  (0 <= 233 <= 255)%Z
  /\ Color.parseInt16 (Color.padStart2 (Color.toString16 233)) = Some 233%Z.
Proof.
  assert (H : (0 <= 233 <= 255)%Z) by lia.
  exact (conj H (proj2 (proj1 channel_hex_round_trip 233%Z H))).
Defined.

(** ** The further properties on concrete inputs *)

Lemma undo_redo_keep_timeline_witness :
  Forall (fun ev => ev = Undo false \/ ev = Redo false)
    [@Undo R false; Undo false; Redo false]
  /\ timeline
       (run [Undo false; Undo false; Redo false]
          (idle (num:=R)
             [sampleStroke ripple 2; sampleStroke pulse 3]
             [sampleStroke particle 4]))
     = [sampleStroke ripple 2; sampleStroke pulse 3; sampleStroke particle 4]
  /\ (2 <= length (strokes (idle (num:=R)
                              [sampleStroke ripple 2; sampleStroke pulse 3]
                              [])))
  /\ Nat.iter 2 (handleRedo false)
       (Nat.iter 2 (handleUndo false)
          (idle (num:=R) [sampleStroke ripple 2; sampleStroke pulse 3] []))
     = idle [sampleStroke ripple 2; sampleStroke pulse 3] []
  /\ timeline
       (handleUndo true
          (idle (num:=R) [sampleStroke ripple 2; sampleStroke pulse 3]
             [sampleStroke particle 4]))
     = [sampleStroke ripple 2; sampleStroke pulse 3; sampleStroke pulse 3;
        sampleStroke particle 4].
Proof.
  assert (H1 : Forall (fun ev => ev = Undo false \/ ev = Redo false)
                 [@Undo R false; Undo false; Redo false])
    by (repeat constructor; auto).
  destruct (undo_redo_keep_timeline (num:=R)) as (Ht & _ & Hk & Hu & _).
  split; [exact H1|].
  split; [exact (proj1 (Ht _ (idle _ _) H1))|].
  assert (H2 : 2 <= length (strokes (idle (num:=R)
                              [sampleStroke ripple 2; sampleStroke pulse 3]
                              []))) by (simpl; lia).
  split; [exact H2|]. split; [exact (Hk 2 _ H2)|].
  exact (proj2 (Hu (idle [sampleStroke ripple 2; sampleStroke pulse 3]
                      [sampleStroke particle 4])
                  [sampleStroke ripple 2] (sampleStroke pulse 3) eq_refl)).
Defined.

Lemma clear_cannot_be_undone_witness :
  tempStroke (capturing (num:=R) 3 [sampleStroke pulse 2] []) =
    Some (sampleStroke ripple 3)
  /\ 2 <= length (points (sampleStroke (num:=R) ripple 3))
  /\ strokes
       (handlePointerUp
          (handleClear 800%R 600%R
             (capturing (num:=R) 3 [sampleStroke pulse 2] [])))
     = [optimizedStroke (sampleStroke ripple 3)].
Proof.
  assert (H1 : tempStroke (capturing (num:=R) 3 [sampleStroke pulse 2] []) =
               Some (sampleStroke ripple 3)) by reflexivity.
  assert (H2 : 2 <= length (points (sampleStroke (num:=R) ripple 3)))
    by (simpl; lia).
  destruct (clear_cannot_be_undone 800%R 600%R
              (capturing (num:=R) 3 [sampleStroke pulse 2] []))
    as (_ & _ & _ & _ & _ & Hup & _).
  exact (conj H1 (conj H2 (Hup _ H1 eq_refl H2))).
Defined.

Lemma session_flags_agree_witness :
  isDrawing
    (run [@Attach R; PointerDown (pointerAt 1 1) 0%Z; PointerUp]
       (initialState "#50E3C2")) = false
  /\ tempStroke
       (run [@Attach R; PointerDown (pointerAt 1 1) 0%Z; PointerUp]
          (initialState "#50E3C2")) = None.
Proof.
  assert (H : isDrawing
                (run [@Attach R; PointerDown (pointerAt 1 1) 0%Z; PointerUp]
                   (initialState "#50E3C2")) = false) by reflexivity.
  exact (conj H
           (proj1 (proj1 (session_flags_agree (num:=R) "#50E3C2"
                            [Attach; PointerDown (pointerAt 1 1) 0%Z;
                             PointerUp]) H))).
Defined.

Lemma samples_at_least_16ms_apart_witness :
  canvasRef (idle (num:=Q) [] []) = true
  /\ (16 <= moveThrottleRef (idle (num:=Q) [] []))%Z
  /\ exists ts,
       tempStroke
         (sessionAfter (pointerAt 0 0) 0%Z
            [(pointerAt 1 0, 20%Z); (pointerAt 2 0, 25%Z);
             (pointerAt 3 0, 40%Z)]
            (idle (num:=Q) [] [])) = Some ts
       /\ spaced 16 (map timestamp (tl (points ts))).
Proof.
  assert (H1 : canvasRef (idle (num:=Q) [] []) = true) by reflexivity.
  assert (H2 : (16 <= moveThrottleRef (idle (num:=Q) [] []))%Z)
    by (simpl; lia).
  exact (conj H1 (conj H2
           (proj1 (samples_at_least_16ms_apart (idle [] []) (pointerAt 0 0)
                     0%Z
                     [(pointerAt 1 0, 20%Z); (pointerAt 2 0, 25%Z);
                      (pointerAt 3 0, 40%Z)] H1 H2)))).
Defined.

Lemma slow_moves_are_all_sampled_witness :
  canvasRef (idle (num:=Q) [] []) = true
  /\ (16 <= moveThrottleRef (idle (num:=Q) [] []) <= 32)%Z
  /\ each_after 32 (lastMoveTimeRef (idle (num:=Q) [] []))
       (map snd [(pointerAt (num:=Q) 1 0, 40%Z); (pointerAt 2 0, 80%Z)])
  /\ exists ts,
       tempStroke
         (sessionAfter (pointerAt 0 0) 0%Z
            [(pointerAt 1 0, 40%Z); (pointerAt 2 0, 80%Z)]
            (idle (num:=Q) [] [])) = Some ts
       /\ map timestamp (points ts) = [0; 40; 80]%Z.
Proof.
  assert (H1 : canvasRef (idle (num:=Q) [] []) = true) by reflexivity.
  assert (H2 : (16 <= moveThrottleRef (idle (num:=Q) [] []) <= 32)%Z)
    by (simpl; lia).
  assert (H3 : each_after 32 (lastMoveTimeRef (idle (num:=Q) [] []))
                 (map snd [(pointerAt (num:=Q) 1 0, 40%Z);
                           (pointerAt 2 0, 80%Z)]))
    by (simpl; lia).
  destruct (slow_moves_are_all_sampled (idle [] []) (pointerAt 0 0) 0%Z
              [(pointerAt 1 0, 40%Z); (pointerAt 2 0, 80%Z)] H1 H2 H3)
    as (ts & E & Hm & _).
  split; [exact H1|]. split; [exact H2|]. split; [exact H3|].
  exists ts. exact (conj E Hm).
Defined.

Lemma storage_simplification_count_witness :
  500 < length (points (sampleStroke (num:=Q) ripple 1000))
  /\ 251 <= length (points (optimizedStroke (sampleStroke (num:=Q) ripple 1000)))
     <= 501.
Proof.
  assert (H : 500 < length (points (sampleStroke (num:=Q) ripple 1000))).
  { unfold sampleStroke. cbn [points]. rewrite length_map, length_seq. lia. }
  exact (conj H (proj2 (storage_simplification_count _ H))).
Defined.

Lemma render_simplification_count_witness :
  200 < length (points (sampleStroke (num:=R) pulse 301))
  /\ length (pointsToRender (sampleStroke (num:=R) pulse 301))
     = length (points (sampleStroke (num:=R) pulse 301)) / 2 + 1.
Proof.
  assert (H : 200 < length (points (sampleStroke (num:=R) pulse 301))).
  { unfold sampleStroke. cbn [points]. rewrite length_map, length_seq. lia. }
  exact (conj H (proj1 (render_simplification_count _) H)).
Defined.

Lemma ghost_pass_draws_every_point_witness :
  2 <= length (points (sampleStroke (num:=Q) particle 3))
  /\ drawGhost (sampleStroke (num:=Q) particle 3) freshContext
     = Ok ({| state := state freshContext; saved := saved freshContext;
              path := polyline (points (sampleStroke particle 3)) |},
           [ghostPaint (state freshContext) (sampleStroke particle 3)]).
Proof.
  assert (H : 2 <= length (points (sampleStroke (num:=Q) particle 3)))
    by (simpl; lia).
  exact (conj H
           (proj1 (ghost_pass_draws_every_point (sampleStroke particle 3)
                     freshContext) H)).
Defined.

Lemma pulse_paints_core_and_halo_witness :
  brush (sampleStroke (num:=R) pulse 5) = pulse
  /\ 2 <= length (points (sampleStroke (num:=R) pulse 5))
  /\ hd_error (pointsToRender (sampleStroke (num:=R) pulse 5))
     = Some (samplePoint 0)
  /\ exists c' halo core,
       drawBrush 1000%R (sampleStroke (num:=R) pulse 5) (Some freshContext)
       = Ok (Some c', [core; halo])
       /\ path c' =
          MoveTo (x (samplePoint 0)) (y (samplePoint 0))
          :: lineSegments (pointsToRender (sampleStroke pulse 5))
               (oddIndices (length (pointsToRender (sampleStroke pulse 5)))).
Proof.
  assert (H1 : brush (sampleStroke (num:=R) pulse 5) = pulse) by reflexivity.
  assert (H2 : 2 <= length (points (sampleStroke (num:=R) pulse 5)))
    by (simpl; lia).
  assert (H3 : hd_error (pointsToRender (sampleStroke (num:=R) pulse 5))
               = Some (samplePoint 0)) by reflexivity.
  split; [exact H1|]. split; [exact H2|]. split; [exact H3|].
  eexists _, _, _. split.
  - exact (pulse_paints_core_and_halo 1000%R _ freshContext _ H1 H2 H3).
  - reflexivity.
Defined.

Lemma ripple_width_comes_from_last_point_witness :
  brush (sampleStroke (num:=R) ripple 3) = ripple
  /\ 2 <= length (points (sampleStroke (num:=R) ripple 3))
  /\ Array_last (pointsToRender (sampleStroke (num:=R) ripple 3))
     = Some (samplePoint 2)
  /\ length (pointsToRender (sampleStroke (num:=R) ripple 3)) <= 10
  /\ exists c' outer,
       drawBrush 1000%R (sampleStroke (num:=R) ripple 3) (Some freshContext)
       = Ok (Some c', [outer]).
Proof.
  assert (H1 : brush (sampleStroke (num:=R) ripple 3) = ripple)
    by reflexivity.
  assert (H2 : 2 <= length (points (sampleStroke (num:=R) ripple 3)))
    by (simpl; lia).
  assert (H3 : hd_error (pointsToRender (sampleStroke (num:=R) ripple 3))
               = Some (samplePoint 0)) by reflexivity.
  assert (H4 : Array_last (pointsToRender (sampleStroke (num:=R) ripple 3))
               = Some (samplePoint 2)) by reflexivity.
  assert (H5 : length (pointsToRender (sampleStroke (num:=R) ripple 3)) <= 10)
    by (simpl; lia).
  split; [exact H1|]. split; [exact H2|]. split; [exact H4|].
  split; [exact H5|].
  eexists _, _.
  exact (proj1 (ripple_width_comes_from_last_point 1000%R _ freshContext
                  _ _ H1 H2 H3 H4) H5).
Defined.

Lemma brushes_paint_with_glow_witness :
  exists c' out,
    drawBrush 1000%R (sampleStroke (num:=R) particle 9) (Some freshContext)
    = Ok (Some c', out)
    /\ Forall (filledIn (glowing "source-over" (sampleStroke particle 9))) out.
Proof.
  destruct (drawBrush_some 1000%R (sampleStroke (num:=R) particle 9)
              freshContext) as (c' & out & E & _).
  exists c', out. split; [exact E|].
  exact (brushes_paint_with_glow _ _ _ _ _ E).
Defined.

Lemma animate_effect_witness :
  ctx (initCanvas (Some freshContext)
         (idle (num:=R) [sampleStroke pulse 2] []))
  = Some {| state :=
              set_lineCap "round"
                (set_lineJoin "round"
                   (set_globalCompositeOperation "lighter"
                      (state freshContext)));
            saved := []; path := [] |}
  /\ animate 5%R (fun _ => 5%R) 800%R 600%R
       (initCanvas (Some freshContext)
          (idle (num:=R) [sampleStroke pulse 2] []))
     = Ok (initCanvas (Some freshContext)
             (idle (num:=R) [sampleStroke pulse 2] []))
  /\ animate 1010%R (fun _ => 1010%R) 800%R 600%R
       (restartAnimation 1000%R
          (initCanvas (Some freshContext)
             (idle (num:=R) [sampleStroke pulse 2] [])))
     = Ok (restartAnimation 1000%R
             (initCanvas (Some freshContext)
                (idle (num:=R) [sampleStroke pulse 2] []))).
Proof.
  split; [reflexivity|].
  pose proof (animate_effect 5%R (fun _ => 5%R) 800%R 600%R
                (initCanvas (Some freshContext)
                   (idle (num:=R) [sampleStroke pulse 2] []))
                _ eq_refl eq_refl) as (Hskip & _).
  pose proof (animate_effect 1010%R (fun _ => 1010%R) 800%R 600%R
                (initCanvas (Some freshContext)
                   (idle (num:=R) [sampleStroke pulse 2] []))
                _ eq_refl eq_refl) as (_ & Hrestart & _).
  split.
  - apply Hskip.
    cbn [ltb sub lit R_JsNumber lastTimeRef initCanvas idle component
         canvasRef negb].
    destruct (Rlt_dec (5 - Q2R 0) (Q2R 16)) as [_|Hn]; [reflexivity|].
    exfalso. apply Hn. unfold Q2R; simpl. lra.
  - apply (Hrestart 1000%R).
    cbn [ltb sub lit R_JsNumber].
    destruct (Rlt_dec (1010 - 1000) (Q2R 16)) as [_|Hn]; [reflexivity|].
    exfalso. apply Hn. unfold Q2R; simpl. lra.
Defined.

Lemma frame_during_capture_witness :
  tempStroke (capturing (num:=R) 3 [sampleStroke pulse 2] [])
  = Some (sampleStroke ripple 3)
  /\ exists c' brushOut,
       frame (fun _ => 1000%R) 800%R 600%R
         (capturing (num:=R) 3 [sampleStroke pulse 2] []) freshContext
       = Ok (c',
             ClearRect (lit 0) (lit 0) 800%R 600%R
             :: map (ghostPaint (set_globalAlpha (lit 0.95)
                                   (state freshContext)))
                  (ghostable [sampleStroke pulse 2])
             ++ brushOut).
Proof.
  assert (H : tempStroke (capturing (num:=R) 3 [sampleStroke pulse 2] [])
              = Some (sampleStroke ripple 3)) by reflexivity.
  split; [exact H|].
  destruct (frame_during_capture (fun _ => 1000%R) 800%R 600%R
              (capturing (num:=R) 3 [sampleStroke pulse 2] []) freshContext
              _ H) as (cB & c' & brushOut & E & _).
  exists c', brushOut. exact E.
Defined.

Lemma frame_when_idle_witness :
  tempStroke (idle (num:=R) [sampleStroke pulse 2; sampleStroke ripple 3] [])
  = None
  /\ exists c' outs,
       frame (fun _ => 1000%R) 800%R 600%R
         (idle (num:=R) [sampleStroke pulse 2; sampleStroke ripple 3] [])
         freshContext
       = Ok (c', ClearRect (lit 0) (lit 0) 800%R 600%R :: concat outs)
       /\ length outs = 2.
Proof.
  assert (H : tempStroke
                (idle (num:=R) [sampleStroke pulse 2; sampleStroke ripple 3]
                   []) = None) by reflexivity.
  split; [exact H|].
  destruct (frame_when_idle (fun _ => 1000%R) 800%R 600%R
              (idle (num:=R) [sampleStroke pulse 2; sampleStroke ripple 3] [])
              freshContext H) as (c' & outs & E & _ & _ & Hall).
  exists c', outs. split; [exact E|].
  apply Forall2_length in Hall. simpl in Hall. now rewrite <- Hall.
Defined.

Lemma strokes_are_blended_additively_witness :
  ctx (run [@Attach R; InitCanvas (Some freshContext)]
         (initialState "#50E3C2"))
  = Some {| state :=
              set_lineCap "round"
                (set_lineJoin "round"
                   (set_globalCompositeOperation "lighter"
                      (state freshContext)));
            saved := []; path := [] |}
  /\ globalCompositeOperation
       (set_lineCap "round"
          (set_lineJoin "round"
             (set_globalCompositeOperation "lighter"
                (state (freshContext (num:=R))))))
     = "lighter"%string.
Proof.
  assert (H : ctx (run [@Attach R; InitCanvas (Some freshContext)]
                     (initialState "#50E3C2"))
              = Some {| state :=
                          set_lineCap "round"
                            (set_lineJoin "round"
                               (set_globalCompositeOperation "lighter"
                                  (state freshContext)));
                        saved := []; path := [] |}) by reflexivity.
  exact (conj H
           (proj2 (strokes_are_blended_additively (num:=R) "#50E3C2"
                     [Attach; InitCanvas (Some freshContext)]) _ H)).
Defined.
